(** * Trip-lead manager: roster allocation, proposal cache and promotion

    A shallow embedding of the allocation / approval engine of
    [server/vite.ts] (route handlers registered by [registerRoutes]) and of
    the persistence adapter [server/lib/airtable.ts], together with the
    properties the specification states about them.

    Conventions of the embedding:
    - JavaScript strings are [string]s of 8-bit characters; [toLowerCase]
      folds the letters A-Z only;
    - JavaScript numbers that are used as counts, indices and timestamps are
      integers [Z];
    - the [Map] holding the pending proposals is a [gmap string _], a [Set]
      of ids is a [gset string];
    - the Airtable signup table is the list of its records, in the order
      the API returns them;
    - a route handler is a function from the state of the world to a
      response and a new state; an early [return res.status(..)] is the
      [inl] branch of the result, and so is an exception of the
      persistence adapter (answered with 500);
    - a handler starts where the source destructures
      [validationResult.data]: its arguments are the fields of a request
      body that passed the schema;
    - the store is reachable: a request to it fails only when the record
      it addresses does not exist. *)

From Stdlib Require Import ZArith Ascii.
From stdpp Require Import base decidable option list sets gmap strings pretty.

Local Open Scope Z_scope.

(** ** Strings *)

Module Str.

(** [String.prototype.toLowerCase] on one character (A-Z only). *)
Definition lower_ascii (c : ascii) : ascii :=
  let n := N_of_ascii c in
  if ((65 <=? n) && (n <=? 90))%N then ascii_of_N (n + 32) else c.

Fixpoint toLowerCase (s : string) : string :=
  match s with
  | EmptyString => EmptyString
  | String c s' => String (lower_ascii c) (toLowerCase s')
  end.

(** [s.includes(needle)]: some suffix of [s] starts with [needle]. *)
Fixpoint includes (s needle : string) : bool :=
  String.prefix needle s ||
  match s with
  | EmptyString => false
  | String _ s' => includes s' needle
  end.

Fixpoint all_chars (P : ascii → bool) (s : string) : bool :=
  match s with
  | EmptyString => true
  | String c s' => P c && all_chars P s'
  end.

Definition is_digit (c : ascii) : bool :=
  let n := N_of_ascii c in ((48 <=? n) && (n <=? 57))%N.

(** The characters after the fixed prefix of a written status:
    decimal digits and the separator of a date. *)
Definition is_stamp_char (c : ascii) : bool :=
  is_digit c || Ascii.eqb c "/"%char.

Definition no_stamp_char (c : ascii) : bool := negb (is_stamp_char c).

End Str.

(** ** Status strings *)

(** The status strings written by the handlers. *)
Definition selectedStatus (isDriver : bool) : string :=
  if isDriver then "Selected (driver)" else "Selected (nondriver)".

(** [`Waitlist (driver) - ${index + 1}`]: [index] is an array index. *)
Definition waitlistStatus (isDriver : bool) (index : nat) : string :=
  (if isDriver then "Waitlist (driver) - " else "Waitlist (nondriver) - ")
    +:+ pretty (S index).

(** A calendar date as [new Date()] yields it. *)
Record Date := mkDate { year : nat; month : nat; day : nat }.

(** [s.padStart(targetLength, "0")] *)
Fixpoint zeros (k : nat) : string :=
  match k with
  | O => ""
  | S k => String "0" (zeros k)
  end.

Definition padStart0 (s : string) (targetLength : nat) : string :=
  zeros (targetLength - String.length s) +:+ s.

(** date-fns zero padding ([addLeadingZeros]). *)
Definition addLeadingZeros (n : nat) (targetLength : nat) : string :=
  padStart0 (pretty n) targetLength.

(** [format(d, "MM/dd/yyyy")] of date-fns; its [yyyy] prints the year 0
    as 0001. *)
Definition formatMMddyyyy (d : Date) : string :=
  let y := match year d with O => 1%nat | signedYear => signedYear end in
  addLeadingZeros (month d) 2 +:+ "/" +:+ addLeadingZeros (day d) 2
    +:+ "/" +:+ addLeadingZeros y 4.

(** [`Dropped- ${todayDate}`] *)
Definition droppedStatus (today : Date) : string :=
  "Dropped- " +:+ formatMMddyyyy today.

(** The three filters of the signups, addFromWaitlist, addDriver,
    addNonDriver and reAddParticipant handlers, on a status string
    ([s.fields.Status?.toLowerCase() || ""]). *)
Definition isRosterStatus (status : string) : bool :=
  let status := Str.toLowerCase status in
  let isOnRoster :=
    Str.includes status "selected" || Str.includes status "on trip" in
  let isDropped := Str.includes status "dropped" in
  isOnRoster && negb isDropped.

Definition isWaitlistStatus (status : string) : bool :=
  let status := Str.toLowerCase status in
  Str.includes status "waitlist".

Definition isDroppedStatus (status : string) : bool :=
  let status := Str.toLowerCase status in
  Str.includes status "dropped".

(** ** Records of the persistence layer *)

(** A raw record of the signups table ([AirtableSignup]); an absent field
    is [None]. *)
Record AirtableSignup := mkAirtableSignup {
  rawId : string;
  SlackNameRefined : option string;
  TripLeadName : option (list string);
  DoYouHaveACar : option (list (option bool));
  rawStatus : option string;
  PersonalEmail : option string;
  EmergencyContactPhone : option (list string)
}.

(** The normalized signup the handlers work with. *)
Record Signup := mkSignup {
  id : string;
  ParticipantName : string;
  TripID : list string;
  IsDriver : bool;
  Status : string;
  Email : option string;
  Phone : option string
}.

(** A record of the trips table, with the three numeric fields the
    handlers read. *)
Record Trip := mkTrip {
  tripRecordId : string;
  Capacity : option Z;
  AdditionalDriversRequired : option Z;
  NonDriversCapacity : option Z
}.

(** [x || fallback] on an optional string: absent and empty are falsy. *)
Definition orString (x : option string) (fallback : string) : string :=
  match x with
  | Some EmptyString | None => fallback
  | Some s => s
  end.

(** [x || 0] on an optional number. *)
Definition orZero (x : option Z) : Z := default 0 x.

(** White space in the sense of [trim], among the code units below 256
    that an [ascii] holds: tab to carriage return, space and U+00A0. *)
Definition is_space (c : ascii) : bool :=
  let n := N_of_ascii c in
  ((9 <=? n) && (n <=? 13) || (n =? 32) || (n =? 160))%N.

(** [p && p.trim()] as a condition. *)
Definition nonBlank (p : string) : bool := negb (Str.all_chars is_space p).

Definition normalizeSignup (rawSignup : AirtableSignup) : Signup :=
  let normalizedStatus := orString (rawStatus rawSignup) "UNKNOWN" in
  let hasCar :=
    match DoYouHaveACar rawSignup with
    | Some answers => existsb (λ a, default false a) answers
    | None => false
    end in
  let phoneArray := default [] (EmergencyContactPhone rawSignup) in
  let phone := find nonBlank phoneArray in
  {| id := rawId rawSignup;
     ParticipantName := orString (SlackNameRefined rawSignup) "Unknown";
     TripID := default [] (TripLeadName rawSignup);
     IsDriver := hasCar;
     Status := normalizedStatus;
     Email := PersonalEmail rawSignup;
     Phone := phone |}.

(** [updates: Partial<Signup["fields"]>]; only [Status] is ever mapped back
    by [updateSignup]. *)
Record SignupUpdates := mkUpdates { updStatus : option string }.

(** The body of a PATCH request ([airtableUpdates]). *)
Record AirtablePatch := mkPatch { patchStatus : option string }.

(** The mapping of [updateSignup] from app status to Airtable status. *)
Definition airtableUpdatesOf (updates : SignupUpdates) : AirtablePatch :=
  match updStatus updates with
  | Some st =>
      if bool_decide (st = "Roster") then {| patchStatus := Some "ON TRIP" |}
      else if bool_decide (st = "Waitlist") then
        {| patchStatus := Some "WAITLIST" |}
      else {| patchStatus := Some st |}
  | None => {| patchStatus := None |}
  end.

(** What the store does with a PATCH: the fields present in the body are
    overwritten, every other field of the record is kept. *)
Definition applyPatch (p : AirtablePatch) (r : AirtableSignup)
  : AirtableSignup :=
  match patchStatus p with
  | Some st =>
      {| rawId := rawId r;
         SlackNameRefined := SlackNameRefined r;
         TripLeadName := TripLeadName r;
         DoYouHaveACar := DoYouHaveACar r;
         rawStatus := Some st;
         PersonalEmail := PersonalEmail r;
         EmergencyContactPhone := EmergencyContactPhone r |}
  | None => r
  end.

(** ** The proposal cache *)

Record ProposedRoster := mkProposed {
  rosterIds : list string;
  waitlistIds : list string;
  timestamp : Z
}.

Definition PROPOSAL_TTL : Z := 10 * 60 * 1000.

(** ** The world and the handler monad *)

(** What a handler does to the outside, in the order it does it. *)
Inductive Event :=
| EvCacheSet (tripId : string) (proposal : ProposedRoster)
| EvCacheDelete (tripId : string)
| EvGetTrip (tripId : string)
| EvListSignups (tripId : string)
| EvPatch (signupId : string) (body : AirtablePatch).

Record World := mkWorld {
  proposedRosters : gmap string ProposedRoster;
  tripsTable : list Trip;
  signupsTable : list AirtableSignup;
  trace : list Event
}.

(** The error responses of the handlers.  The 400 and 404 responses are
    named after their [error] text; [UpstreamFailure] is an exception
    thrown by the persistence adapter and answered with 500. *)
Inductive ApiError :=
| InvalidCapacity        (* Trip has no capacity defined for drivers or non-drivers *)
| EmptyPool              (* No participants signed up for this trip *)
| NoPendingProposal      (* No pending randomization found *)
| ProposalMismatch       (* Approval data does not match randomization *)
| RosterFull             (* Roster currently full! *)
| WaitlistEmpty          (* No participants on waitlist *)
| NoDriversOnWaitlist    (* No drivers (available) on waitlist *)
| NoNonDriversOnWaitlist (* No non-drivers (available) on waitlist *)
| NoSuitableParticipant  (* No suitable participant found on waitlist *)
| NoDriverSpots          (* No driver spots available *)
| NoNonDriverSpots       (* No non-driver spots available *)
| ParticipantNotFound    (* Participant not found *)
| UpstreamFailure.

Definition httpStatus (e : ApiError) : Z :=
  match e with
  | ParticipantNotFound => 404
  | UpstreamFailure => 500
  | _ => 400
  end.

Definition M (A : Type) : Type := World → (ApiError + A) * World.

#[global] Instance M_ret : MRet M := λ A a w, (inr a, w).

#[global] Instance M_bind : MBind M := λ A B f m w,
  match m w with
  | (inl e, w') => (inl e, w')
  | (inr a, w') => f a w'
  end.

Definition fail {A} (e : ApiError) : M A := λ w, (inl e, w).

Definition emit (e : Event) (w : World) : World :=
  {| proposedRosters := proposedRosters w;
     tripsTable := tripsTable w;
     signupsTable := signupsTable w;
     trace := trace w ++ [e] |}.

Definition withCache (c : gmap string ProposedRoster) (w : World) : World :=
  {| proposedRosters := c;
     tripsTable := tripsTable w;
     signupsTable := signupsTable w;
     trace := trace w |}.

Definition withSignups (t : list AirtableSignup) (w : World) : World :=
  {| proposedRosters := proposedRosters w;
     tripsTable := tripsTable w;
     signupsTable := t;
     trace := trace w |}.

(** [proposedRosters.get], [.set] and [.delete]. *)
Definition cacheGet (tripId : string) : M (option ProposedRoster) :=
  λ w, (inr (proposedRosters w !! tripId), w).

Definition cacheSet (tripId : string) (p : ProposedRoster) : M () :=
  λ w, (inr (),
        emit (EvCacheSet tripId p)
          (withCache (<[tripId := p]> (proposedRosters w)) w)).

Definition cacheDelete (tripId : string) : M () :=
  λ w, (inr (),
        emit (EvCacheDelete tripId)
          (withCache (delete tripId (proposedRosters w)) w)).

(** ** The persistence adapter (lib/airtable.ts) *)

(** The record a GET of [/trips/:id] answers with, if there is one. *)
Definition tripById (tripId : string) (trips : list Trip) : option Trip :=
  find (λ t, bool_decide (tripRecordId t = tripId)) trips.

Definition fetchTripById (tripId : string) : M Trip := λ w,
  let w := emit (EvGetTrip tripId) w in
  match tripById tripId (tripsTable w) with
  | Some t => (inr t, w)
  | None => (inl UpstreamFailure, w)
  end.

(** [Array.isArray(signupTripIds) && signupTripIds.includes(tripId)] *)
Definition linkedToTrip (tripId : string) (signup : AirtableSignup) : bool :=
  match TripLeadName signup with
  | Some signupTripIds => bool_decide (tripId ∈ signupTripIds)
  | None => false
  end.

(** The pages of the table are fetched and concatenated
    ([allRawSignups]); the records linked to the trip are kept and
    normalized. *)
Definition signupsOfTrip (tripId : string) (allRawSignups : list AirtableSignup)
  : list Signup :=
  let filtered := filter (λ signup, linkedToTrip tripId signup)
                         allRawSignups in
  normalizeSignup <$> filtered.

Definition fetchTripSignups (tripId : string) : M (list Signup) := λ w,
  let w := emit (EvListSignups tripId) w in
  (inr (signupsOfTrip tripId (signupsTable w)), w).

(** The record with the given id, if the table has one. *)
Definition recordById (signupId : string) (table : list AirtableSignup)
  : option AirtableSignup :=
  find (λ r, bool_decide (rawId r = signupId)) table.

(** The table after a PATCH of the record [signupId]. *)
Definition patchTable (signupId : string) (body : AirtablePatch)
    (table : list AirtableSignup) : list AirtableSignup :=
  (λ r, if bool_decide (rawId r = signupId) then applyPatch body r else r)
    <$> table.

Definition updateSignup (signupId : string) (updates : SignupUpdates)
  : M Signup := λ w,
  let airtableUpdates := airtableUpdatesOf updates in
  let w := emit (EvPatch signupId airtableUpdates) w in
  match recordById signupId (signupsTable w) with
  | Some r =>
      let rawUpdated := applyPatch airtableUpdates r in
      (inr (normalizeSignup rawUpdated),
       withSignups (patchTable signupId airtableUpdates (signupsTable w)) w)
  | None => (inl UpstreamFailure, w)
  end.

(** ** Array helpers *)

(** [Array.prototype.slice(start, end)] with its treatment of negative and
    out-of-range indices; [end_ = None] is the one-argument call. *)
Definition slice {A} (l : list A) (start : Z) (end_ : option Z) : list A :=
  let len := Z.of_nat (length l) in
  let clamp k := if k <? 0 then Z.max (len + k) 0 else Z.min k len in
  let from := clamp start in
  let to := match end_ with Some e => clamp e | None => len end in
  take (Z.to_nat (Z.max (to - from) 0)) (drop (Z.to_nat from) l).

(** [new Map(signups.map(s => [s.id, s]))]: a later entry with the same key
    replaces an earlier one. *)
Definition signupMapOf (signups : list Signup) : gmap string Signup :=
  foldl (λ m s, <[id s := s]> m) ∅ signups.

(** ** The sweep of the proposal cache *)

Definition expired (now : Z) (proposal : ProposedRoster) : bool :=
  bool_decide (now - timestamp proposal > PROPOSAL_TTL).

(** [cleanupExpiredProposals], run by [setInterval] every minute, at time
    [now].  The entries are visited in the order of [map_to_list]; the
    resulting cache does not depend on that order. *)
Definition sweepStep (now : Z) (w : World)
    (entry : string * ProposedRoster) : World :=
  let '(tripId, proposal) := entry in
  if expired now proposal then (cacheDelete tripId w).2 else w.

Definition cleanupExpiredProposals (now : Z) (w : World) : World :=
  let entries := map_to_list (proposedRosters w) in
  foldl (sweepStep now) w entries.

(** ** GET signups for a trip *)

Record SignupsResponse := mkSignupsResponse {
  signups : list Signup;
  roster : list Signup;
  waitlist : list Signup;
  dropped : list Signup;
  driverCount : nat
}.

Definition rosterOf (signups : list Signup) : list Signup :=
  filter (λ s, isRosterStatus (Status s)) signups.

Definition waitlistOf (signups : list Signup) : list Signup :=
  filter (λ s, isWaitlistStatus (Status s)) signups.

Definition droppedOf (signups : list Signup) : list Signup :=
  filter (λ s, isDroppedStatus (Status s)) signups.

Definition getSignups (tripId : string) : M SignupsResponse :=
  signups ← fetchTripSignups tripId;
  let roster := rosterOf signups in
  let waitlist := waitlistOf signups in
  let dropped := droppedOf signups in
  let driverCount := length (filter (λ s, IsDriver s) roster) in
  mret {| signups := signups; roster := roster; waitlist := waitlist;
          dropped := dropped; driverCount := driverCount |}.

(** ** POST randomize *)

(** The selection and backfill steps of the randomize handler, on the two
    shuffled pools. *)
Record Allocation := mkAllocation {
  selectedAsDrivers : list Signup;
  selectedAsNonDrivers : list Signup;
  driversUsedAsNonDrivers : list Signup;
  rejectedDrivers : list Signup;
  rejectedNonDrivers : list Signup
}.

Definition allocate (shuffledDrivers shuffledNonDrivers : list Signup)
    (driverSlotsNeeded nonDriverSlotsNeeded : Z) : Allocation :=
  let selectedAsDrivers := slice shuffledDrivers 0 (Some driverSlotsNeeded) in
  let remainingDriverPool := slice shuffledDrivers driverSlotsNeeded None in
  let selectedAsNonDrivers :=
    slice shuffledNonDrivers 0 (Some nonDriverSlotsNeeded) in
  let remainingNonDriverPool :=
    slice shuffledNonDrivers nonDriverSlotsNeeded None in
  let nonDriverSlotsFilled := Z.of_nat (length selectedAsNonDrivers) in
  if (nonDriverSlotsFilled <? nonDriverSlotsNeeded)
     && (0 <? Z.of_nat (length remainingDriverPool))
  then
    let neededBackfill := nonDriverSlotsNeeded - nonDriverSlotsFilled in
    let driversUsedAsNonDrivers :=
      slice remainingDriverPool 0 (Some neededBackfill) in
    {| selectedAsDrivers := selectedAsDrivers;
       selectedAsNonDrivers := selectedAsNonDrivers ++ driversUsedAsNonDrivers;
       driversUsedAsNonDrivers := driversUsedAsNonDrivers;
       rejectedDrivers := slice remainingDriverPool neededBackfill None;
       rejectedNonDrivers := remainingNonDriverPool |}
  else
    {| selectedAsDrivers := selectedAsDrivers;
       selectedAsNonDrivers := selectedAsNonDrivers;
       driversUsedAsNonDrivers := [];
       rejectedDrivers := remainingDriverPool;
       rejectedNonDrivers := remainingNonDriverPool |}.

Definition proposedRosterOf (a : Allocation) : list Signup :=
  selectedAsDrivers a ++ selectedAsNonDrivers a.

Definition proposedWaitlistOf (a : Allocation) : list Signup :=
  rejectedDrivers a ++ rejectedNonDrivers a.

Record RandomizeResponse := mkRandomizeResponse {
  proposedRoster : list Signup;
  proposedWaitlist : list Signup
}.

(** [shuffle] stands for [[...pool].sort(() => Math.random() - 0.5)] and
    [now] for [Date.now()]. *)
Definition randomize (shuffle : list Signup → list Signup) (now : Z)
    (tripId : string) : M RandomizeResponse :=
  trip ← fetchTripById tripId;
  let driverSlotsNeeded := orZero (AdditionalDriversRequired trip) in
  let nonDriverSlotsNeeded := orZero (NonDriversCapacity trip) in
  if (driverSlotsNeeded =? 0) && (nonDriverSlotsNeeded =? 0)
  then fail InvalidCapacity
  else
    allSignups ← fetchTripSignups tripId;
    if bool_decide (length allSignups = 0%nat) then fail EmptyPool
    else
      let driverEligible := filter (λ s, IsDriver s) allSignups in
      let nonDriverEligible := filter (λ s, negb (IsDriver s)) allSignups in
      let shuffledDrivers := shuffle driverEligible in
      let shuffledNonDrivers := shuffle nonDriverEligible in
      let a := allocate shuffledDrivers shuffledNonDrivers
                 driverSlotsNeeded nonDriverSlotsNeeded in
      let proposedRoster := proposedRosterOf a in
      let proposedWaitlist := proposedWaitlistOf a in
      let rosterIds := id <$> proposedRoster in
      let waitlistIds := id <$> proposedWaitlist in
      _ ← cacheSet tripId {| rosterIds := rosterIds;
                             waitlistIds := waitlistIds;
                             timestamp := now |};
      mret {| proposedRoster := proposedRoster;
              proposedWaitlist := proposedWaitlist |}.

(** ** POST approve-randomization *)

(** [ids.length === stored.length && ids.every(id => storedSet.has(id))] *)
Definition idsMatch (ids stored : list string) : bool :=
  let storedSet : gset string := list_to_set stored in
  bool_decide (length ids = length stored)
  && forallb (λ id, bool_decide (id ∈ storedSet)) ids.

(** The handler up to its first [await]: lookup, validation and removal of
    the stored proposal.  This part runs without interruption.  The source
    also builds [rosterIdsSet] and [waitlistIdsSet] from the request and
    never reads them. *)
Definition approveValidate (tripId : string)
    (reqRosterIds reqWaitlistIds : list string) : M () :=
  storedProposal ← cacheGet tripId;
  match storedProposal with
  | None => fail NoPendingProposal
  | Some storedProposal =>
      let rosterMatches :=
        idsMatch reqRosterIds (rosterIds storedProposal) in
      let waitlistMatches :=
        idsMatch reqWaitlistIds (waitlistIds storedProposal) in
      if negb rosterMatches || negb waitlistMatches
      then fail ProposalMismatch
      else cacheDelete tripId
  end.

Definition rosterUpdatesOf (signupMap : gmap string Signup)
    (reqRosterIds : list string) : list (string * string) :=
  omap (λ id, signup ← signupMap !! id;
              Some (id, selectedStatus (IsDriver signup))) reqRosterIds.

Definition resolvesAs (signupMap : gmap string Signup) (driver : bool)
    (id : string) : bool :=
  match signupMap !! id with
  | Some signup => bool_decide (IsDriver signup = driver)
  | None => false
  end.

Definition waitlistUpdatesOf (signupMap : gmap string Signup)
    (reqWaitlistIds : list string) : list (string * string) :=
  let waitlistDrivers :=
    filter (λ id, resolvesAs signupMap true id) reqWaitlistIds in
  let waitlistNonDrivers :=
    filter (λ id, resolvesAs signupMap false id) reqWaitlistIds in
  imap (λ index id, (id, waitlistStatus true index)) waitlistDrivers
  ++ imap (λ index id, (id, waitlistStatus false index)) waitlistNonDrivers.

(** The update tasks, started in this order (at most two in flight). *)
Fixpoint runUpdates (tasks : list (string * string)) : M (list Signup) :=
  match tasks with
  | [] => mret []
  | (id, status) :: rest =>
      updated ← updateSignup id {| updStatus := Some status |};
      others ← runUpdates rest;
      mret (updated :: others)
  end.

Record ApproveRandomizationResponse := mkApproveResponse {
  onRoster : nat;
  onWaitlist : nat
}.

(** The rest of the handler, after the proposal is cleared. *)
Definition approveCommit (tripId : string)
    (reqRosterIds reqWaitlistIds : list string)
  : M ApproveRandomizationResponse :=
  signups ← fetchTripSignups tripId;
  let signupMap := signupMapOf signups in
  let rosterUpdates := rosterUpdatesOf signupMap reqRosterIds in
  let waitlistUpdates := waitlistUpdatesOf signupMap reqWaitlistIds in
  let updateTasks := rosterUpdates ++ waitlistUpdates in
  _ ← runUpdates updateTasks;
  mret {| onRoster := length reqRosterIds;
          onWaitlist := length reqWaitlistIds |}.

Definition approveRandomization (tripId : string)
    (reqRosterIds reqWaitlistIds : list string)
  : M ApproveRandomizationResponse :=
  _ ← approveValidate tripId reqRosterIds reqWaitlistIds;
  approveCommit tripId reqRosterIds reqWaitlistIds.

(** ** POST addFromWaitlist, addDriver, addNonDriver *)

(** [arr[0]] *)
Definition first {A} (l : list A) : option A := head l.

Definition addFromWaitlist (tripId : string) : M Signup :=
  trip ← fetchTripById tripId;
  let maxParticipants := orZero (Capacity trip) in
  let driverSlots := orZero (AdditionalDriversRequired trip) in
  signups ← fetchTripSignups tripId;
  let roster := rosterOf signups in
  let currentDrivers := Z.of_nat (length (filter (λ s, IsDriver s) roster)) in
  let currentNonDrivers := Z.of_nat (length roster) - currentDrivers in
  let currentTotal := Z.of_nat (length roster) in
  if maxParticipants <=? currentTotal then fail RosterFull
  else
    let driverSpotsAvailable := driverSlots - currentDrivers in
    let nonDriverSpotsAvailable :=
      maxParticipants - driverSlots - currentNonDrivers in
    let waitlist := waitlistOf signups in
    if bool_decide (length waitlist = 0%nat) then fail WaitlistEmpty
    else
      let waitlistDrivers := filter (λ s, IsDriver s) waitlist in
      let waitlistNonDrivers := filter (λ s, negb (IsDriver s)) waitlist in
      nextPerson ←
        (if (0 <? driverSpotsAvailable) && (0 <? nonDriverSpotsAvailable)
         then
           match first waitlistDrivers, first waitlistNonDrivers with
           | Some d, _ => mret (Some d)
           | None, Some n => mret (Some n)
           | None, None => fail WaitlistEmpty
           end
         else if 0 <? driverSpotsAvailable then
           match first waitlistDrivers with
           | None => fail NoDriversOnWaitlist
           | Some d => mret (Some d)
           end
         else if 0 <? nonDriverSpotsAvailable then
           match first waitlistNonDrivers with
           | None => fail NoNonDriversOnWaitlist
           | Some n => mret (Some n)
           end
         else mret None);
      match nextPerson with
      | None => fail NoSuitableParticipant
      | Some nextPerson =>
          let isDriver := IsDriver nextPerson in
          let newStatus := selectedStatus isDriver in
          updateSignup (id nextPerson) {| updStatus := Some newStatus |}
      end.

Definition addDriver (tripId : string) : M Signup :=
  trip ← fetchTripById tripId;
  let maxParticipants := orZero (Capacity trip) in
  let driverSlots := orZero (AdditionalDriversRequired trip) in
  signups ← fetchTripSignups tripId;
  let roster := rosterOf signups in
  let currentDrivers := Z.of_nat (length (filter (λ s, IsDriver s) roster)) in
  let currentTotal := Z.of_nat (length roster) in
  if maxParticipants <=? currentTotal then fail RosterFull
  else
    let driverSpotsAvailable := driverSlots - currentDrivers in
    if driverSpotsAvailable <=? 0 then fail NoDriverSpots
    else
      let waitlist := waitlistOf signups in
      let waitlistDrivers := filter (λ s, IsDriver s) waitlist in
      match first waitlistDrivers with
      | None => fail NoDriversOnWaitlist
      | Some nextDriver =>
          updateSignup (id nextDriver)
            {| updStatus := Some "Selected (driver)" |}
      end.

Definition addNonDriver (tripId : string) : M Signup :=
  trip ← fetchTripById tripId;
  let maxParticipants := orZero (Capacity trip) in
  let driverSlots := orZero (AdditionalDriversRequired trip) in
  signups ← fetchTripSignups tripId;
  let roster := rosterOf signups in
  let currentNonDrivers :=
    Z.of_nat (length (filter (λ s, negb (IsDriver s)) roster)) in
  let currentTotal := Z.of_nat (length roster) in
  if maxParticipants <=? currentTotal then fail RosterFull
  else
    let nonDriverCapacity := maxParticipants - driverSlots in
    let nonDriverSpotsAvailable := nonDriverCapacity - currentNonDrivers in
    if nonDriverSpotsAvailable <=? 0 then fail NoNonDriverSpots
    else
      let waitlist := waitlistOf signups in
      let waitlistNonDrivers := filter (λ s, negb (IsDriver s)) waitlist in
      match first waitlistNonDrivers with
      | None => fail NoNonDriversOnWaitlist
      | Some nextNonDriver =>
          updateSignup (id nextNonDriver)
            {| updStatus := Some "Selected (nondriver)" |}
      end.

(** ** POST reAddParticipant *)

Definition reAddParticipant (tripId participantId : string) : M Signup :=
  trip ← fetchTripById tripId;
  let maxParticipants := orZero (Capacity trip) in
  let driverSlots := orZero (AdditionalDriversRequired trip) in
  signups ← fetchTripSignups tripId;
  match find (λ s, bool_decide (id s = participantId)) signups with
  | None => fail ParticipantNotFound
  | Some droppedParticipant =>
      let roster := rosterOf signups in
      let currentTotal := Z.of_nat (length roster) in
      if maxParticipants <=? currentTotal then fail RosterFull
      else
        let isDriver := IsDriver droppedParticipant in
        let currentDrivers :=
          Z.of_nat (length (filter (λ s, IsDriver s) roster)) in
        let currentNonDrivers := Z.of_nat (length roster) - currentDrivers in
        _ ← (if isDriver then
               let driverSpotsAvailable := driverSlots - currentDrivers in
               if driverSpotsAvailable <=? 0 then fail NoDriverSpots
               else mret ()
             else
               let nonDriverCapacity := maxParticipants - driverSlots in
               let nonDriverSpotsAvailable :=
                 nonDriverCapacity - currentNonDrivers in
               if nonDriverSpotsAvailable <=? 0 then fail NoNonDriverSpots
               else mret ());
        let newStatus := selectedStatus isDriver in
        updateSignup participantId {| updStatus := Some newStatus |}
  end.

(** ** POST dropParticipant *)

(** [today] stands for [new Date()]. *)
Definition dropParticipant (today : Date) (participantId : string)
  : M () :=
  let todayDate := formatMMddyyyy today in
  let newStatus := "Dropped- " +:+ todayDate in
  _ ← updateSignup participantId {| updStatus := Some newStatus |};
  mret ().

(** ** Notions used in the statements *)

(** The status classes of a string, in the order roster, waitlist,
    dropped. *)
Definition classes (status : string) : bool * bool * bool :=
  (isRosterStatus status, isWaitlistStatus status, isDroppedStatus status).

(** The events and the table left by a list of update tasks. *)
Definition patchEvents (tasks : list (string * string)) : list Event :=
  (λ t, EvPatch t.1 {| patchStatus := Some t.2 |}) <$> tasks.

Definition tableAfter (tasks : list (string * string))
    (table : list AirtableSignup) : list AirtableSignup :=
  foldl (λ table t, patchTable t.1 {| patchStatus := Some t.2 |} table)
        table tasks.

Definition sentAsIs (status : string) : Prop :=
  airtableUpdatesOf {| updStatus := Some status |}
  = {| patchStatus := Some status |}.

(** The update tasks of an approval, given the table it reads. *)
Definition approveTasks (tripId : string)
    (reqRosterIds reqWaitlistIds : list string)
    (table : list AirtableSignup) : list (string * string) :=
  let signupMap := signupMapOf (signupsOfTrip tripId table) in
  rosterUpdatesOf signupMap reqRosterIds
  ++ waitlistUpdatesOf signupMap reqWaitlistIds.

(** The cache after a sequence of events. *)
Definition cacheAfter (events : list Event)
    (cache : gmap string ProposedRoster) : gmap string ProposedRoster :=
  foldl (λ c e,
           match e with
           | EvCacheSet tripId p => <[tripId := p]> c
           | EvCacheDelete tripId => delete tripId c
           | _ => c
           end) cache events.

Definition isPatch (e : Event) : bool :=
  match e with EvPatch _ _ => true | _ => false end.

(** ** The routes as one function, and the client's approval *)

(** A request to one of the routes that [registerRoutes] installs for a
    trip and its signups, with what the handler draws from its
    environment (the shuffle and the clock of randomize, the date of
    drop).  The route that lists all trips only forwards [fetchTrips] and
    is left out. *)
Inductive Request :=
| GetTrip (tripId : string)
| GetSignups (tripId : string)
| PostRandomize (shuffle : list Signup → list Signup) (now : Z)
    (tripId : string)
| PostApproveRandomization (tripId : string)
    (reqRosterIds reqWaitlistIds : list string)
| PostAddFromWaitlist (tripId : string)
| PostAddDriver (tripId : string)
| PostAddNonDriver (tripId : string)
| PostReAddParticipant (tripId participantId : string)
| PostDropParticipant (today : Date) (participantId : string).

Inductive Response :=
| TripBody (trip : Trip)
| SignupsBody (body : SignupsResponse)
| RandomizeBody (body : RandomizeResponse)
| ApproveBody (body : ApproveRandomizationResponse)
| AddedBody (addedParticipant : Signup)
| DroppedBody.

Definition route (req : Request) : M Response :=
  match req with
  | GetTrip tripId => trip ← fetchTripById tripId; mret (TripBody trip)
  | GetSignups tripId => body ← getSignups tripId; mret (SignupsBody body)
  | PostRandomize shuffle now tripId =>
      body ← randomize shuffle now tripId; mret (RandomizeBody body)
  | PostApproveRandomization tripId reqRosterIds reqWaitlistIds =>
      body ← approveRandomization tripId reqRosterIds reqWaitlistIds;
      mret (ApproveBody body)
  | PostAddFromWaitlist tripId =>
      added ← addFromWaitlist tripId; mret (AddedBody added)
  | PostAddDriver tripId => added ← addDriver tripId; mret (AddedBody added)
  | PostAddNonDriver tripId =>
      added ← addNonDriver tripId; mret (AddedBody added)
  | PostReAddParticipant tripId participantId =>
      added ← reAddParticipant tripId participantId; mret (AddedBody added)
  | PostDropParticipant today participantId =>
      _ ← dropParticipant today participantId; mret DroppedBody
  end.

(** The approval the trip page sends ([approveRandomizationMutation]):
    the ids of the proposed roster and waitlist it was given, in the order
    it was given them. *)
Definition approveProposed (tripId : string) (proposal : RandomizeResponse)
  : M ApproveRandomizationResponse :=
  let rosterIds := id <$> proposedRoster proposal in
  let waitlistIds := id <$> proposedWaitlist proposal in
  approveRandomization tripId rosterIds waitlistIds.

(** Two records that differ in their status at most. *)
Definition sameButStatus (r r' : AirtableSignup) : Prop :=
  rawId r' = rawId r
  ∧ SlackNameRefined r' = SlackNameRefined r
  ∧ TripLeadName r' = TripLeadName r
  ∧ DoYouHaveACar r' = DoYouHaveACar r
  ∧ PersonalEmail r' = PersonalEmail r
  ∧ EmergencyContactPhone r' = EmergencyContactPhone r.

(** A signup with its status replaced. *)
Definition withStatus (st : string) (s : Signup) : Signup :=
  {| id := id s; ParticipantName := ParticipantName s; TripID := TripID s;
     IsDriver := IsDriver s; Status := st; Email := Email s;
     Phone := Phone s |}.

(** The fetched signups after the status of the id [i] was set. *)
Definition restatus (i st : string) (s : Signup) : Signup :=
  if bool_decide (id s = i) then withStatus st s else s.

(** The counts the capacity checks work with. *)
Definition rosterTotal (signups : list Signup) : Z :=
  Z.of_nat (length (rosterOf signups)).

Definition rosterDrivers (signups : list Signup) : Z :=
  Z.of_nat (length (filter (λ s, IsDriver s) (rosterOf signups))).

Definition rosterNonDrivers (signups : list Signup) : Z :=
  Z.of_nat (length (filter (λ s, negb (IsDriver s)) (rosterOf signups))).

Definition isPromotion (req : Request) : option string :=
  match req with
  | PostAddFromWaitlist tripId | PostAddDriver tripId
  | PostAddNonDriver tripId | PostReAddParticipant tripId _ => Some tripId
  | _ => None
  end.

Definition touchesCache (req : Request) : bool :=
  match req with
  | PostRandomize _ _ _ | PostApproveRandomization _ _ _ => true
  | _ => false
  end.

(** What a promotion leaves behind: the cache and the trips as they
    were; on an error the signups as they were; on success one signup
    [d] of the trip set to the "Selected" status of its driver flag, which
    the capacity checks allowed. *)
Definition promotionOutcome (tripId : string) (w : World)
    (res : (ApiError + Signup) * World) : Prop :=
  let signups := signupsOfTrip tripId (signupsTable w) in
  proposedRosters res.2 = proposedRosters w
  ∧ tripsTable res.2 = tripsTable w
  ∧ match res.1 with
    | inl _ => signupsTable res.2 = signupsTable w
    | inr updated =>
        ∃ trip d,
          tripById tripId (tripsTable w) = Some trip
          ∧ d ∈ signups
          ∧ id updated = id d
          ∧ Status updated = selectedStatus (IsDriver d)
          ∧ signupsTable res.2
            = patchTable (id d)
                {| patchStatus := Some (selectedStatus (IsDriver d)) |}
                (signupsTable w)
          ∧ rosterTotal signups < orZero (Capacity trip)
          ∧ (if IsDriver d
             then rosterDrivers signups
                  < orZero (AdditionalDriversRequired trip)
             else rosterNonDrivers signups
                  < orZero (Capacity trip)
                    - orZero (AdditionalDriversRequired trip))
    end.



(** One record after a list of update tasks, applied in order. *)
Definition applyTasks (tasks : list (string * string)) (r : AirtableSignup)
  : AirtableSignup :=
  foldl (λ r t, if bool_decide (rawId r = t.1)
                then applyPatch {| patchStatus := Some t.2 |} r else r)
        r tasks.

(** How a signup read after an approval relates to the same signup read
    before it: ids on the request's roster list carry the "Selected"
    status of their flag, ids on its waitlist list a numbered "Waitlist"
    status of their flag, all others are untouched. *)
Definition approvedAs (r wl : list string) (s s' : Signup) : Prop :=
  s' = withStatus (Status s') s
  ∧ (id s ∈ r →
     Status s' = selectedStatus (IsDriver s)
     ∧ classes (Status s') = (true, false, false))
  ∧ (id s ∈ wl →
     (∃ index, Status s' = waitlistStatus (IsDriver s) index)
     ∧ classes (Status s') = (false, true, false))
  ∧ (id s ∉ r → id s ∉ wl → s' = s).

(** ** Sample data for the examples *)

Definition sampleRecord (recordId : string) (car : bool) (st : string)
  : AirtableSignup :=
  {| rawId := recordId;
     SlackNameRefined := Some recordId;
     TripLeadName := Some ["trip1"];
     DoYouHaveACar := Some [Some car];
     rawStatus := Some st;
     PersonalEmail := None;
     EmergencyContactPhone := None |}.

Definition sampleTrip : Trip :=
  {| tripRecordId := "trip1"; Capacity := Some 5;
     AdditionalDriversRequired := Some 2; NonDriversCapacity := Some 3 |}.

Definition sampleWorld (cache : gmap string ProposedRoster)
    (table : list AirtableSignup) : World :=
  {| proposedRosters := cache; tripsTable := [sampleTrip];
     signupsTable := table; trace := [] |}.

Definition sampleProposal (r wl : list string) (created : Z)
  : gmap string ProposedRoster :=
  {[ "trip1" := {| rosterIds := r; waitlistIds := wl;
                   timestamp := created |} ]}.

(** * Properties *)

(** ** Strings and the status classes *)

Module StrFacts.
Import Str.

Lemma toLowerCase_app s t :
  toLowerCase (s +:+ t) = toLowerCase s +:+ toLowerCase t.
Proof. induction s as [|c s IH]; simpl; [done | by rewrite IH]. Qed.

Lemma all_chars_app P s t :
  all_chars P (s +:+ t) = all_chars P s && all_chars P t.
Proof.
  induction s as [|c s IH]; simpl; [done |].
  by rewrite IH, andb_assoc.
Qed.

Lemma lower_stamp_char c : is_stamp_char c = true → lower_ascii c = c.
Proof.
  unfold is_stamp_char, is_digit, lower_ascii. intros H.
  destruct ((65 <=? N_of_ascii c)%N && (N_of_ascii c <=? 90)%N) eqn:E;
    [| done].
  apply andb_prop in E as [E1%N.leb_le E2%N.leb_le].
  apply orb_prop in H as [H | H].
  - apply andb_prop in H as [_ H%N.leb_le]. lia.
  - apply Ascii.eqb_eq in H. subst c. simpl in E1. lia.
Qed.

Lemma toLowerCase_stamp d :
  all_chars is_stamp_char d = true → toLowerCase d = d.
Proof.
  induction d as [|c d IH]; simpl; [done |].
  intros [Hc Hd]%andb_prop. by rewrite lower_stamp_char, IH.
Qed.

(** A needle without stamp characters cannot begin inside, or run into,
    a run of stamp characters. *)
Lemma prefix_app_stamp needle s d :
  all_chars is_stamp_char d = true →
  all_chars no_stamp_char needle = true →
  String.prefix needle (s +:+ d) = String.prefix needle s.
Proof.
  intros Hd. revert s. induction needle as [|a needle IH]; intros s Hn.
  - by destruct s, d.
  - simpl in Hn. apply andb_prop in Hn as [Ha Hn].
    destruct s as [|b s].
    + destruct d as [|b d]; [done |]. simpl in Hd |- *.
      apply andb_prop in Hd as [Hb _].
      destruct (ascii_dec a b) as [-> | ?]; [| done].
      unfold no_stamp_char in Ha. by rewrite Hb in Ha.
    + simpl. destruct (ascii_dec a b); [by apply IH | done].
Qed.

Lemma includes_stamp needle d :
  all_chars is_stamp_char d = true →
  all_chars no_stamp_char needle = true →
  includes d needle = String.prefix needle "".
Proof.
  intros Hd Hn. induction d as [|c d IH].
  - simpl. by rewrite orb_false_r.
  - cbn [includes].
    pose proof (prefix_app_stamp needle "" (String c d) Hd Hn) as Hp.
    change ("" +:+ String c d) with (String c d) in Hp. rewrite Hp.
    simpl in Hd. apply andb_prop in Hd as [_ Hd].
    rewrite (IH Hd). by destruct (String.prefix needle "").
Qed.

Lemma includes_app_stamp needle s d :
  all_chars is_stamp_char d = true →
  all_chars no_stamp_char needle = true →
  includes (s +:+ d) needle = includes s needle.
Proof.
  intros Hd Hn. induction s as [|c s IH].
  - simpl. rewrite orb_false_r. by apply includes_stamp.
  - pose proof (prefix_app_stamp needle (String c s) d Hd Hn) as Hp.
    change (String c s +:+ d) with (String c (s +:+ d)) in Hp |- *.
    cbn [includes]. by rewrite Hp, IH.
Qed.

Lemma digit_is_stamp c : is_digit c = true → is_stamp_char c = true.
Proof. unfold is_stamp_char. by intros ->. Qed.

Lemma pretty_N_char_digit x : is_digit (pretty_N_char x) = true.
Proof. unfold pretty_N_char. by repeat case_match. Qed.

Lemma pretty_N_go_stamp x s :
  all_chars is_stamp_char s = true →
  all_chars is_stamp_char (pretty_N_go x s) = true.
Proof.
  revert s. induction (N.lt_wf_0 x) as [x _ IH]; intros s Hs.
  destruct (decide (x = 0)%N) as [-> | Hx].
  - by rewrite pretty_N_go_0.
  - rewrite pretty_N_go_step by lia.
    apply IH; [apply N.div_lt; lia |].
    simpl. by rewrite (digit_is_stamp _ (pretty_N_char_digit _)).
Qed.

Lemma pretty_nat_stamp (n : nat) :
  all_chars is_stamp_char (pretty n) = true.
Proof.
  unfold pretty, pretty_nat, pretty, pretty_N.
  case_decide; [done | by apply pretty_N_go_stamp].
Qed.

Lemma zeros_stamp k : all_chars is_stamp_char (zeros k) = true.
Proof. induction k as [|k IH]; [done | by simpl]. Qed.

Lemma addLeadingZeros_stamp n width :
  all_chars is_stamp_char (addLeadingZeros n width) = true.
Proof.
  unfold addLeadingZeros, padStart0.
  by rewrite all_chars_app, zeros_stamp, pretty_nat_stamp.
Qed.

Lemma formatMMddyyyy_stamp d :
  all_chars is_stamp_char (formatMMddyyyy d) = true.
Proof.
  unfold formatMMddyyyy.
  by rewrite !all_chars_app, !addLeadingZeros_stamp.
Qed.

(** The three needles, and the fourth of the roster filter. *)
Lemma includes_lower_app_stamp needle s d :
  all_chars is_stamp_char d = true →
  all_chars no_stamp_char needle = true →
  includes (toLowerCase (s +:+ d)) needle = includes (toLowerCase s) needle.
Proof.
  intros Hd Hn.
  rewrite toLowerCase_app, (toLowerCase_stamp d Hd).
  by apply includes_app_stamp.
Qed.

End StrFacts.


Lemma classes_app_stamp s d :
  Str.all_chars Str.is_stamp_char d = true →
  classes (s +:+ d) = classes s.
Proof.
  intros Hd. unfold classes, isRosterStatus, isWaitlistStatus, isDroppedStatus.
  cbv zeta. by rewrite !(StrFacts.includes_lower_app_stamp _ s d Hd).
Qed.

Example classify_selected_driver :
  classes "Selected (driver)" = (true, false, false).
Proof. reflexivity. Qed.

Example classify_waitlist_3 :
  waitlistStatus false 2 = "Waitlist (nondriver) - 3"
  ∧ classes (waitlistStatus false 2) = (false, true, false).
Proof. split; vm_compute; reflexivity. Qed.

Example format_date :
  droppedStatus (mkDate 2025 3 9) = "Dropped- 03/09/2025".
Proof. vm_compute. reflexivity. Qed.

Example classify_legacy :
  classes "ON TRIP" = (true, false, false)
  ∧ classes "WAITLIST" = (false, true, false)
  ∧ classes "UNKNOWN" = (false, false, false).
Proof. repeat split; reflexivity. Qed.

(** C5.  Every status string the handlers write falls in exactly one of
    the three classes: the two "Selected" strings are roster and nothing
    else, the numbered "Waitlist" strings (any position) are waitlist and
    nothing else, and the date-stamped "Dropped- " string (any date) is
    dropped and nothing else. *)
Theorem written_status_one_class :
  (∀ isDriver, classes (selectedStatus isDriver) = (true, false, false))
  ∧ (∀ isDriver index,
       classes (waitlistStatus isDriver index) = (false, true, false))
  ∧ (∀ today, classes (droppedStatus today) = (false, false, true)).
Proof.
  split; [| split].
  - by intros [].
  - intros isDriver index. unfold waitlistStatus.
    rewrite classes_app_stamp by apply StrFacts.pretty_nat_stamp.
    by destruct isDriver.
  - intros today. unfold droppedStatus.
    by rewrite classes_app_stamp by apply StrFacts.formatMMddyyyy_stamp.
Qed.

(** The written statuses are sent to the store as they are: none of them
    is one of the two legacy names [updateSignup] translates. *)
Lemma airtableUpdatesOf_selected isDriver :
  airtableUpdatesOf {| updStatus := Some (selectedStatus isDriver) |}
  = {| patchStatus := Some (selectedStatus isDriver) |}.
Proof. by destruct isDriver. Qed.

Lemma airtableUpdatesOf_waitlist isDriver index :
  airtableUpdatesOf {| updStatus := Some (waitlistStatus isDriver index) |}
  = {| patchStatus := Some (waitlistStatus isDriver index) |}.
Proof.
  unfold airtableUpdatesOf, waitlistStatus. cbn [updStatus].
  rewrite !bool_decide_eq_false_2; [done | |]; destruct isDriver; simpl;
    discriminate.
Qed.

Lemma airtableUpdatesOf_dropped today :
  airtableUpdatesOf {| updStatus := Some (droppedStatus today) |}
  = {| patchStatus := Some (droppedStatus today) |}.
Proof.
  unfold airtableUpdatesOf, droppedStatus. cbn [updStatus].
  rewrite !bool_decide_eq_false_2; [done | |]; simpl; discriminate.
Qed.

(** ** The handler monad *)

Ltac munfold :=
  unfold mbind, M_bind, mret, M_ret, fail, cacheGet, cacheDelete, cacheSet.

Ltac wsimpl :=
  unfold emit, withCache, withSignups;
  cbn [proposedRosters tripsTable signupsTable trace];
  rewrite <- ?app_assoc; cbn [app].

Lemma bind_inr {A B} (m : M A) (f : A → M B) w a w' :
  m w = (inr a, w') → (m ≫= f) w = f a w'.
Proof. munfold. by intros ->. Qed.

Lemma bind_inl {A B} (m : M A) (f : A → M B) w e w' :
  m w = (inl e, w') → (m ≫= f) w = (inl e, w').
Proof. munfold. by intros ->. Qed.

(** ** The sweep *)

Section sweep.
Variable now : Z.

Lemma sweep_fold_tables entries w :
  signupsTable (foldl (sweepStep now) w entries) = signupsTable w
  ∧ tripsTable (foldl (sweepStep now) w entries) = tripsTable w.
Proof.
  revert w. induction entries as [|[k p] entries IH]; intros w; [done |].
  cbn [foldl]. destruct (IH (sweepStep now w (k, p))) as [-> ->].
  unfold sweepStep. by destruct (expired now p).
Qed.

Lemma sweep_fold_gone entries w k :
  proposedRosters w !! k = None →
  proposedRosters (foldl (sweepStep now) w entries) !! k = None.
Proof.
  revert w. induction entries as [|[k' p] entries IH]; intros w Hk; [done |].
  cbn [foldl]. apply IH. unfold sweepStep.
  destruct (expired now p); [| done]. cbn.
  destruct (decide (k' = k)) as [-> | ?].
  - apply lookup_delete_eq.
  - by rewrite lookup_delete_ne.
Qed.

Lemma sweep_fold_expired entries w k p :
  (k, p) ∈ entries → expired now p = true →
  proposedRosters (foldl (sweepStep now) w entries) !! k = None.
Proof.
  revert w. induction entries as [|[k' p'] entries IH]; intros w Hin Hp.
  - by apply elem_of_nil in Hin.
  - cbn [foldl]. apply elem_of_cons in Hin as [[= <- <-] | Hin].
    + apply sweep_fold_gone. unfold sweepStep. rewrite Hp. cbn.
      apply lookup_delete_eq.
    + by apply IH.
Qed.

Lemma sweep_fold_fresh entries w k :
  (∀ p, (k, p) ∈ entries → expired now p = false) →
  proposedRosters (foldl (sweepStep now) w entries) !! k = proposedRosters w !! k.
Proof.
  revert w. induction entries as [|[k' p'] entries IH]; intros w Hall;
    [done |].
  cbn [foldl]. rewrite IH.
  - unfold sweepStep. destruct (expired now p') eqn:E; [| done]. cbn.
    destruct (decide (k' = k)) as [-> | ?].
    + rewrite (Hall p') in E; [done | left].
    + by rewrite lookup_delete_ne.
  - intros p Hin. apply Hall. by right.
Qed.

(** After a sweep the cache holds exactly the entries that were not
    older than the TTL. *)
Lemma cleanup_lookup w k :
  proposedRosters (cleanupExpiredProposals now w) !! k
  = match proposedRosters w !! k with
    | Some p => if expired now p then None else Some p
    | None => None
    end.
Proof.
  unfold cleanupExpiredProposals. 
  destruct (proposedRosters w !! k) as [p|] eqn:Hk.
  - destruct (expired now p) eqn:Hp.
    + apply (sweep_fold_expired _ _ k p); [| done].
      by apply elem_of_map_to_list.
    + rewrite sweep_fold_fresh; [done |].
      intros p' Hin%elem_of_map_to_list. congruence.
  - by apply sweep_fold_gone.
Qed.

Lemma cleanup_tables w :
  signupsTable (cleanupExpiredProposals now w) = signupsTable w
  ∧ tripsTable (cleanupExpiredProposals now w) = tripsTable w.
Proof. apply sweep_fold_tables. Qed.

End sweep.

(** ** Validation of an approval *)

Lemma approveValidate_absent tripId r wl w :
  proposedRosters w !! tripId = None →
  approveValidate tripId r wl w = (inl NoPendingProposal, w).
Proof. unfold approveValidate. munfold. by intros ->. Qed.

Lemma approveValidate_present tripId r wl w p :
  proposedRosters w !! tripId = Some p →
  approveValidate tripId r wl w
  = if idsMatch r (rosterIds p) && idsMatch wl (waitlistIds p)
    then (inr (), emit (EvCacheDelete tripId)
                    (withCache (delete tripId (proposedRosters w)) w))
    else (inl ProposalMismatch, w).
Proof.
  unfold approveValidate. munfold. intros ->.
  by destruct (idsMatch r _), (idsMatch wl _).
Qed.

(** [approveValidate] answers "No pending randomization found" exactly
    when the map has no entry for the trip. *)
Lemma approveValidate_NoPending_iff tripId r wl w :
  (approveValidate tripId r wl w).1 = inl NoPendingProposal
  ↔ proposedRosters w !! tripId = None.
Proof.
  split.
  - destruct (proposedRosters w !! tripId) as [p|] eqn:Hp; [| done].
    rewrite (approveValidate_present _ _ _ _ p Hp).
    by destruct (_ && _).
  - intros H. by rewrite approveValidate_absent.
Qed.

Lemma approve_absent tripId r wl w :
  proposedRosters w !! tripId = None →
  approveRandomization tripId r wl w = (inl NoPendingProposal, w).
Proof.
  intros H. unfold approveRandomization.
  by rewrite (bind_inl _ _ _ _ _ (approveValidate_absent _ r wl _ H)).
Qed.

(** ** The persistence adapter *)

Lemma applyPatch_rawId body r : rawId (applyPatch body r) = rawId r.
Proof. unfold applyPatch. by destruct (patchStatus body). Qed.

Lemma patchTable_ids signupId body table :
  rawId <$> patchTable signupId body table = rawId <$> table.
Proof.
  unfold patchTable. rewrite <- list_fmap_compose.
  apply list_fmap_ext. intros _ r _. cbn.
  case_bool_decide; [apply applyPatch_rawId | done].
Qed.

Lemma patchTable_length signupId body table :
  length (patchTable signupId body table) = length table.
Proof. unfold patchTable. apply length_fmap. Qed.

Lemma recordById_is_Some signupId table :
  signupId ∈ rawId <$> table → is_Some (recordById signupId table).
Proof.
  unfold recordById. induction table as [|r table IH]; cbn.
  - by intros ?%elem_of_nil.
  - intros [E | Hin]%elem_of_cons.
    + rewrite bool_decide_eq_true_2 by done. eauto.
    + case_bool_decide; eauto.
Qed.

Lemma recordById_Some signupId table r :
  recordById signupId table = Some r → r ∈ table ∧ rawId r = signupId.
Proof.
  unfold recordById. induction table as [|r' table IH]; cbn; [done |].
  case_bool_decide as E.
  - intros [= <-]. split; [left | done].
  - intros [? ?]%IH. split; [by right | done].
Qed.

Lemma updateSignup_found signupId updates w r :
  recordById signupId (signupsTable w) = Some r →
  updateSignup signupId updates w
  = (inr (normalizeSignup (applyPatch (airtableUpdatesOf updates) r)),
     withSignups
       (patchTable signupId (airtableUpdatesOf updates) (signupsTable w))
       (emit (EvPatch signupId (airtableUpdatesOf updates)) w)).
Proof.
  intros H. unfold updateSignup. cbv zeta.
  change (signupsTable (emit _ w)) with (signupsTable w). by rewrite H.
Qed.

Lemma updateSignup_missing signupId updates w :
  recordById signupId (signupsTable w) = None →
  updateSignup signupId updates w
  = (inl UpstreamFailure,
     emit (EvPatch signupId (airtableUpdatesOf updates)) w).
Proof.
  intros H. unfold updateSignup. cbv zeta.
  change (signupsTable (emit _ w)) with (signupsTable w). by rewrite H.
Qed.

Lemma signupsOfTrip_ids tripId table s :
  s ∈ signupsOfTrip tripId table → id s ∈ rawId <$> table.
Proof.
  unfold signupsOfTrip. intros (r & -> & Hr)%list_elem_of_fmap.
  apply list_elem_of_filter in Hr as [_ Hr]. cbn.
  apply list_elem_of_fmap. eauto.
Qed.

Lemma signupMapOf_fold signups (m : gmap string Signup) k s :
  foldl (λ m s, <[id s := s]> m) m signups !! k = Some s →
  m !! k = Some s ∨ (s ∈ signups ∧ id s = k).
Proof.
  revert m. induction signups as [|s' signups IH]; intros m; cbn; [by left |].
  intros [H | [H1 H2]]%IH.
  - destruct (decide (id s' = k)) as [E | E].
    + rewrite E, lookup_insert_eq in H. injection H as ->.
      right. split; [left | done].
    + rewrite lookup_insert_ne in H by done. by left.
  - right. split; [by right | done].
Qed.

(** An id resolves only to a fetched signup that carries it. *)
Lemma signupMapOf_lookup signups k s :
  signupMapOf signups !! k = Some s → s ∈ signups ∧ id s = k.
Proof.
  intros [H | H]%signupMapOf_fold; [| done].
  by rewrite lookup_empty in H.
Qed.


Lemma tableAfter_ids tasks table :
  rawId <$> tableAfter tasks table = rawId <$> table.
Proof.
  revert table. induction tasks as [|t tasks IH]; intros table; [done |].
  unfold tableAfter in *. cbn [foldl]. by rewrite IH, patchTable_ids.
Qed.

Lemma runUpdates_ok tasks w :
  Forall (λ t, t.1 ∈ rawId <$> signupsTable w ∧ sentAsIs t.2) tasks →
  ∃ updated,
    runUpdates tasks w
    = (inr updated,
       {| proposedRosters := proposedRosters w;
          tripsTable := tripsTable w;
          signupsTable := tableAfter tasks (signupsTable w);
          trace := trace w ++ patchEvents tasks |})
    ∧ length updated = length tasks.
Proof.
  revert w. induction tasks as [|[i st] tasks IH]; intros w Hall.
  - exists []. cbn. munfold. rewrite app_nil_r. by destruct w.
  - apply Forall_cons in Hall as [[Hi Hst] Hall]. cbn in Hi, Hst.
    destruct (recordById_is_Some _ _ Hi) as [r Hr].
    cbn [runUpdates].
    rewrite (bind_inr _ _ _ _ _ (updateSignup_found _ _ _ _ Hr)).
    rewrite Hst.
    set (w1 := withSignups _ _).
    destruct (IH w1) as (us & Hrun & Hlen).
    { eapply Forall_impl; [exact Hall |]. intros t [Ht ?]. split; [| done].
      unfold w1. cbn. by rewrite patchTable_ids. }
    rewrite (bind_inr _ _ _ _ _ Hrun). munfold.
    eexists. split; [subst w1; cbn; by rewrite <- app_assoc |].
    cbn. by rewrite Hlen.
Qed.

(** ** The update tasks of an approval *)

Lemma rosterUpdatesOf_elem signupMap r t :
  t ∈ rosterUpdatesOf signupMap r ↔
  t.1 ∈ r ∧ ∃ s, signupMap !! t.1 = Some s
                 ∧ t.2 = selectedStatus (IsDriver s).
Proof.
  unfold rosterUpdatesOf. rewrite list_elem_of_omap. split.
  - intros (i & Hi & Hf). destruct (signupMap !! i) as [s|] eqn:E; [| done].
    cbn in Hf. injection Hf as <-. cbn. rewrite E. eauto.
  - intros (Hi & s & Hs & Hst). exists t.1. split; [done |].
    rewrite Hs. cbn. destruct t. cbn in *. by subst.
Qed.

Lemma imap_zip_seq {A B} (f : nat → B) (l : list A) k :
  imap (λ index x, (x, f (k + index)%nat)) l
  = zip l (f <$> seq k (length l)).
Proof.
  revert k. induction l as [|x l IH]; intros k; [done |].
  cbn. rewrite Nat.add_0_r. f_equal.
  rewrite <- IH. apply imap_ext. intros i y _. cbn. f_equal. f_equal. lia.
Qed.

(** The waitlist updates number the resolving drivers 1..k and the
    resolving non-drivers 1..k', each in request order. *)
Lemma waitlistUpdatesOf_numbered signupMap wl :
  let wd := filter (λ id, resolvesAs signupMap true id) wl in
  let wnd := filter (λ id, resolvesAs signupMap false id) wl in
  waitlistUpdatesOf signupMap wl
  = zip wd (waitlistStatus true <$> seq 0 (length wd))
    ++ zip wnd (waitlistStatus false <$> seq 0 (length wnd)).
Proof.
  cbv zeta. unfold waitlistUpdatesOf.
  by rewrite <- !(imap_zip_seq (waitlistStatus _) _ 0).
Qed.

Lemma resolvesAs_true signupMap b i :
  resolvesAs signupMap b i = true
  ↔ ∃ s, signupMap !! i = Some s ∧ IsDriver s = b.
Proof.
  unfold resolvesAs. destruct (signupMap !! i) as [s|].
  - rewrite bool_decide_eq_true. split; [eauto |]. by intros (? & [= <-] & ?).
  - split; [done | by intros (? & ? & ?)].
Qed.

Lemma zip_seq_elem {A B} (f : nat → B) (l : list A) (t : A * B) :
  t ∈ zip l (f <$> seq 0 (length l)) → t.1 ∈ l ∧ ∃ i, t.2 = f i.
Proof.
  intros Hin. split.
  - apply (list_elem_of_fmap_2 fst) in Hin.
    rewrite fst_zip in Hin; [done |]. by rewrite length_fmap, length_seq.
  - apply (list_elem_of_fmap_2 snd) in Hin.
    rewrite snd_zip in Hin by (by rewrite length_fmap, length_seq).
    apply list_elem_of_fmap in Hin as (i & ? & _). eauto.
Qed.

Lemma waitlistUpdatesOf_elem signupMap wl t :
  t ∈ waitlistUpdatesOf signupMap wl →
  t.1 ∈ wl ∧ ∃ s index, signupMap !! t.1 = Some s
                        ∧ t.2 = waitlistStatus (IsDriver s) index.
Proof.
  rewrite waitlistUpdatesOf_numbered. cbv zeta.
  intros [Hin | Hin]%elem_of_app;
    apply zip_seq_elem in Hin as [Hin [i Hi]];
    apply list_elem_of_filter in Hin as [Hres Hin];
    apply Is_true_true, resolvesAs_true in Hres as (s & Hs & Hd);
    (split; [done |]); exists s, i; rewrite Hd; done.
Qed.

Lemma approveTasks_ok tripId r wl table :
  Forall (λ t, t.1 ∈ rawId <$> table ∧ sentAsIs t.2)
         (approveTasks tripId r wl table).
Proof.
  unfold approveTasks. apply Forall_app. split; apply Forall_forall; intros t.
  - intros (_ & s & Hs & ->)%rosterUpdatesOf_elem.
    apply signupMapOf_lookup in Hs as [Hs <-].
    split; [by eapply signupsOfTrip_ids | apply airtableUpdatesOf_selected].
  - intros (_ & s & i & Hs & ->)%waitlistUpdatesOf_elem.
    apply signupMapOf_lookup in Hs as [Hs <-].
    split; [by eapply signupsOfTrip_ids | apply airtableUpdatesOf_waitlist].
Qed.

(** Once the proposal is cleared the rest of the handler cannot fail in
    the store: every task addresses a record that was just fetched. *)
Lemma approveCommit_ok tripId r wl w :
  approveCommit tripId r wl w
  = (inr {| onRoster := length r; onWaitlist := length wl |},
     {| proposedRosters := proposedRosters w;
        tripsTable := tripsTable w;
        signupsTable :=
          tableAfter (approveTasks tripId r wl (signupsTable w))
                     (signupsTable w);
        trace := trace w ++ EvListSignups tripId
                   :: patchEvents (approveTasks tripId r wl (signupsTable w))
     |}).
Proof.
  unfold approveCommit.
  erewrite bind_inr; [| reflexivity]. cbv zeta.
  change (signupsTable (emit _ w)) with (signupsTable w).
  fold (approveTasks tripId r wl (signupsTable w)).
  destruct (runUpdates_ok (approveTasks tripId r wl (signupsTable w))
              (emit (EvListSignups tripId) w)) as (us & Hrun & _).
  { apply approveTasks_ok. }
  rewrite (bind_inr _ _ _ _ _ Hrun). munfold. cbn.
  by rewrite <- app_assoc.
Qed.

Lemma approve_matching tripId r wl w p :
  proposedRosters w !! tripId = Some p →
  idsMatch r (rosterIds p) = true →
  idsMatch wl (waitlistIds p) = true →
  approveRandomization tripId r wl w
  = (inr {| onRoster := length r; onWaitlist := length wl |},
     {| proposedRosters := delete tripId (proposedRosters w);
        tripsTable := tripsTable w;
        signupsTable :=
          tableAfter (approveTasks tripId r wl (signupsTable w))
                     (signupsTable w);
        trace := trace w ++ EvCacheDelete tripId :: EvListSignups tripId
                   :: patchEvents (approveTasks tripId r wl (signupsTable w))
     |}).
Proof.
  intros Hp Hr Hwl. unfold approveRandomization.
  erewrite bind_inr;
    [| by rewrite (approveValidate_present _ _ _ _ p Hp), Hr, Hwl].
  rewrite approveCommit_ok. cbn. by rewrite <- app_assoc.
Qed.

Lemma approve_mismatch tripId r wl w p :
  proposedRosters w !! tripId = Some p →
  idsMatch r (rosterIds p) && idsMatch wl (waitlistIds p) = false →
  approveRandomization tripId r wl w = (inl ProposalMismatch, w).
Proof.
  intros Hp Hm. unfold approveRandomization.
  erewrite bind_inl; [done |].
  by rewrite (approveValidate_present _ _ _ _ p Hp), Hm.
Qed.

(** ** Expiry of a proposal (C1) *)

(** C1, counterexample.  A proposal created at time 0 is 600001 ms old,
    one millisecond over the TTL, and no sweep has run: approval of the
    matching ids is not answered with "No pending randomization found", it
    goes through. *)
Lemma overdue_proposal_still_approved :
  let w := sampleWorld (sampleProposal ["a"] [] 0) [] in
  let now := 600001 in
  (∃ p, proposedRosters w !! "trip1" = Some p
        ∧ now - timestamp p > PROPOSAL_TTL)
  ∧ (approveRandomization "trip1" ["a"] [] w).1
    = inr {| onRoster := 1; onWaitlist := 0 |}.
Proof.
  split.
  - eexists. split; [apply lookup_singleton_eq | by cbn].
  - erewrite approve_matching; [done | apply lookup_singleton_eq | done..].
Qed.

(** C1, amended.  A proposal whose age exceeds the TTL is treated as absent
    by approve once a sweep has run at that age: the sweep removes the
    entry and approve then answers "No pending randomization found",
    leaving the world as it is.  Approve itself never looks at the age:
    as long as the entry is in the map it is not answered with that
    error. *)
Theorem sweep_then_approve_fails w now tripId p r wl :
  proposedRosters w !! tripId = Some p →
  now - timestamp p > PROPOSAL_TTL →
  approveRandomization tripId r wl (cleanupExpiredProposals now w)
  = (inl NoPendingProposal, cleanupExpiredProposals now w)
  ∧ (approveRandomization tripId r wl w).1 ≠ inl NoPendingProposal.
Proof.
  intros Hp Hage. split.
  - apply approve_absent. rewrite cleanup_lookup, Hp.
    unfold expired. by rewrite bool_decide_eq_true_2.
  - destruct (idsMatch r (rosterIds p) && idsMatch wl (waitlistIds p)) eqn:E.
    + apply andb_prop in E as [E1 E2].
      by rewrite (approve_matching _ _ _ _ p Hp E1 E2).
    + by rewrite (approve_mismatch _ _ _ _ p Hp E).
Qed.

Lemma sweep_then_approve_fails_witness :
  let w := sampleWorld (sampleProposal ["a"] [] 0) [] in
  approveRandomization "trip1" ["a"] [] (cleanupExpiredProposals 600001 w)
  = (inl NoPendingProposal, cleanupExpiredProposals 600001 w)
  ∧ (approveRandomization "trip1" ["a"] [] w).1 ≠ inl NoPendingProposal.
Proof.
  intros w.
  apply (sweep_then_approve_fails w 600001 "trip1"
           {| rosterIds := ["a"]; waitlistIds := []; timestamp := 0 |}).
  - apply lookup_singleton_eq.
  - unfold PROPOSAL_TTL. cbn. lia.
Defined.

(** A sweep keeps every proposal that is not older than the TTL. *)
Lemma sweep_keeps_fresh w now tripId p :
  proposedRosters w !! tripId = Some p →
  now - timestamp p ≤ PROPOSAL_TTL →
  proposedRosters (cleanupExpiredProposals now w) !! tripId = Some p.
Proof.
  intros Hp Hage. rewrite cleanup_lookup, Hp. unfold expired.
  rewrite bool_decide_eq_false_2; [done | lia].
Qed.

(** ** Validation against the stored proposal (C2) *)

Lemma idsMatch_true ids stored :
  idsMatch ids stored = true
  ↔ length ids = length stored ∧ ∀ i, i ∈ ids → i ∈ stored.
Proof.
  unfold idsMatch. rewrite andb_true_iff, bool_decide_eq_true.
  rewrite <- Is_true_true, forallb_True, Forall_forall.
  split; intros [Hlen Hall]; (split; [done |]); intros i Hi.
  - specialize (Hall i Hi).
    by apply bool_decide_unpack, elem_of_list_to_set in Hall.
  - by apply bool_decide_pack, elem_of_list_to_set, Hall.
Qed.

(** X4.  On id lists without repetition the check is equality of the id
    sets. *)
Lemma idsMatch_NoDup ids stored :
  NoDup ids → NoDup stored →
  idsMatch ids stored = true
  ↔ list_to_set ids =@{gset string} list_to_set stored.
Proof.
  intros Hids Hstored. rewrite idsMatch_true. split.
  - intros [Hlen Hall]. apply list_to_set_perm_L.
    apply submseteq_length_Permutation; [by apply NoDup_submseteq | lia].
  - intros Heq. split.
    + rewrite <- (size_list_to_set (C:=gset string) ids) by done.
      rewrite <- (size_list_to_set (C:=gset string) stored) by done.
      by rewrite Heq.
    + intros i Hi. apply (elem_of_list_to_set (C:=gset string)).
      rewrite <- Heq. by apply elem_of_list_to_set.
Qed.

(** X5.  With a live proposal the handler goes on exactly when both checks
    pass; otherwise it answers "Approval data does not match
    randomization" and leaves the world, and so the stored proposal, as it
    was. *)
Lemma approve_live_proposal tripId r wl w p :
  proposedRosters w !! tripId = Some p →
  (idsMatch r (rosterIds p) = true ∧ idsMatch wl (waitlistIds p) = true
   ∧ ∃ w', approveRandomization tripId r wl w
           = (inr {| onRoster := length r; onWaitlist := length wl |}, w'))
  ∨ (¬ (idsMatch r (rosterIds p) = true ∧ idsMatch wl (waitlistIds p) = true)
     ∧ approveRandomization tripId r wl w = (inl ProposalMismatch, w)).
Proof.
  intros Hp.
  destruct (idsMatch r (rosterIds p)) eqn:E1;
    destruct (idsMatch wl (waitlistIds p)) eqn:E2.
  - left. rewrite (approve_matching _ _ _ _ p Hp E1 E2). eauto.
  - right. split; [by intros [_ ?] |].
    apply (approve_mismatch _ _ _ _ p Hp). by rewrite E1, E2.
  - right. split; [by intros [? _] |].
    apply (approve_mismatch _ _ _ _ p Hp). by rewrite E1.
  - right. split; [by intros [? _] |].
    apply (approve_mismatch _ _ _ _ p Hp). by rewrite E1.
Qed.

(** C2, the code at the failing input.  The stored proposal puts the two
    drivers "a" and "b" on the roster.  The request names "a" twice and
    "b" not at all: its ids are not the stored set, yet the check passes,
    the proposal is consumed, "a" is written twice and "b" is never
    written. *)
Lemma approve_accepts_repeated_id :
  let table := [sampleRecord "a" true "UNKNOWN";
                sampleRecord "b" true "UNKNOWN"] in
  let w := sampleWorld (sampleProposal ["a"; "b"] [] 0) table in
  let outcome := approveRandomization "trip1" ["a"; "a"] [] w in
  list_to_set ["a"; "a"] ≠@{gset string} list_to_set ["a"; "b"]
  ∧ outcome.1 = inr {| onRoster := 2; onWaitlist := 0 |}
  ∧ proposedRosters outcome.2 !! "trip1" = None
  ∧ trace outcome.2
    = [EvCacheDelete "trip1"; EvListSignups "trip1";
       EvPatch "a" {| patchStatus := Some "Selected (driver)" |};
       EvPatch "a" {| patchStatus := Some "Selected (driver)" |}]
  ∧ rawStatus <$> signupsTable outcome.2
    = [Some "Selected (driver)"; Some "UNKNOWN"].
Proof.
  intros table w outcome. split.
  - intros Heq.
    assert ("b" ∈@{gset string} list_to_set ["a"; "a"]) as Hb
      by (rewrite Heq; set_solver).
    set_solver.
  - subst outcome.
    erewrite approve_matching; [| apply lookup_singleton_eq | done..].
    cbn [fst snd proposedRosters trace signupsTable].
    split; [done |]. split; [apply lookup_delete_eq |].
    split; by vm_compute.
Qed.

(** ** Clearing the proposal before the writes (C3) *)

Lemma patchEvents_isPatch tasks : Forall isPatch (patchEvents tasks).
Proof. unfold patchEvents. apply Forall_fmap, Forall_true. by intros []. Qed.

Lemma cacheAfter_patches events cache :
  Forall isPatch events → cacheAfter events cache = cache.
Proof.
  unfold cacheAfter. revert cache.
  induction events as [|e events IH]; intros cache Hall; [done |].
  apply Forall_cons in Hall as [He Hall]. cbn [foldl].
  rewrite IH by done. by destruct e.
Qed.

(** C3.  When the request matches the stored proposal:
    - the uninterrupted first part of the handler ([approveValidate]) ends
      with the proposal deleted and no write issued;
    - any approval for the trip that starts after that point is answered
      "No pending randomization found" at once, whatever ids it carries,
      and changes nothing;
    - in the complete run, the deletion of the entry precedes every write:
      whenever a PATCH is issued, [EvCacheDelete tripId] is among the
      events before it and the cache, as those events leave it, has no
      entry for the trip. *)
Theorem approve_clears_before_writes tripId r wl w p :
  proposedRosters w !! tripId = Some p →
  idsMatch r (rosterIds p) = true →
  idsMatch wl (waitlistIds p) = true →
  ∃ w1 resp w2 events,
    approveValidate tripId r wl w = (inr (), w1)
    ∧ trace w1 = trace w ++ [EvCacheDelete tripId]
    ∧ proposedRosters w1 !! tripId = None
    ∧ (∀ r' wl', approveRandomization tripId r' wl' w1
                 = (inl NoPendingProposal, w1))
    ∧ approveRandomization tripId r wl w = (inr resp, w2)
    ∧ trace w2 = trace w ++ events
    ∧ proposedRosters w2 = cacheAfter events (proposedRosters w)
    ∧ ∀ before e after,
        events = before ++ e :: after → isPatch e = true →
        EvCacheDelete tripId ∈ before
        ∧ cacheAfter before (proposedRosters w) !! tripId = None.
Proof.
  intros Hp Hr Hwl.
  set (tasks := approveTasks tripId r wl (signupsTable w)).
  eexists _, _, _,
    (EvCacheDelete tripId :: EvListSignups tripId :: patchEvents tasks).
  split; [by rewrite (approveValidate_present _ _ _ _ p Hp), Hr, Hwl |].
  split; [done |].
  split; [apply lookup_delete_eq |].
  split; [intros r' wl'; apply approve_absent, lookup_delete_eq |].
  split; [by rewrite (approve_matching _ _ _ _ p Hp Hr Hwl) |].
  split; [done |].
  split.
  { cbn. unfold cacheAfter. cbn [foldl].
    symmetry. apply cacheAfter_patches, patchEvents_isPatch. }
  intros before e after Heq He.
  destruct before as [|b1 before]; [by injection Heq as <- |].
  injection Heq as <- Heq.
  destruct before as [|b2 before]; [by injection Heq as <- |].
  injection Heq as <- Heq.
  split; [left |].
  change (cacheAfter (EvCacheDelete tripId :: EvListSignups tripId :: before)
            (proposedRosters w))
    with (cacheAfter before (delete tripId (proposedRosters w))).
  rewrite cacheAfter_patches; [apply lookup_delete_eq |].
  pose proof (patchEvents_isPatch tasks) as Hall.
  rewrite Heq in Hall. by apply Forall_app in Hall as [? _].
Qed.

Lemma approve_clears_before_writes_witness :
  let table := [sampleRecord "a" true "UNKNOWN";
                sampleRecord "n" false "UNKNOWN"] in
  let w := sampleWorld (sampleProposal ["a"] ["n"] 0) table in
  ∃ w1 resp w2 events,
    approveValidate "trip1" ["a"] ["n"] w = (inr (), w1)
    ∧ trace w1 = trace w ++ [EvCacheDelete "trip1"]
    ∧ proposedRosters w1 !! "trip1" = None
    ∧ (∀ r' wl', approveRandomization "trip1" r' wl' w1
                 = (inl NoPendingProposal, w1))
    ∧ approveRandomization "trip1" ["a"] ["n"] w = (inr resp, w2)
    ∧ trace w2 = trace w ++ events
    ∧ proposedRosters w2 = cacheAfter events (proposedRosters w)
    ∧ ∀ before e after,
        events = before ++ e :: after → isPatch e = true →
        EvCacheDelete "trip1" ∈ before
        ∧ cacheAfter before (proposedRosters w) !! "trip1" = None.
Proof.
  intros table w.
  apply (approve_clears_before_writes "trip1" ["a"] ["n"] w
           {| rosterIds := ["a"]; waitlistIds := ["n"]; timestamp := 0 |}).
  - apply lookup_singleton_eq.
  - vm_compute. reflexivity.
  - vm_compute. reflexivity.
Defined.

Example approve_trace :
  let table := [sampleRecord "a" true "UNKNOWN";
                sampleRecord "n" false "UNKNOWN"] in
  let w := sampleWorld (sampleProposal ["a"] ["n"] 0) table in
  trace (approveRandomization "trip1" ["a"] ["n"] w).2
  = [EvCacheDelete "trip1"; EvListSignups "trip1";
     EvPatch "a" {| patchStatus := Some "Selected (driver)" |};
     EvPatch "n" {| patchStatus := Some "Waitlist (nondriver) - 1" |}].
Proof.
  intros table w.
  erewrite approve_matching; [| apply lookup_singleton_eq | done..].
  by vm_compute.
Qed.

(** ** Ids that no longer resolve (C10) *)

Lemma signupMapOf_fold_is_Some signups (m : gmap string Signup) k :
  is_Some (m !! k) ∨ k ∈ id <$> signups →
  is_Some (foldl (λ m s, <[id s := s]> m) m signups !! k).
Proof.
  revert m. induction signups as [|s signups IH]; intros m; cbn.
  - intros [H | H]; [done | by apply elem_of_nil in H].
  - intros [H | H]; apply IH.
    + left. destruct (decide (id s = k)) as [-> | ?].
      * rewrite lookup_insert_eq. eauto.
      * by rewrite lookup_insert_ne.
    + apply elem_of_cons in H as [-> | H]; [left | by right].
      rewrite lookup_insert_eq. eauto.
Qed.












Example approve_with_unresolved_ids :
  let table := [sampleRecord "a" true "UNKNOWN";
                sampleRecord "w1" true "UNKNOWN";
                sampleRecord "n1" false "UNKNOWN";
                sampleRecord "w2" true "UNKNOWN"] in
  let r := ["a"; "ghost"] in
  let wl := ["w1"; "gone"; "n1"; "w2"] in
  let w := sampleWorld (sampleProposal r wl 0) table in
  approveTasks "trip1" r wl table
  = [("a", "Selected (driver)"); ("w1", "Waitlist (driver) - 1");
     ("w2", "Waitlist (driver) - 2"); ("n1", "Waitlist (nondriver) - 1")]
  ∧ (approveRandomization "trip1" r wl w).1
    = inr {| onRoster := 2; onWaitlist := 4 |}.
Proof.
  intros table r wl w. split; [by vm_compute |].
  erewrite approve_matching; [done | apply lookup_singleton_eq | done..].
Qed.

(** ** The allocator (C4, C6) *)

Lemma take_min {A} (l : list A) k :
  take (k `min` length l) l = take k l.
Proof.
  destruct (decide (k ≤ length l)%nat).
  - by rewrite Nat.min_l by lia.
  - rewrite Nat.min_r, !take_ge by lia. done.
Qed.

Lemma drop_min {A} (l : list A) k :
  drop (k `min` length l) l = drop k l.
Proof.
  destruct (decide (k ≤ length l)%nat).
  - by rewrite Nat.min_l by lia.
  - rewrite Nat.min_r, !drop_ge by lia. done.
Qed.

Lemma slice_prefix {A} (l : list A) n :
  0 ≤ n → slice l 0 (Some n) = take (Z.to_nat n) l.
Proof.
  intros Hn. unfold slice. cbv zeta.
  replace (0 <? 0) with false by done.
  replace (n <? 0) with false by (symmetry; apply Z.ltb_ge; lia).
  replace (Z.to_nat (Z.min 0 _)) with 0%nat by lia.
  replace (Z.to_nat _) with (Z.to_nat n `min` length l)%nat by lia.
  apply take_min.
Qed.

Lemma slice_suffix {A} (l : list A) n :
  0 ≤ n → slice l n None = drop (Z.to_nat n) l.
Proof.
  intros Hn. unfold slice. cbv zeta.
  replace (n <? 0) with false by (symmetry; apply Z.ltb_ge; lia).
  rewrite take_ge by (rewrite length_drop; lia).
  replace (Z.to_nat _) with (Z.to_nat n `min` length l)%nat by lia.
  apply drop_min.
Qed.

Lemma slice_sublist {A} (l : list A) start end_ :
  slice l start end_ `sublist_of` l.
Proof.
  unfold slice. cbv zeta.
  etransitivity; [apply sublist_take | apply sublist_drop].
Qed.

(** The allocator on slot counts that are not negative. *)
Lemma allocate_counts sd snd (ds nds : nat) :
  allocate sd snd (Z.of_nat ds) (Z.of_nat nds)
  = let filled := length (take nds snd) in
    if bool_decide (filled < nds ∧ 0 < length (drop ds sd))%nat
    then
      let backfill := take (nds - filled) (drop ds sd) in
      {| selectedAsDrivers := take ds sd;
         selectedAsNonDrivers := take nds snd ++ backfill;
         driversUsedAsNonDrivers := backfill;
         rejectedDrivers := drop (nds - filled) (drop ds sd);
         rejectedNonDrivers := drop nds snd |}
    else
      {| selectedAsDrivers := take ds sd;
         selectedAsNonDrivers := take nds snd;
         driversUsedAsNonDrivers := [];
         rejectedDrivers := drop ds sd;
         rejectedNonDrivers := drop nds snd |}.
Proof.
  unfold allocate. cbv zeta.
  rewrite (slice_prefix sd), (slice_prefix snd) by lia.
  rewrite (slice_suffix sd), (slice_suffix snd) by lia.
  rewrite !Nat2Z.id.
  case_bool_decide as Hb.
  - destruct Hb as [H1 H2].
    replace (_ <? _) with true by (symmetry; apply Z.ltb_lt; lia).
    replace (_ <? _) with true by (symmetry; apply Z.ltb_lt; lia).
    cbn [andb].
    rewrite slice_prefix, slice_suffix by lia.
    by replace (Z.to_nat (Z.of_nat nds - Z.of_nat (length (take nds snd))))
      with (nds - length (take nds snd))%nat by lia.
  - destruct (_ <? _) eqn:E1; [| done].
    destruct (0 <? _) eqn:E2; [| done].
    apply Z.ltb_lt in E1, E2. destruct Hb. lia.
Qed.

(** Where the selected come from, for any pools and any numbers. *)
Lemma allocate_pools sd snd ds nds :
  let a := allocate sd snd ds nds in
  selectedAsDrivers a `sublist_of` sd
  ∧ driversUsedAsNonDrivers a `sublist_of` sd
  ∧ ∃ fromNonDrivers,
      fromNonDrivers `sublist_of` snd
      ∧ selectedAsNonDrivers a = fromNonDrivers ++ driversUsedAsNonDrivers a.
Proof.
  unfold allocate. cbv zeta. destruct (_ && _); cbn.
  - split; [apply slice_sublist |]. split.
    + etransitivity; apply slice_sublist.
    + eexists. split; [apply slice_sublist | done].
  - split; [apply slice_sublist |]. split; [apply sublist_nil_l |].
    eexists. split; [apply slice_sublist | by rewrite app_nil_r].
Qed.

Example allocate_backfill :
  let d i := normalizeSignup (sampleRecord i true "UNKNOWN") in
  let n i := normalizeSignup (sampleRecord i false "UNKNOWN") in
  let a := allocate [d "d1"; d "d2"; d "d3"; d "d4"; d "d5"] [n "n1"] 2 3 in
  id <$> proposedRosterOf a = ["d1"; "d2"; "n1"; "d3"; "d4"]
  ∧ id <$> proposedWaitlistOf a = ["d5"].
Proof. split; reflexivity. Qed.

(** C4.  With five shuffled driver-eligible signups, one non-driver, two
    driver slots and three non-driver slots: the first two drivers take the
    driver slots; the non-driver slots go to the one non-driver and, by
    backfill, to the next two drivers; the waitlist is the fifth driver.
    For any pools and any numbers, the driver slots are filled from the
    driver pool only, and whatever is backfilled comes from the driver
    pool. *)
Theorem backfill_scenario sd snd :
  length sd = 5%nat → length snd = 1%nat →
  let a := allocate sd snd 2 3 in
  selectedAsDrivers a = take 2 sd
  ∧ length (selectedAsDrivers a) = 2%nat
  ∧ driversUsedAsNonDrivers a = take 2 (drop 2 sd)
  ∧ length (driversUsedAsNonDrivers a) = 2%nat
  ∧ selectedAsNonDrivers a = snd ++ driversUsedAsNonDrivers a
  ∧ proposedWaitlistOf a = drop 4 sd
  ∧ length (proposedWaitlistOf a) = 1%nat
  ∧ sd = selectedAsDrivers a ++ driversUsedAsNonDrivers a
           ++ proposedWaitlistOf a
  ∧ ∀ sd' snd' ds nds,
      let a' := allocate sd' snd' ds nds in
      selectedAsDrivers a' `sublist_of` sd'
      ∧ driversUsedAsNonDrivers a' `sublist_of` sd'
      ∧ ∃ fromNonDrivers,
          fromNonDrivers `sublist_of` snd'
          ∧ selectedAsNonDrivers a'
            = fromNonDrivers ++ driversUsedAsNonDrivers a'.
Proof.
  intros Hsd Hsnd a. subst a.
  change 2 with (Z.of_nat 2). change 3 with (Z.of_nat 3).
  rewrite allocate_counts. cbv zeta.
  rewrite (take_ge snd 3), (drop_ge snd 3), Hsnd by lia.
  rewrite bool_decide_eq_true_2 by (rewrite length_drop; lia).
  unfold proposedWaitlistOf.
  cbn [selectedAsDrivers selectedAsNonDrivers driversUsedAsNonDrivers
       rejectedDrivers rejectedNonDrivers Nat.sub].
  rewrite app_nil_r, drop_drop. cbn [Nat.add].
  split; [done |]. split; [rewrite length_take; lia |].
  split; [done |]. split; [rewrite length_take, length_drop; lia |].
  split; [done |]. split; [done |]. split; [rewrite length_drop; lia |].
  split; [| intros; apply allocate_pools].
  rewrite <- (take_drop 2 sd) at 1. f_equal.
  rewrite <- (take_drop 2 (drop 2 sd)) at 1. by rewrite drop_drop.
Qed.

Lemma backfill_scenario_witness :
  let d i := normalizeSignup (sampleRecord i true "UNKNOWN") in
  let sd := [d "d1"; d "d2"; d "d3"; d "d4"; d "d5"] in
  let snd := [normalizeSignup (sampleRecord "n1" false "UNKNOWN")] in
  let a := allocate sd snd 2 3 in
  selectedAsDrivers a = take 2 sd
  ∧ length (selectedAsDrivers a) = 2%nat
  ∧ driversUsedAsNonDrivers a = take 2 (drop 2 sd)
  ∧ length (driversUsedAsNonDrivers a) = 2%nat
  ∧ selectedAsNonDrivers a = snd ++ driversUsedAsNonDrivers a
  ∧ proposedWaitlistOf a = drop 4 sd
  ∧ length (proposedWaitlistOf a) = 1%nat
  ∧ sd = selectedAsDrivers a ++ driversUsedAsNonDrivers a
           ++ proposedWaitlistOf a
  ∧ ∀ sd' snd' ds nds,
      let a' := allocate sd' snd' ds nds in
      selectedAsDrivers a' `sublist_of` sd'
      ∧ driversUsedAsNonDrivers a' `sublist_of` sd'
      ∧ ∃ fromNonDrivers,
          fromNonDrivers `sublist_of` snd'
          ∧ selectedAsNonDrivers a'
            = fromNonDrivers ++ driversUsedAsNonDrivers a'.
Proof.
  intros d sd snd. apply (backfill_scenario sd snd); reflexivity.
Defined.

(** C6, counterexample.  The handler passes the trip's two slot fields to
    [slice] as they are, and a field can hold a negative number.  With
    -1 driver slots, 1 non-driver slot (total capacity 0) and three
    drivers signed up, [slice(0, -1)] selects two of them as drivers and
    the backfill takes the third: three are selected for a capacity of 0,
    and two drivers for -1 driver slots. *)
Lemma negative_slots_exceed_capacity :
  let d i := normalizeSignup (sampleRecord i true "UNKNOWN") in
  let sd := [d "d1"; d "d2"; d "d3"] in
  let driverSlotsNeeded := -1 in
  let nonDriverSlotsNeeded := 1 in
  let totalCapacity := 0 in
  let a := allocate sd [] driverSlotsNeeded nonDriverSlotsNeeded in
  driverSlotsNeeded + nonDriverSlotsNeeded = totalCapacity
  ∧ selectedAsDrivers a = [d "d1"; d "d2"]
  ∧ selectedAsNonDrivers a = [d "d3"]
  ∧ ¬ (Z.of_nat (length (selectedAsDrivers a))
       + Z.of_nat (length (selectedAsNonDrivers a)) ≤ totalCapacity)
  ∧ ¬ (Z.of_nat (length (selectedAsDrivers a)) ≤ driverSlotsNeeded).
Proof.
  intros d sd driverSlotsNeeded nonDriverSlotsNeeded totalCapacity a.
  split; [done |]. split; [done |]. split; [done |].
  split; vm_compute; by intros H.
Qed.

(** C6, amended.  For any two pools and any slot counts that are not
    negative, if the driver slots and the non-driver capacity add up to
    the total capacity, the proposal selects at most the total capacity,
    and at most as many drivers as there are driver slots.  The slot
    counts are the integers the handler reads from the trip. *)
Theorem capacity_conservation sd snd
    (driverSlotsNeeded nonDriverSlotsNeeded totalCapacity : Z) :
  0 ≤ driverSlotsNeeded →
  0 ≤ nonDriverSlotsNeeded →
  driverSlotsNeeded + nonDriverSlotsNeeded = totalCapacity →
  let a := allocate sd snd driverSlotsNeeded nonDriverSlotsNeeded in
  Z.of_nat (length (selectedAsDrivers a))
  + Z.of_nat (length (selectedAsNonDrivers a)) ≤ totalCapacity
  ∧ Z.of_nat (length (selectedAsDrivers a)) ≤ driverSlotsNeeded.
Proof.
  intros Hd Hn Hinv a. subst a.
  destruct (Z_of_nat_complete _ Hd) as [ds ->].
  destruct (Z_of_nat_complete _ Hn) as [nds ->].
  rewrite allocate_counts. cbv zeta.
  case_bool_decide;
    cbn [selectedAsDrivers selectedAsNonDrivers];
    rewrite ?length_app, !length_take; lia.
Qed.

Lemma capacity_conservation_witness :
  let d i := normalizeSignup (sampleRecord i true "UNKNOWN") in
  let sd := [d "d1"; d "d2"; d "d3"; d "d4"; d "d5"] in
  let snd := [normalizeSignup (sampleRecord "n1" false "UNKNOWN")] in
  let a := allocate sd snd 2 3 in
  Z.of_nat (length (selectedAsDrivers a))
  + Z.of_nat (length (selectedAsNonDrivers a)) ≤ 5
  ∧ Z.of_nat (length (selectedAsDrivers a)) ≤ 2.
Proof.
  intros d sd snd. apply (capacity_conservation sd snd 2 3 5); lia.
Defined.

(** The handler refuses only a trip whose two slot fields are both zero:
    a negative field reaches the allocator, and the answer proposes all
    three signups for the roster of a trip of capacity 0. *)
Example randomize_negative_slots :
  let trip := {| tripRecordId := "trip1"; Capacity := Some 0;
                 AdditionalDriversRequired := Some (-1);
                 NonDriversCapacity := Some 1 |} in
  let w := {| proposedRosters := ∅; tripsTable := [trip];
              signupsTable := [sampleRecord "d1" true "UNKNOWN";
                               sampleRecord "d2" true "UNKNOWN";
                               sampleRecord "d3" true "UNKNOWN"];
              trace := [] |} in
  ∃ body w',
    randomize (λ pool, pool) 0 "trip1" w = (inr body, w')
    ∧ id <$> proposedRoster body = ["d1"; "d2"; "d3"]
    ∧ proposedWaitlist body = [].
Proof.
  intros trip w. eexists _, _. split; [vm_compute; reflexivity |].
  split; reflexivity.
Qed.

Lemma fetchTripById_found tripId w trip :
  tripById tripId (tripsTable w) = Some trip →
  fetchTripById tripId w = (inr trip, emit (EvGetTrip tripId) w).
Proof.
  intros H. unfold fetchTripById. cbv zeta.
  change (tripsTable (emit _ w)) with (tripsTable w). by rewrite H.
Qed.

Lemma fetchTripById_missing tripId w :
  tripById tripId (tripsTable w) = None →
  fetchTripById tripId w = (inl UpstreamFailure, emit (EvGetTrip tripId) w).
Proof.
  intros H. unfold fetchTripById. cbv zeta.
  change (tripsTable (emit _ w)) with (tripsTable w). by rewrite H.
Qed.

(** The randomize handler stores what the allocator selects and writes
    nothing to the store. *)
Lemma randomize_ok shuffle now tripId w trip :
  tripById tripId (tripsTable w) = Some trip →
  let driverSlotsNeeded := orZero (AdditionalDriversRequired trip) in
  let nonDriverSlotsNeeded := orZero (NonDriversCapacity trip) in
  let allSignups := signupsOfTrip tripId (signupsTable w) in
  driverSlotsNeeded ≠ 0 ∨ nonDriverSlotsNeeded ≠ 0 →
  allSignups ≠ [] →
  let a := allocate (shuffle (filter (λ s, IsDriver s) allSignups))
             (shuffle (filter (λ s, negb (IsDriver s)) allSignups))
             driverSlotsNeeded nonDriverSlotsNeeded in
  let proposal := {| rosterIds := id <$> proposedRosterOf a;
                     waitlistIds := id <$> proposedWaitlistOf a;
                     timestamp := now |} in
  randomize shuffle now tripId w
  = (inr {| proposedRoster := proposedRosterOf a;
            proposedWaitlist := proposedWaitlistOf a |},
     {| proposedRosters := <[tripId := proposal]> (proposedRosters w);
        tripsTable := tripsTable w;
        signupsTable := signupsTable w;
        trace := trace w ++ [EvGetTrip tripId; EvListSignups tripId;
                             EvCacheSet tripId proposal] |}).
Proof.
  intros Htrip ds nds allSignups Hslots Hpool a proposal.
  unfold randomize.
  erewrite bind_inr; [| by apply fetchTripById_found].
  fold ds nds.
  replace ((ds =? 0) && (nds =? 0)) with false
    by (symmetry; apply andb_false_iff; rewrite !Z.eqb_neq; tauto).
  erewrite bind_inr; [| reflexivity].
  change (signupsTable (emit _ (emit _ w))) with (signupsTable w).
  fold allSignups.
  rewrite bool_decide_eq_false_2 by (by destruct allSignups).
  cbv zeta. fold a. fold proposal. munfold. by wsimpl.
Qed.

(** The handler's two early answers. *)
Lemma randomize_no_capacity shuffle now tripId w trip :
  tripById tripId (tripsTable w) = Some trip →
  orZero (AdditionalDriversRequired trip) = 0 →
  orZero (NonDriversCapacity trip) = 0 →
  (randomize shuffle now tripId w).1 = inl InvalidCapacity.
Proof.
  intros Htrip Hd Hn. unfold randomize.
  erewrite bind_inr; [| by apply fetchTripById_found].
  by rewrite Hd, Hn.
Qed.

(** What [slice] does with a negative end: for a negative number in the
    trip's slot fields the allocator selects all but that many from the
    end of the pool. *)
Example slice_negative_end : slice [1; 2; 3] 0 (Some (-1)) = [1; 2].
Proof. reflexivity. Qed.

(** ** Dropping a participant (C8) *)

Lemma normalize_patched_status body r st :
  patchStatus body = Some st → st ≠ "" →
  Status (normalizeSignup (applyPatch body r)) = st.
Proof.
  intros Hb Hst. unfold applyPatch. rewrite Hb. cbn. by destruct st.
Qed.

Lemma normalize_patched_id body r :
  id (normalizeSignup (applyPatch body r)) = rawId r.
Proof. cbn. apply applyPatch_rawId. Qed.

(** C8.  Dropping a participant whose record is in the table, whatever
    its status and whatever the state of the trip: the handler issues one
    request to the store, a PATCH of that record with the date-stamped
    "Dropped- " status; it reads neither the trip nor the signups; the
    table keeps all its records in place, the record of the participant
    differs from what it was in its status only, and every other record
    is unchanged. *)
Theorem drop_rewrites_status_only today participantId w :
  participantId ∈ rawId <$> signupsTable w →
  ∃ w',
    dropParticipant today participantId w = (inr (), w')
    ∧ trace w'
      = trace w ++ [EvPatch participantId
                      {| patchStatus := Some (droppedStatus today) |}]
    ∧ proposedRosters w' = proposedRosters w
    ∧ tripsTable w' = tripsTable w
    ∧ length (signupsTable w') = length (signupsTable w)
    ∧ Forall2
        (λ r r',
           rawId r' = rawId r
           ∧ SlackNameRefined r' = SlackNameRefined r
           ∧ TripLeadName r' = TripLeadName r
           ∧ DoYouHaveACar r' = DoYouHaveACar r
           ∧ PersonalEmail r' = PersonalEmail r
           ∧ EmergencyContactPhone r' = EmergencyContactPhone r
           ∧ rawStatus r' = (if bool_decide (rawId r = participantId)
                             then Some (droppedStatus today)
                             else rawStatus r)
           ∧ (rawId r ≠ participantId → r' = r))
        (signupsTable w) (signupsTable w').
Proof.
  intros Hin. destruct (recordById_is_Some _ _ Hin) as [r Hr].
  unfold dropParticipant. cbv zeta. fold (droppedStatus today).
  erewrite bind_inr; [| by apply updateSignup_found].
  rewrite airtableUpdatesOf_dropped. munfold.
  eexists. split; [done |]. wsimpl.
  split; [done |]. split; [done |]. split; [done |].
  split; [apply patchTable_length |].
  unfold patchTable. apply Forall2_fmap_r, Forall_Forall2_diag, Forall_true.
  intros r0. unfold compose. case_bool_decide as E.
  - unfold applyPatch. cbn. by repeat split.
  - by repeat split.
Qed.

Lemma drop_rewrites_status_only_witness :
  let table := [sampleRecord "a" true "Selected (driver)";
                sampleRecord "b" false "Waitlist (nondriver) - 1"] in
  let w := sampleWorld ∅ table in
  let today := mkDate 2025 3 9 in
  ∃ w',
    dropParticipant today "a" w = (inr (), w')
    ∧ trace w'
      = trace w ++ [EvPatch "a"
                      {| patchStatus := Some (droppedStatus today) |}]
    ∧ proposedRosters w' = proposedRosters w
    ∧ tripsTable w' = tripsTable w
    ∧ length (signupsTable w') = length (signupsTable w)
    ∧ Forall2
        (λ r r',
           rawId r' = rawId r
           ∧ SlackNameRefined r' = SlackNameRefined r
           ∧ TripLeadName r' = TripLeadName r
           ∧ DoYouHaveACar r' = DoYouHaveACar r
           ∧ PersonalEmail r' = PersonalEmail r
           ∧ EmergencyContactPhone r' = EmergencyContactPhone r
           ∧ rawStatus r' = (if bool_decide (rawId r = "a")
                             then Some (droppedStatus today)
                             else rawStatus r)
           ∧ (rawId r ≠ "a" → r' = r))
        (signupsTable w) (signupsTable w').
Proof.
  intros table w today.
  apply (drop_rewrites_status_only today "a" w).
  cbn. apply elem_of_cons. by left.
Defined.

Example drop_then_listed_as_dropped :
  let table := [sampleRecord "a" true "Selected (driver)";
                sampleRecord "b" false "Waitlist (nondriver) - 1"] in
  let w := (dropParticipant (mkDate 2025 3 9) "a" (sampleWorld ∅ table)).2 in
  rawStatus <$> signupsTable w
  = [Some "Dropped- 03/09/2025"; Some "Waitlist (nondriver) - 1"]
  ∧ id <$> droppedOf (signupsOfTrip "trip1" (signupsTable w)) = ["a"]
  ∧ id <$> rosterOf (signupsOfTrip "trip1" (signupsTable w)) = [].
Proof. by vm_compute. Qed.

(** Dropping an id the table does not have: the one PATCH is issued, the
    store refuses it, and the handler answers 500. *)
Lemma drop_unknown_id today participantId w :
  participantId ∉ rawId <$> signupsTable w →
  dropParticipant today participantId w
  = (inl UpstreamFailure,
     emit (EvPatch participantId
             {| patchStatus := Some (droppedStatus today) |}) w).
Proof.
  intros Hnot. unfold dropParticipant. cbv zeta. fold (droppedStatus today).
  erewrite bind_inl; [| apply updateSignup_missing].
  - by rewrite airtableUpdatesOf_dropped.
  - destruct (recordById _ _) as [r|] eqn:E; [| done].
    apply recordById_Some in E as [Hr <-]. destruct Hnot.
    by apply list_elem_of_fmap_2.
Qed.

(** ** Re-admission (C9) *)

Lemma find_id_None signups participantId :
  find (λ s, bool_decide (id s = participantId)) signups = None
  ↔ participantId ∉ id <$> signups.
Proof.
  induction signups as [|s signups IH]; cbn.
  - split; [intros _ H; by apply elem_of_nil in H | done].
  - case_bool_decide as E.
    + split; [done |]. intros []. rewrite <- E. left.
    + rewrite IH, not_elem_of_cons. split; [by split | by intros [_ ?]].
Qed.

Lemma find_id_Some signups participantId s :
  find (λ s, bool_decide (id s = participantId)) signups = Some s →
  s ∈ signups ∧ id s = participantId.
Proof.
  induction signups as [|s' signups IH]; cbn; [done |].
  case_bool_decide as E.
  - intros [= <-]. split; [left | done].
  - intros [? ?]%IH. split; [by right | done].
Qed.

(** C9.  For a trip the store knows, after the trip and its signups
    were read:
    - re-admission answers "Participant not found" exactly when no signup
      of the trip carries the given id;
    - for the signup [s] found under the id, the answer depends on the
      roster counts and the driver flag of [s] alone, never on the status
      of [s] — roster, waitlist, dropped or anything else:
      - with the roster at the total capacity it answers "Roster
        currently full!";
      - below it, for a driver with no driver spot left it answers "No
        driver spots available", and for a non-driver with no non-driver
        spot left "No non-driver spots available"; each of the three
        refusals comes after the two reads and writes nothing;
      - below it and with a spot of the kind of [s] free, the handler
        succeeds with a single PATCH that sets the status of that id to
        "Selected (driver)" or "Selected (nondriver)" by the driver flag
        of [s]. *)
Theorem readd_checks_presence_and_capacity tripId participantId w trip :
  tripById tripId (tripsTable w) = Some trip →
  let signups := signupsOfTrip tripId (signupsTable w) in
  let roster := rosterOf signups in
  let maxParticipants := orZero (Capacity trip) in
  let driverSlots := orZero (AdditionalDriversRequired trip) in
  let currentDrivers :=
    Z.of_nat (length (filter (λ s, IsDriver s) roster)) in
  let currentNonDrivers := Z.of_nat (length roster) - currentDrivers in
  let afterReads :=
    emit (EvListSignups tripId) (emit (EvGetTrip tripId) w) in
  ((reAddParticipant tripId participantId w).1 = inl ParticipantNotFound
   ↔ participantId ∉ id <$> signups)
  ∧ ∀ s,
      find (λ s, bool_decide (id s = participantId)) signups = Some s →
      (maxParticipants ≤ Z.of_nat (length roster) →
       reAddParticipant tripId participantId w
       = (inl RosterFull, afterReads))
      ∧ (Z.of_nat (length roster) < maxParticipants →
         IsDriver s = true →
         driverSlots - currentDrivers ≤ 0 →
         reAddParticipant tripId participantId w
         = (inl NoDriverSpots, afterReads))
      ∧ (Z.of_nat (length roster) < maxParticipants →
         IsDriver s = false →
         maxParticipants - driverSlots - currentNonDrivers ≤ 0 →
         reAddParticipant tripId participantId w
         = (inl NoNonDriverSpots, afterReads))
      ∧ (Z.of_nat (length roster) < maxParticipants →
         (if IsDriver s then 0 < driverSlots - currentDrivers
          else 0 < maxParticipants - driverSlots - currentNonDrivers) →
         ∃ updated w',
           reAddParticipant tripId participantId w = (inr updated, w')
           ∧ id updated = participantId
           ∧ Status updated = selectedStatus (IsDriver s)
           ∧ trace w'
             = trace w ++ [EvGetTrip tripId; EvListSignups tripId;
                           EvPatch participantId
                             {| patchStatus :=
                                  Some (selectedStatus (IsDriver s)) |}]
           ∧ signupsTable w'
             = patchTable participantId
                 {| patchStatus := Some (selectedStatus (IsDriver s)) |}
                 (signupsTable w)).
Proof.
  intros Htrip signups roster maxParticipants driverSlots currentDrivers
    currentNonDrivers afterReads.
  assert (∀ k : list Signup → M Signup,
            (fetchTripSignups tripId ≫= k) (emit (EvGetTrip tripId) w)
            = k signups afterReads) as Hfetch
    by (intros k; by erewrite bind_inr).
  unfold reAddParticipant.
  erewrite bind_inr; [| by apply fetchTripById_found].
  rewrite Hfetch. fold maxParticipants driverSlots.
  split.
  - rewrite <- find_id_None.
    destruct (find _ signups) as [s|] eqn:Hfind; [| done].
    fold roster. split; [| done]. intros Hres. exfalso.
    destruct (maxParticipants <=? _); [done |].
    cbv zeta in Hres. fold currentDrivers currentNonDrivers in Hres.
    revert Hres. munfold.
    destruct (IsDriver s).
    + destruct (_ <=? 0); [done |]. unfold updateSignup. cbv zeta.
      by destruct (recordById _ _).
    + destruct (_ <=? 0); [done |]. unfold updateSignup. cbv zeta.
      by destruct (recordById _ _).
  - intros s Hfind. rewrite Hfind. fold roster.
    split; [| split; [| split]].
    { intros Hfull.
      by replace (maxParticipants <=? _) with true
        by (symmetry; apply Z.leb_le; lia). }
    { intros Htotal Hd Hspot.
      replace (maxParticipants <=? _) with false
        by (symmetry; apply Z.leb_gt; lia).
      cbv zeta. fold currentDrivers. rewrite Hd.
      replace (_ <=? 0) with true by (symmetry; apply Z.leb_le; lia).
      by erewrite bind_inl by reflexivity. }
    { intros Htotal Hd Hspot.
      replace (maxParticipants <=? _) with false
        by (symmetry; apply Z.leb_gt; lia).
      cbv zeta. fold currentDrivers currentNonDrivers. rewrite Hd.
      replace (_ <=? 0) with true by (symmetry; apply Z.leb_le; lia).
      by erewrite bind_inl by reflexivity. }
    intros Htotal Hspot.
    replace (maxParticipants <=? _) with false
      by (symmetry; apply Z.leb_gt; lia).
    cbv zeta. fold currentDrivers currentNonDrivers.
    apply find_id_Some in Hfind as [Hs Hid].
    assert (participantId ∈ rawId <$> signupsTable w) as Hin
      by (rewrite <- Hid; by eapply signupsOfTrip_ids).
    destruct (recordById_is_Some _ _ Hin) as [r Hr].
    pose proof (recordById_Some _ _ _ Hr) as [_ Hrid].
    assert (∀ w0, signupsTable w0 = signupsTable w →
              updateSignup participantId
                {| updStatus := Some (selectedStatus (IsDriver s)) |} w0
              = (inr (normalizeSignup
                        (applyPatch
                           {| patchStatus :=
                                Some (selectedStatus (IsDriver s)) |} r)),
                 withSignups
                   (patchTable participantId
                      {| patchStatus := Some (selectedStatus (IsDriver s)) |}
                      (signupsTable w))
                   (emit (EvPatch participantId
                            {| patchStatus :=
                                 Some (selectedStatus (IsDriver s)) |}) w0)))
      as Hupd.
    { intros w0 Hw0.
      rewrite (updateSignup_found _ _ _ r) by (by rewrite Hw0).
      by rewrite airtableUpdatesOf_selected, Hw0. }
    match goal with
    | |- context [(?check ≫= _) _] =>
        assert (check = mret ()) as ->
          by (destruct (IsDriver s);
              by replace (_ <=? 0) with false
                by (symmetry; apply Z.leb_gt; lia))
    end.
    eexists _, _. split.
    { erewrite bind_inr by reflexivity. by apply Hupd. }
    split; [by rewrite normalize_patched_id |].
    split; [apply normalize_patched_status; [done | by destruct (IsDriver s)] |].
    subst afterReads. by wsimpl.
Qed.

(** A signup that is already on the roster is "re-added" like any
    other, and an id of another trip is not found. *)
Lemma readd_checks_presence_and_capacity_witness :
  let table := [sampleRecord "a" true "Selected (driver)";
                sampleRecord "b" false "Waitlist (nondriver) - 1"] in
  let w := sampleWorld ∅ table in
  ((reAddParticipant "trip1" "zz" w).1 = inl ParticipantNotFound
   ↔ "zz" ∉ id <$> signupsOfTrip "trip1" (signupsTable w))
  ∧ ∃ updated w',
      reAddParticipant "trip1" "a" w = (inr updated, w')
      ∧ id updated = "a"
      ∧ Status updated = "Selected (driver)"
      ∧ trace w'
        = trace w ++ [EvGetTrip "trip1"; EvListSignups "trip1";
                      EvPatch "a"
                        {| patchStatus := Some "Selected (driver)" |}]
      ∧ signupsTable w'
        = patchTable "a" {| patchStatus := Some "Selected (driver)" |}
            (signupsTable w).
Proof.
  intros table w. split.
  - apply (readd_checks_presence_and_capacity "trip1" "zz" w sampleTrip).
    reflexivity.
  - pose proof (readd_checks_presence_and_capacity "trip1" "a" w sampleTrip
                  eq_refl) as [_ Hfound].
    destruct (Hfound (normalizeSignup
                        (sampleRecord "a" true "Selected (driver)"))
                eq_refl) as (_ & _ & _ & Hok).
    apply Hok; vm_compute; reflexivity.
Defined.

Example readd_from_waitlist :
  let table := [sampleRecord "a" true "Selected (driver)";
                sampleRecord "b" false "Waitlist (nondriver) - 1"] in
  let w := sampleWorld ∅ table in
  rawStatus <$> signupsTable (reAddParticipant "trip1" "b" w).2
  = [Some "Selected (driver)"; Some "Selected (nondriver)"].
Proof. by vm_compute. Qed.

(** The three refusals, on the sample trip (capacity 5, 2 driver slots):
    a full roster; a driver when both driver slots are taken; a non-driver
    when the three remaining places are taken. *)
Example readd_refusals :
  let sel i car := sampleRecord i car (selectedStatus car) in
  let full := [sel "a" true; sel "b" true; sel "c" false; sel "d" false;
               sel "e" false; sampleRecord "x" false "Dropped- 01/02/2025"] in
  let noDriverSpot := [sel "a" true; sel "b" true;
                       sampleRecord "x" true "Dropped- 01/02/2025"] in
  let noNonDriverSpot := [sel "c" false; sel "d" false; sel "e" false;
                          sampleRecord "x" false "Dropped- 01/02/2025"] in
  (reAddParticipant "trip1" "x" (sampleWorld ∅ full)).1 = inl RosterFull
  ∧ (reAddParticipant "trip1" "x" (sampleWorld ∅ noDriverSpot)).1
    = inl NoDriverSpots
  ∧ (reAddParticipant "trip1" "x" (sampleWorld ∅ noNonDriverSpot)).1
    = inl NoNonDriverSpots.
Proof. by vm_compute. Qed.

(** ** Generic promotion (C7) *)

Lemma first_filter {A} (P : A → bool) (l : list A) x :
  x ∈ l → P x = true →
  ∃ before d after,
    l = before ++ d :: after
    ∧ Forall (λ y, P y = false) before
    ∧ P d = true
    ∧ first (filter (λ y, P y) l) = Some d.
Proof.
  induction l as [|y l IH]; intros Hin Hx; [by apply elem_of_nil in Hin |].
  destruct (P y) eqn:Hy.
  - exists [], y, l.
    split; [done |]. split; [constructor |]. split; [done |].
    rewrite filter_cons_True by (by rewrite Hy). done.
  - apply elem_of_cons in Hin as [-> | Hin]; [congruence |].
    destruct (IH Hin Hx) as (before & d & after & -> & Hb & Hd & Hf).
    exists (y :: before), d, after.
    split; [done |]. split; [by constructor |]. split; [done |].
    rewrite filter_cons_False by (intros H; by rewrite Hy in H). done.
Qed.

(** C7.  With a driver spot and a non-driver spot both open, and a driver
    and a non-driver both on the waitlist, generic promotion takes the
    first driver of the waitlist — no driver stands before it in the
    order in which the signups were fetched — and sets its status to
    "Selected (driver)" with a single PATCH. *)
Theorem promote_prefers_driver tripId w trip :
  tripById tripId (tripsTable w) = Some trip →
  let signups := signupsOfTrip tripId (signupsTable w) in
  let roster := rosterOf signups in
  let waitlist := waitlistOf signups in
  let maxParticipants := orZero (Capacity trip) in
  let driverSlots := orZero (AdditionalDriversRequired trip) in
  let currentDrivers :=
    Z.of_nat (length (filter (λ s, IsDriver s) roster)) in
  let currentNonDrivers := Z.of_nat (length roster) - currentDrivers in
  0 < driverSlots - currentDrivers →
  0 < maxParticipants - driverSlots - currentNonDrivers →
  (∃ d, d ∈ waitlist ∧ IsDriver d = true) →
  (∃ n, n ∈ waitlist ∧ IsDriver n = false) →
  ∃ before d after updated w',
    waitlist = before ++ d :: after
    ∧ Forall (λ s, IsDriver s = false) before
    ∧ IsDriver d = true
    ∧ addFromWaitlist tripId w = (inr updated, w')
    ∧ id updated = id d
    ∧ Status updated = "Selected (driver)"
    ∧ trace w'
      = trace w ++ [EvGetTrip tripId; EvListSignups tripId;
                    EvPatch (id d)
                      {| patchStatus := Some "Selected (driver)" |}]
    ∧ signupsTable w'
      = patchTable (id d) {| patchStatus := Some "Selected (driver)" |}
          (signupsTable w).
Proof.
  intros Htrip signups roster waitlist maxParticipants driverSlots
    currentDrivers currentNonDrivers Hdspot Hnspot (d0 & Hd0 & Hd0d) _.
  destruct (first_filter IsDriver waitlist d0 Hd0 Hd0d)
    as (before & d & after & Hsplit & Hbefore & Hd & Hfirst).
  exists before, d, after.
  assert (d ∈ signups) as Hds.
  { assert (d ∈ waitlist) as Hdw by (rewrite Hsplit; set_solver).
    by apply list_elem_of_filter in Hdw as [_ ?]. }
  assert (id d ∈ rawId <$> signupsTable w) as Hin
    by (by eapply signupsOfTrip_ids).
  destruct (recordById_is_Some _ _ Hin) as [r Hr].
  pose proof (recordById_Some _ _ _ Hr) as [_ Hrid].
  eexists _, _.
  split; [done |]. split; [done |]. split; [done |].
  split.
  { unfold addFromWaitlist.
    erewrite bind_inr; [| by apply fetchTripById_found].
    erewrite bind_inr; [| reflexivity].
    change (signupsTable (emit _ (emit _ w))) with (signupsTable w).
    fold signups. fold roster. fold maxParticipants driverSlots.
    fold currentDrivers. cbv zeta. fold currentNonDrivers. fold waitlist.
    replace (maxParticipants <=? _) with false
      by (symmetry; apply Z.leb_gt; lia).
    rewrite bool_decide_eq_false_2
      by (rewrite Hsplit, length_app; cbn; lia).
    replace (0 <? driverSlots - currentDrivers) with true
      by (symmetry; apply Z.ltb_lt; lia).
    replace (0 <? _ - currentNonDrivers) with true
      by (symmetry; apply Z.ltb_lt; lia).
    cbn [andb]. rewrite Hfirst.
    erewrite bind_inr; [| reflexivity].
    cbv beta iota. rewrite Hd.
    rewrite (updateSignup_found _ _ _ r) by done.
    rewrite airtableUpdatesOf_selected. reflexivity. }
  split; [by rewrite normalize_patched_id |].
  split; [by apply normalize_patched_status |].
  by wsimpl.
Qed.

Lemma promote_prefers_driver_witness :
  let table := [sampleRecord "r1" false "Selected (nondriver)";
                sampleRecord "n1" false "Waitlist (nondriver) - 1";
                sampleRecord "d1" true "Waitlist (driver) - 1";
                sampleRecord "d2" true "Waitlist (driver) - 2"] in
  let w := sampleWorld ∅ table in
  let waitlist := waitlistOf (signupsOfTrip "trip1" (signupsTable w)) in
  ∃ before d after updated w',
    waitlist = before ++ d :: after
    ∧ Forall (λ s, IsDriver s = false) before
    ∧ IsDriver d = true
    ∧ addFromWaitlist "trip1" w = (inr updated, w')
    ∧ id updated = id d
    ∧ Status updated = "Selected (driver)"
    ∧ trace w'
      = trace w ++ [EvGetTrip "trip1"; EvListSignups "trip1";
                    EvPatch (id d)
                      {| patchStatus := Some "Selected (driver)" |}]
    ∧ signupsTable w'
      = patchTable (id d) {| patchStatus := Some "Selected (driver)" |}
          (signupsTable w).
Proof.
  intros table w waitlist.
  apply (promote_prefers_driver "trip1" w sampleTrip eq_refl).
  - vm_compute. reflexivity.
  - vm_compute. reflexivity.
  - exists (normalizeSignup (sampleRecord "d1" true "Waitlist (driver) - 1")).
    split; [| reflexivity].
    vm_compute. right. left.
  - exists (normalizeSignup
              (sampleRecord "n1" false "Waitlist (nondriver) - 1")).
    split; [| reflexivity].
    vm_compute. left.
Defined.

Example promote_takes_first_driver :
  let table := [sampleRecord "r1" false "Selected (nondriver)";
                sampleRecord "n1" false "Waitlist (nondriver) - 1";
                sampleRecord "d1" true "Waitlist (driver) - 1";
                sampleRecord "d2" true "Waitlist (driver) - 2"] in
  let w := sampleWorld ∅ table in
  trace (addFromWaitlist "trip1" w).2
  = [EvGetTrip "trip1"; EvListSignups "trip1";
     EvPatch "d1" {| patchStatus := Some "Selected (driver)" |}].
Proof. by vm_compute. Qed.

(** ** The two scenarios of the specification *)

(** Capacity 10 with 3 driver slots; 2 drivers and 5 non-drivers on the
    roster, one driver waiting: the driver is promoted. *)
Example scenario_promote_driver :
  let table :=
    [sampleRecord "d1" true "Selected (driver)";
     sampleRecord "d2" true "Selected (driver)";
     sampleRecord "n1" false "Selected (nondriver)";
     sampleRecord "n2" false "Selected (nondriver)";
     sampleRecord "n3" false "Selected (nondriver)";
     sampleRecord "n4" false "Selected (nondriver)";
     sampleRecord "n5" false "ON TRIP";
     sampleRecord "d3" true "Waitlist (driver) - 1"] in
  let trip := {| tripRecordId := "trip1"; Capacity := Some 10;
                 AdditionalDriversRequired := Some 3;
                 NonDriversCapacity := Some 7 |} in
  let w := {| proposedRosters := ∅; tripsTable := [trip];
              signupsTable := table; trace := [] |} in
  let after := signupsOfTrip "trip1" (signupsTable (addDriver "trip1" w).2) in
  (∃ updated, (addDriver "trip1" w).1 = inr updated
              ∧ id updated = "d3" ∧ Status updated = "Selected (driver)")
  ∧ length (filter (λ s, IsDriver s) (rosterOf after)) = 3%nat
  ∧ length (filter (λ s, negb (IsDriver s)) (rosterOf after)) = 5%nat
  ∧ waitlistOf after = [].
Proof. split; [eexists; by vm_compute | by vm_compute]. Qed.

(** The same trip with ten on the roster: "Roster currently full!". *)
Example scenario_roster_full :
  let table :=
    (λ i, sampleRecord i false "Selected (nondriver)")
      <$> ["p0"; "p1"; "p2"; "p3"; "p4"; "p5"; "p6"; "p7"; "p8"; "p9"] in
  let trip := {| tripRecordId := "trip1"; Capacity := Some 10;
                 AdditionalDriversRequired := Some 3;
                 NonDriversCapacity := Some 7 |} in
  let w := {| proposedRosters := ∅; tripsTable := [trip];
              signupsTable := table; trace := [] |} in
  (addFromWaitlist "trip1" w).1 = inl RosterFull
  ∧ (addDriver "trip1" w).1 = inl RosterFull
  ∧ (addNonDriver "trip1" w).1 = inl RosterFull.
Proof. by vm_compute. Qed.

(** * Further properties of the handlers *)

(** ** The allocator loses and repeats nobody *)

Lemma slice_split {A} (l : list A) (n : Z) :
  slice l 0 (Some n) ++ slice l n None = l.
Proof.
  unfold slice. cbv zeta.
  replace (0 <? 0) with false by done.
  set (len := Z.of_nat (length l)).
  set (c := if n <? 0 then Z.max (len + n) 0 else Z.min n len).
  assert (0 ≤ c ≤ len) as Hc by (unfold c, len; destruct (Z.ltb_spec n 0); lia).
  clearbody c. subst len.
  replace (Z.to_nat (Z.max (c - Z.min 0 _) 0)) with (Z.to_nat c) by lia.
  replace (Z.to_nat (Z.min 0 _)) with 0%nat by lia.
  rewrite drop_0.
  rewrite (take_ge (drop _ _)) by (rewrite length_drop; lia).
  apply take_drop.
Qed.

(** Whatever the two numbers are — zero, negative, larger than the
    pools — the proposed roster followed by the proposed waitlist is a
    rearrangement of the two pools. *)
Lemma allocate_perm sd snd (driverSlotsNeeded nonDriverSlotsNeeded : Z) :
  let a := allocate sd snd driverSlotsNeeded nonDriverSlotsNeeded in
  proposedRosterOf a ++ proposedWaitlistOf a ≡ₚ sd ++ snd.
Proof.
  cbv zeta. unfold allocate, proposedRosterOf, proposedWaitlistOf. cbv zeta.
  pose proof (slice_split sd driverSlotsNeeded) as Hsd.
  pose proof (slice_split snd nonDriverSlotsNeeded) as Hsnd.
  set (selD := slice sd 0 (Some driverSlotsNeeded)) in *.
  set (remD := slice sd driverSlotsNeeded None) in *.
  set (selN := slice snd 0 (Some nonDriverSlotsNeeded)) in *.
  set (remN := slice snd nonDriverSlotsNeeded None) in *.
  rewrite <- Hsd, <- Hsnd. clear Hsd Hsnd.
  destruct (_ && _); cbn [selectedAsDrivers selectedAsNonDrivers
                          rejectedDrivers rejectedNonDrivers].
  - set (needed := nonDriverSlotsNeeded - Z.of_nat (length selN)).
    pose proof (slice_split remD needed) as Hrem.
    set (back := slice remD 0 (Some needed)) in *.
    set (rest := slice remD needed None) in *.
    rewrite <- Hrem. clearbody selD selN remN back rest. solve_Permutation.
  - clearbody selD selN remN remD. solve_Permutation.
Qed.

Lemma driver_pools_perm (l : list Signup) :
  filter (λ s, IsDriver s) l ++ filter (λ s, negb (IsDriver s)) l ≡ₚ l.
Proof.
  induction l as [|x l IH]; [done |].
  destruct (IsDriver x) eqn:E.
  - rewrite filter_cons_True, filter_cons_False
      by (rewrite ?E; cbn; tauto).
    cbn. by f_equiv.
  - rewrite filter_cons_False, filter_cons_True
      by (rewrite ?E; cbn; tauto).
    rewrite <- Permutation_middle. by f_equiv.
Qed.

(** What a successful randomize implies about its input. *)
Lemma randomize_inr shuffle now tripId w body w1 :
  randomize shuffle now tripId w = (inr body, w1) →
  ∃ trip,
    tripById tripId (tripsTable w) = Some trip
    ∧ (orZero (AdditionalDriversRequired trip) ≠ 0
       ∨ orZero (NonDriversCapacity trip) ≠ 0)
    ∧ signupsOfTrip tripId (signupsTable w) ≠ [].
Proof.
  unfold randomize. intros Hrun.
  destruct (tripById tripId (tripsTable w)) as [trip|] eqn:Htrip.
  - exists trip. split; [done |].
    erewrite bind_inr in Hrun by (by apply fetchTripById_found).
    destruct (orZero (AdditionalDriversRequired trip) =? 0) eqn:E1;
      [destruct (orZero (NonDriversCapacity trip) =? 0) eqn:E2 |].
    + done.
    + apply Z.eqb_neq in E2. split; [by right |].
      cbn [andb] in Hrun. erewrite bind_inr in Hrun by reflexivity.
      change (signupsTable (emit _ (emit _ w))) with (signupsTable w) in Hrun.
      intros Hnil. by rewrite Hnil in Hrun.
    + apply Z.eqb_neq in E1. split; [by left |].
      cbn [andb] in Hrun. erewrite bind_inr in Hrun by reflexivity.
      change (signupsTable (emit _ (emit _ w))) with (signupsTable w) in Hrun.
      intros Hnil. by rewrite Hnil in Hrun.
  - by erewrite bind_inl in Hrun by (by apply fetchTripById_missing).
Qed.

(** ** Randomize (X1, X2) and the round trip with approve (X3) *)

(** X1.  Whatever the trip's two slot fields hold — not both zero, but
    possibly negative or larger than the pools — and however the pools are
    shuffled, a randomize that finds signups proposes every signup of the
    trip exactly once, on the roster or on the waitlist.  It stores the
    ids of what it answers under the trip, stamped with the current time,
    replacing what was stored there and leaving the proposals of other
    trips alone; it writes nothing to the store. *)
Theorem randomize_proposes_everyone shuffle now tripId w trip :
  (∀ l, shuffle l ≡ₚ l) →
  tripById tripId (tripsTable w) = Some trip →
  orZero (AdditionalDriversRequired trip) ≠ 0
  ∨ orZero (NonDriversCapacity trip) ≠ 0 →
  signupsOfTrip tripId (signupsTable w) ≠ [] →
  ∃ body w',
    randomize shuffle now tripId w = (inr body, w')
    ∧ proposedRoster body ++ proposedWaitlist body
      ≡ₚ signupsOfTrip tripId (signupsTable w)
    ∧ proposedRosters w' !! tripId
      = Some {| rosterIds := id <$> proposedRoster body;
                waitlistIds := id <$> proposedWaitlist body;
                timestamp := now |}
    ∧ (∀ other, other ≠ tripId →
         proposedRosters w' !! other = proposedRosters w !! other)
    ∧ signupsTable w' = signupsTable w
    ∧ tripsTable w' = tripsTable w
    ∧ ∃ stored, trace w' = trace w ++ [EvGetTrip tripId; EvListSignups tripId;
                                       EvCacheSet tripId stored].
Proof.
  intros Hshuffle Htrip Hslots Hpool.
  eexists _, _. split; [by apply randomize_ok |].
  cbn [proposedRoster proposedWaitlist proposedRosters signupsTable
       tripsTable trace].
  split.
  { rewrite allocate_perm, !Hshuffle. apply driver_pools_perm. }
  split; [apply lookup_insert_eq |].
  split; [intros other Hother; by apply lookup_insert_ne |].
  split; [done |]. split; [done |]. by eexists.
Qed.

Lemma randomize_proposes_everyone_witness :
  let table := [sampleRecord "d1" true "UNKNOWN";
                sampleRecord "n1" false "UNKNOWN";
                sampleRecord "d2" true "UNKNOWN"] in
  let w := sampleWorld ∅ table in
  ∃ body w',
    randomize reverse 7 "trip1" w = (inr body, w')
    ∧ proposedRoster body ++ proposedWaitlist body
      ≡ₚ signupsOfTrip "trip1" (signupsTable w)
    ∧ proposedRosters w' !! "trip1"
      = Some {| rosterIds := id <$> proposedRoster body;
                waitlistIds := id <$> proposedWaitlist body;
                timestamp := 7 |}
    ∧ (∀ other, other ≠ "trip1" →
         proposedRosters w' !! other = proposedRosters w !! other)
    ∧ signupsTable w' = signupsTable w
    ∧ tripsTable w' = tripsTable w
    ∧ ∃ stored, trace w' = trace w ++ [EvGetTrip "trip1";
                                       EvListSignups "trip1";
                                       EvCacheSet "trip1" stored].
Proof.
  intros table w.
  apply (randomize_proposes_everyone reverse 7 "trip1" w sampleTrip).
  - intros l. apply reverse_Permutation.
  - reflexivity.
  - left. vm_compute. discriminate.
  - vm_compute. discriminate.
Defined.

(** X2.  A randomize that answers with an error has replaced nothing: the
    cache and the store are as they were, so an earlier proposal stays
    pending.  For a trip the store knows the error is "no capacity
    defined" exactly when both slot fields are zero or absent — the
    signups are then not even fetched — and otherwise it is "no
    participants" and the trip has no signups. *)
Theorem randomize_failure_keeps_proposal shuffle now tripId w e :
  (randomize shuffle now tripId w).1 = inl e →
  let w' := (randomize shuffle now tripId w).2 in
  proposedRosters w' = proposedRosters w
  ∧ signupsTable w' = signupsTable w
  ∧ match tripById tripId (tripsTable w) with
    | None => e = UpstreamFailure
    | Some trip =>
        if (orZero (AdditionalDriversRequired trip) =? 0)
           && (orZero (NonDriversCapacity trip) =? 0)
        then e = InvalidCapacity ∧ trace w' = trace w ++ [EvGetTrip tripId]
        else e = EmptyPool ∧ signupsOfTrip tripId (signupsTable w) = []
    end.
Proof.
  cbv zeta. unfold randomize.
  destruct (tripById tripId (tripsTable w)) as [trip|] eqn:Htrip.
  - erewrite bind_inr by (by apply fetchTripById_found).
    destruct (_ && _).
    + cbn. by intros [= <-].
    + erewrite bind_inr by reflexivity.
      change (signupsTable (emit _ (emit _ w))) with (signupsTable w).
      case_bool_decide as Hlen.
      * cbn. intros [= <-]. by destruct (signupsOfTrip _ _).
      * by munfold.
  - erewrite bind_inl by (by apply fetchTripById_missing).
    cbn. by intros [= <-].
Qed.

Lemma randomize_failure_keeps_proposal_witness :
  let w := sampleWorld (sampleProposal ["a"] [] 0) [] in
  let w' := (randomize reverse 7 "trip1" w).2 in
  proposedRosters w' = proposedRosters w
  ∧ signupsTable w' = signupsTable w
  ∧ (EmptyPool = EmptyPool ∧ signupsOfTrip "trip1" (signupsTable w) = []).
Proof.
  intros w.
  apply (randomize_failure_keeps_proposal reverse 7 "trip1" w EmptyPool).
  reflexivity.
Defined.

Lemma idsMatch_refl ids : idsMatch ids ids = true.
Proof. by apply idsMatch_true. Qed.

(** X3.  The round trip of the trip page: whatever randomize answered,
    sending back the ids of that answer is accepted — the validation
    passes, the response counts the two lists, the pending proposal is
    consumed — and from then on every approval for the trip is answered
    "No pending randomization found". *)
Theorem proposed_then_approved shuffle now tripId w body w1 :
  randomize shuffle now tripId w = (inr body, w1) →
  ∃ w2,
    approveProposed tripId body w1
    = (inr {| onRoster := length (proposedRoster body);
              onWaitlist := length (proposedWaitlist body) |}, w2)
    ∧ proposedRosters w2 !! tripId = None
    ∧ ∀ r wl, approveRandomization tripId r wl w2
              = (inl NoPendingProposal, w2).
Proof.
  intros Hrun.
  destruct (randomize_inr _ _ _ _ _ _ Hrun) as (trip & Htrip & Hslots & Hpool).
  rewrite (randomize_ok _ _ _ _ _ Htrip Hslots Hpool) in Hrun.
  injection Hrun as <- <-.
  eexists. unfold approveProposed. cbv zeta. split.
  - erewrite approve_matching;
      [| apply lookup_insert_eq | apply idsMatch_refl..].
    by rewrite !length_fmap.
  - cbn [proposedRosters]. split; [apply lookup_delete_eq |].
    intros r wl. apply approve_absent. apply lookup_delete_eq.
Qed.

Lemma proposed_then_approved_witness :
  let table := [sampleRecord "d1" true "UNKNOWN";
                sampleRecord "n1" false "UNKNOWN";
                sampleRecord "d2" true "UNKNOWN"] in
  let w := sampleWorld ∅ table in
  let body := match (randomize reverse 7 "trip1" w).1 with
              | inr body => body
              | inl _ => {| proposedRoster := []; proposedWaitlist := [] |}
              end in
  let w1 := (randomize reverse 7 "trip1" w).2 in
  ∃ w2,
    approveProposed "trip1" body w1
    = (inr {| onRoster := length (proposedRoster body);
              onWaitlist := length (proposedWaitlist body) |}, w2)
    ∧ proposedRosters w2 !! "trip1" = None
    ∧ ∀ r wl, approveRandomization "trip1" r wl w2
              = (inl NoPendingProposal, w2).
Proof.
  intros table w body w1.
  apply (proposed_then_approved reverse 7 "trip1" w body w1).
  subst body w1.
  erewrite randomize_ok; [reflexivity | reflexivity | |].
  - left. vm_compute. discriminate.
  - vm_compute. discriminate.
Defined.

(** ** Validation on repetition-free ids (X4, X5) *)

Lemma idsMatch_NoDup_witness :
  idsMatch ["b"; "a"] ["a"; "b"] = true
  ↔ list_to_set ["b"; "a"] =@{gset string} list_to_set ["a"; "b"].
Proof.
  apply (idsMatch_NoDup ["b"; "a"] ["a"; "b"]);
    (eapply bool_decide_unpack; vm_compute; exact I).
Defined.

Lemma approve_live_proposal_witness :
  let w := sampleWorld (sampleProposal ["a"; "b"] ["c"] 0) [] in
  let p := {| rosterIds := ["a"; "b"]; waitlistIds := ["c"];
              timestamp := 0 |} in
  (idsMatch ["a"] (rosterIds p) = true ∧ idsMatch ["c"] (waitlistIds p) = true
   ∧ ∃ w', approveRandomization "trip1" ["a"] ["c"] w
           = (inr {| onRoster := length ["a"];
                     onWaitlist := length ["c"] |}, w'))
  ∨ (¬ (idsMatch ["a"] (rosterIds p) = true
        ∧ idsMatch ["c"] (waitlistIds p) = true)
     ∧ approveRandomization "trip1" ["a"] ["c"] w
       = (inl ProposalMismatch, w)).
Proof.
  intros w p. apply (approve_live_proposal "trip1" ["a"] ["c"] w p).
  apply lookup_singleton_eq.
Defined.

(** ** The sweep (X6) *)

Lemma sweep_fold_trace now entries w :
  ∃ removed,
    trace (foldl (sweepStep now) w entries)
    = trace w ++ (EvCacheDelete <$> removed)
    ∧ Forall (λ k, ∃ p, (k, p) ∈ entries ∧ expired now p = true) removed.
Proof.
  revert w. induction entries as [|[k p] entries IH]; intros w.
  - exists []. by rewrite app_nil_r.
  - cbn [foldl]. destruct (IH (sweepStep now w (k, p))) as (removed & -> & Hall).
    assert (Forall (λ k0, ∃ p0, (k0, p0) ∈ (k, p) :: entries
                                ∧ expired now p0 = true) removed) as Hall'.
    { eapply Forall_impl; [exact Hall |].
      intros k0 (p0 & ? & ?). exists p0. split; [by right | done]. }
    unfold sweepStep. destruct (expired now p) eqn:E.
    + exists (k :: removed). split.
      * cbn. by rewrite <- app_assoc.
      * constructor; [| done]. exists p. split; [left | done].
    + by exists removed.
Qed.

(** X6.  A sweep at time [now] keeps exactly the proposals that are not
    older than ten minutes: an entry survives if and only if
    [now - timestamp <= 600000], unchanged.  The sweep touches neither
    table, the only things it does are removals of entries that were
    over age, and sweeping again at the same time removes nothing
    more. *)
Theorem sweep_exact now w :
  let w' := cleanupExpiredProposals now w in
  (∀ tripId,
     proposedRosters w' !! tripId
     = match proposedRosters w !! tripId with
       | Some p =>
           if bool_decide (now - timestamp p ≤ 600000) then Some p else None
       | None => None
       end)
  ∧ signupsTable w' = signupsTable w
  ∧ tripsTable w' = tripsTable w
  ∧ (∃ removed,
       trace w' = trace w ++ (EvCacheDelete <$> removed)
       ∧ Forall (λ k, ∃ p, proposedRosters w !! k = Some p
                           ∧ now - timestamp p > 600000) removed)
  ∧ proposedRosters (cleanupExpiredProposals now w') = proposedRosters w'.
Proof.
  cbv zeta.
  assert (∀ w0 k,
            proposedRosters (cleanupExpiredProposals now w0) !! k
            = match proposedRosters w0 !! k with
              | Some p =>
                  if bool_decide (now - timestamp p ≤ 600000)
                  then Some p else None
              | None => None
              end) as Hlook.
  { intros w0 k. rewrite cleanup_lookup.
    destruct (proposedRosters w0 !! k) as [p|]; [| done].
    unfold expired, PROPOSAL_TTL.
    repeat case_bool_decide; (done || lia). }
  split; [apply Hlook |].
  split; [apply cleanup_tables |]. split; [apply cleanup_tables |].
  split.
  - unfold cleanupExpiredProposals.
    destruct (sweep_fold_trace now (map_to_list (proposedRosters w)) w)
      as (removed & Htr & Hall).
    exists removed. split; [done |].
    eapply Forall_impl; [exact Hall |].
    intros k (p & Hin%elem_of_map_to_list & Hexp).
    exists p. split; [done |].
    unfold expired, PROPOSAL_TTL in Hexp.
    apply bool_decide_eq_true in Hexp. lia.
  - apply map_eq. intros k. rewrite (Hlook (cleanupExpiredProposals now w)).
    rewrite (Hlook w). destruct (proposedRosters w !! k) as [p|]; [| done].
    case_bool_decide as E; [| done]. by rewrite bool_decide_eq_true_2.
Qed.

Example sweep_sample :
  let cache : gmap string ProposedRoster :=
    {[ "old" := {| rosterIds := []; waitlistIds := []; timestamp := 0 |};
       "edge" := {| rosterIds := []; waitlistIds := []; timestamp := 1 |};
       "new" := {| rosterIds := []; waitlistIds := []; timestamp := 500 |} ]} in
  let w' := cleanupExpiredProposals 600001 (sampleWorld cache []) in
  dom (proposedRosters w') = {[ "edge"; "new" ]}
  ∧ trace w' = [EvCacheDelete "old"].
Proof. split; by vm_compute. Qed.

(** ** What the promotions do to the world *)

Lemma roster_counts signups :
  rosterTotal signups = rosterDrivers signups + rosterNonDrivers signups.
Proof.
  unfold rosterTotal, rosterDrivers, rosterNonDrivers.
  rewrite <- Nat2Z.inj_add, <- length_app.
  by rewrite (driver_pools_perm (rosterOf signups)).
Qed.

Lemma promote_update tripId w0 w d b :
  signupsTable w0 = signupsTable w →
  d ∈ signupsOfTrip tripId (signupsTable w) →
  ∃ updated,
    updateSignup (id d) {| updStatus := Some (selectedStatus b) |} w0
    = (inr updated,
       withSignups
         (patchTable (id d) {| patchStatus := Some (selectedStatus b) |}
            (signupsTable w))
         (emit (EvPatch (id d) {| patchStatus := Some (selectedStatus b) |})
            w0))
    ∧ id updated = id d
    ∧ Status updated = selectedStatus b.
Proof.
  intros Hw0 Hd.
  assert (id d ∈ rawId <$> signupsTable w0) as Hin
    by (rewrite Hw0; by eapply signupsOfTrip_ids).
  destruct (recordById_is_Some _ _ Hin) as [r Hr].
  pose proof (recordById_Some _ _ _ Hr) as [_ Hrid].
  eexists. split; [| split].
  - rewrite (updateSignup_found _ _ _ r Hr), airtableUpdatesOf_selected.
    by rewrite Hw0.
  - by rewrite normalize_patched_id.
  - apply normalize_patched_status; [done | by destruct b].
Qed.

Lemma first_Some_elem {A} (l : list A) x : first l = Some x → x ∈ l.
Proof. destruct l; [done |]. intros [= ->]. left. Qed.

Lemma outcome_fail tripId w e w0 :
  proposedRosters w0 = proposedRosters w →
  tripsTable w0 = tripsTable w →
  signupsTable w0 = signupsTable w →
  promotionOutcome tripId w (inl e, w0).
Proof. by unfold promotionOutcome. Qed.

Lemma outcome_update tripId w w0 trip d :
  tripById tripId (tripsTable w) = Some trip →
  proposedRosters w0 = proposedRosters w →
  tripsTable w0 = tripsTable w →
  signupsTable w0 = signupsTable w →
  let signups := signupsOfTrip tripId (signupsTable w) in
  d ∈ signups →
  rosterTotal signups < orZero (Capacity trip) →
  (if IsDriver d
   then rosterDrivers signups < orZero (AdditionalDriversRequired trip)
   else rosterNonDrivers signups
        < orZero (Capacity trip) - orZero (AdditionalDriversRequired trip)) →
  promotionOutcome tripId w
    (updateSignup (id d)
       {| updStatus := Some (selectedStatus (IsDriver d)) |} w0).
Proof.
  intros Htrip Hc Ht Hs signups Hd Htotal Hspot.
  destruct (promote_update tripId w0 w d (IsDriver d) Hs Hd)
    as (updated & -> & Hid & Hst).
  unfold promotionOutcome. cbn.
  split; [done |]. split; [done |]. by exists trip, d.
Qed.

Lemma first_drivers (l : list Signup) d :
  first (filter (λ s, IsDriver s) l) = Some d → d ∈ l ∧ IsDriver d = true.
Proof.
  intros Hd%first_Some_elem. apply list_elem_of_filter in Hd as [Hdrv Hd].
  split; [done | by apply Is_true_true].
Qed.

Lemma first_non_drivers (l : list Signup) d :
  first (filter (λ s, negb (IsDriver s)) l) = Some d →
  d ∈ l ∧ IsDriver d = false.
Proof.
  intros Hd%first_Some_elem. apply list_elem_of_filter in Hd as [Hdrv Hd].
  split; [done | by destruct (IsDriver d)].
Qed.

Lemma waitlistOf_elem signups d : d ∈ waitlistOf signups → d ∈ signups.
Proof. by intros [_ ?]%list_elem_of_filter. Qed.

Ltac promote_finish Htrip Hcount :=
  cbv beta iota;
  repeat match goal with x := _ |- _ => subst x end;
  match goal with
  | H : first _ = Some ?d |- _ =>
      let Hin := fresh "Hin" in
      let Hdrv := fresh "Hdrv" in
      first [ apply first_drivers in H as [Hin%waitlistOf_elem Hdrv]
            | apply first_non_drivers in H as [Hin%waitlistOf_elem Hdrv] ];
      first [ apply (outcome_update _ _ _ _ d Htrip)
            | change "Selected (driver)" with (selectedStatus true);
              rewrite <- Hdrv;
              apply (outcome_update _ _ _ _ d Htrip)
            | change "Selected (nondriver)" with (selectedStatus false);
              rewrite <- Hdrv;
              apply (outcome_update _ _ _ _ d Htrip) ];
      [done | done | done | done
      | unfold rosterTotal; lia
      | rewrite Hdrv; unfold rosterTotal, rosterDrivers, rosterNonDrivers in *;
        lia ]
  end.

Lemma addFromWaitlist_outcome tripId w :
  promotionOutcome tripId w (addFromWaitlist tripId w).
Proof.
  unfold addFromWaitlist.
  destruct (tripById tripId (tripsTable w)) as [trip|] eqn:Htrip;
    [| by erewrite bind_inl by (by apply fetchTripById_missing)].
  erewrite bind_inr by (by apply fetchTripById_found).
  erewrite bind_inr by reflexivity.
  change (signupsTable (emit _ (emit _ w))) with (signupsTable w).
  cbv zeta.
  set (signups := signupsOfTrip tripId (signupsTable w)).
  pose proof (roster_counts signups) as Hcount.
  unfold rosterTotal, rosterDrivers, rosterNonDrivers in Hcount.
  destruct (Z.leb_spec (orZero (Capacity trip))
              (Z.of_nat (length (rosterOf signups)))) as [Hfull | Hroom];
    [by apply outcome_fail |].
  case_bool_decide; [by apply outcome_fail |].
  destruct (Z.ltb_spec 0 (orZero (AdditionalDriversRequired trip)
                          - Z.of_nat (length (filter (λ s, IsDriver s)
                                                (rosterOf signups)))))
    as [Hd | Hd];
    destruct (Z.ltb_spec 0 (orZero (Capacity trip)
                            - orZero (AdditionalDriversRequired trip)
                            - (Z.of_nat (length (rosterOf signups))
                               - Z.of_nat (length (filter (λ s, IsDriver s)
                                                     (rosterOf signups))))))
      as [Hn | Hn]; cbn [andb].
  - destruct (first (filter (λ s, IsDriver s) _)) as [d|] eqn:E1.
    + erewrite bind_inr by reflexivity. promote_finish Htrip Hcount.
    + destruct (first (filter (λ s, negb (IsDriver s)) _)) as [d|] eqn:E2;
        [| by apply outcome_fail].
      erewrite bind_inr by reflexivity. promote_finish Htrip Hcount.
  - destruct (first (filter (λ s, IsDriver s) _)) as [d|] eqn:E1;
      [| by apply outcome_fail].
    erewrite bind_inr by reflexivity. promote_finish Htrip Hcount.
  - destruct (first (filter (λ s, negb (IsDriver s)) _)) as [d|] eqn:E2;
      [| by apply outcome_fail].
    erewrite bind_inr by reflexivity. promote_finish Htrip Hcount.
  - erewrite bind_inr by reflexivity. by apply outcome_fail.
Qed.

Lemma addDriver_outcome tripId w :
  promotionOutcome tripId w (addDriver tripId w).
Proof.
  unfold addDriver.
  destruct (tripById tripId (tripsTable w)) as [trip|] eqn:Htrip;
    [| by erewrite bind_inl by (by apply fetchTripById_missing)].
  erewrite bind_inr by (by apply fetchTripById_found).
  erewrite bind_inr by reflexivity.
  change (signupsTable (emit _ (emit _ w))) with (signupsTable w).
  cbv zeta.
  set (signups := signupsOfTrip tripId (signupsTable w)).
  pose proof (roster_counts signups) as Hcount.
  unfold rosterTotal, rosterDrivers, rosterNonDrivers in Hcount.
  destruct (Z.leb_spec (orZero (Capacity trip))
              (Z.of_nat (length (rosterOf signups)))) as [Hfull | Hroom];
    [by apply outcome_fail |].
  destruct (Z.leb_spec (orZero (AdditionalDriversRequired trip)
                        - Z.of_nat (length (filter (λ s, IsDriver s)
                                              (rosterOf signups)))) 0)
    as [Hd | Hd]; [by apply outcome_fail |].
  destruct (first (filter (λ s, IsDriver s) _)) as [d|] eqn:E1;
    [| by apply outcome_fail].
  promote_finish Htrip Hcount.
Qed.

Lemma addNonDriver_outcome tripId w :
  promotionOutcome tripId w (addNonDriver tripId w).
Proof.
  unfold addNonDriver.
  destruct (tripById tripId (tripsTable w)) as [trip|] eqn:Htrip;
    [| by erewrite bind_inl by (by apply fetchTripById_missing)].
  erewrite bind_inr by (by apply fetchTripById_found).
  erewrite bind_inr by reflexivity.
  change (signupsTable (emit _ (emit _ w))) with (signupsTable w).
  cbv zeta.
  set (signups := signupsOfTrip tripId (signupsTable w)).
  pose proof (roster_counts signups) as Hcount.
  unfold rosterTotal, rosterDrivers, rosterNonDrivers in Hcount.
  destruct (Z.leb_spec (orZero (Capacity trip))
              (Z.of_nat (length (rosterOf signups)))) as [Hfull | Hroom];
    [by apply outcome_fail |].
  destruct (Z.leb_spec (orZero (Capacity trip)
                        - orZero (AdditionalDriversRequired trip)
                        - Z.of_nat (length (filter (λ s, negb (IsDriver s))
                                              (rosterOf signups)))) 0)
    as [Hd | Hd]; [by apply outcome_fail |].
  destruct (first (filter (λ s, negb (IsDriver s)) _)) as [d|] eqn:E1;
    [| by apply outcome_fail].
  promote_finish Htrip Hcount.
Qed.

Lemma reAddParticipant_outcome tripId participantId w :
  promotionOutcome tripId w (reAddParticipant tripId participantId w).
Proof.
  unfold reAddParticipant.
  destruct (tripById tripId (tripsTable w)) as [trip|] eqn:Htrip;
    [| by erewrite bind_inl by (by apply fetchTripById_missing)].
  erewrite bind_inr by (by apply fetchTripById_found).
  erewrite bind_inr by reflexivity.
  change (signupsTable (emit _ (emit _ w))) with (signupsTable w).
  cbv zeta.
  pose proof (roster_counts (signupsOfTrip tripId (signupsTable w))) as Hcount.
  unfold rosterTotal, rosterDrivers, rosterNonDrivers in Hcount.
  destruct (find _ _) as [d|] eqn:Hfind; [| by apply outcome_fail].
  apply find_id_Some in Hfind as [Hin <-].
  destruct (Z.leb_spec (orZero (Capacity trip))
              (Z.of_nat (length (rosterOf
                                   (signupsOfTrip tripId (signupsTable w))))))
    as [Hfull | Hroom]; [by apply outcome_fail |].
  destruct (IsDriver d) eqn:Hdrv.
  - destruct (Z.leb_spec (orZero (AdditionalDriversRequired trip)
                          - Z.of_nat
                              (length (filter (λ s, IsDriver s)
                                         (rosterOf (signupsOfTrip tripId
                                                      (signupsTable w))))))
                0) as [Hd | Hd];
      [erewrite bind_inl by reflexivity; by apply outcome_fail |].
    erewrite bind_inr by reflexivity. rewrite <- Hdrv.
    apply (outcome_update _ _ _ _ d Htrip); [done.. | |].
    + unfold rosterTotal. lia.
    + rewrite Hdrv. unfold rosterDrivers. lia.
  - destruct (Z.leb_spec
                (orZero (Capacity trip)
                 - orZero (AdditionalDriversRequired trip)
                 - (Z.of_nat (length (rosterOf (signupsOfTrip tripId
                                                  (signupsTable w))))
                    - Z.of_nat
                        (length (filter (λ s, IsDriver s)
                                   (rosterOf (signupsOfTrip tripId
                                                (signupsTable w)))))))
                0) as [Hd | Hd];
      [erewrite bind_inl by reflexivity; by apply outcome_fail |].
    erewrite bind_inr by reflexivity. rewrite <- Hdrv.
    apply (outcome_update _ _ _ _ d Htrip); [done.. | |].
    + unfold rosterTotal. lia.
    + rewrite Hdrv. unfold rosterNonDrivers. lia.
Qed.

(** ** Listing the signups of a trip (X7) *)

(** X7.  Listing the signups of a trip reads the signups once and changes
    nothing.  The three views are sub-lists of the signups, in their
    order; nobody is both on the roster view and on the dropped view; the
    driver count is the number of drivers on the roster view; and a
    record of the trip that has no status, or an empty one, is listed
    among the signups with the status "UNKNOWN" and in none of the three
    views. *)
Theorem getSignups_views tripId w :
  ∃ body,
    getSignups tripId w = (inr body, emit (EvListSignups tripId) w)
    ∧ signups body = signupsOfTrip tripId (signupsTable w)
    ∧ roster body `sublist_of` signups body
    ∧ waitlist body `sublist_of` signups body
    ∧ dropped body `sublist_of` signups body
    ∧ (∀ s, s ∈ roster body → s ∉ dropped body)
    ∧ driverCount body = length (filter (λ s, IsDriver s) (roster body))
    ∧ (driverCount body ≤ length (roster body))%nat
    ∧ ∀ r, r ∈ signupsTable w → linkedToTrip tripId r = true →
           (rawStatus r = None ∨ rawStatus r = Some "") →
           let s := normalizeSignup r in
           Status s = "UNKNOWN" ∧ s ∈ signups body
           ∧ (s ∉ roster body) ∧ (s ∉ waitlist body) ∧ (s ∉ dropped body).
Proof.
  eexists. split; [reflexivity |].
  cbn [signups roster waitlist dropped driverCount].
  change (signupsTable (emit _ w)) with (signupsTable w).
  split; [done |].
  split; [apply sublist_filter |].
  split; [apply sublist_filter |].
  split; [apply sublist_filter |].
  split.
  { intros s [Hr _]%list_elem_of_filter [Hd _]%list_elem_of_filter.
    unfold isRosterStatus, isDroppedStatus in *. cbv zeta in Hr.
    destruct (Str.includes (Str.toLowerCase (Status s)) "dropped");
      [| done].
    by rewrite andb_false_r in Hr. }
  split; [done |].
  split; [apply length_filter |].
  intros r Hr Hlinked Hstatus. cbv zeta. set (s := normalizeSignup r).
  assert (Status s = "UNKNOWN") as Hst
    by (subst s; cbn; by destruct Hstatus as [-> | ->]).
  split; [done |]. split.
  { unfold signupsOfTrip. apply list_elem_of_fmap_2.
    apply list_elem_of_filter. split; [by apply Is_true_true | done]. }
  repeat split; intros [Hc _]%list_elem_of_filter; by rewrite Hst in Hc.
Qed.

(** The waitlist view and the dropped view, on the other hand, can share a
    signup: the filters only look for substrings. *)
Example waitlist_and_dropped_overlap :
  classes "Dropped from waitlist" = (false, true, true).
Proof. reflexivity. Qed.

(** ** Counting under a change of status *)

Lemma normalize_patched body r st :
  patchStatus body = Some st → st ≠ "" →
  normalizeSignup (applyPatch body r) = withStatus st (normalizeSignup r).
Proof.
  intros Hb Hst. unfold applyPatch. rewrite Hb.
  unfold normalizeSignup, withStatus. cbn. by destruct st.
Qed.

Lemma linkedToTrip_patched tripId body r :
  linkedToTrip tripId (applyPatch body r) = linkedToTrip tripId r.
Proof. unfold applyPatch, linkedToTrip. by destruct (patchStatus body). Qed.

(** Reading the signups of a trip after a PATCH of one status gives the
    signups read before, with that status replaced. *)
Lemma signupsOfTrip_patch tripId i st table :
  st ≠ "" →
  signupsOfTrip tripId (patchTable i {| patchStatus := Some st |} table)
  = restatus i st <$> signupsOfTrip tripId table.
Proof.
  intros Hst. unfold signupsOfTrip, patchTable. cbv zeta.
  induction table as [|r table IH]; [done |].
  cbn [fmap list_fmap].
  assert (linkedToTrip tripId
            (if bool_decide (rawId r = i)
             then applyPatch {| patchStatus := Some st |} r else r)
          = linkedToTrip tripId r) as Hl
    by (case_bool_decide; [apply linkedToTrip_patched | done]).
  destruct (linkedToTrip tripId r) eqn:E.
  - rewrite !filter_cons_True by (by rewrite ?Hl, ?E).
    cbn [fmap list_fmap]. f_equal; [| apply IH].
    unfold restatus. cbn [id normalizeSignup].
    case_bool_decide; [by apply normalize_patched | done].
  - rewrite !filter_cons_False by (rewrite ?Hl, ?E; cbn; tauto). apply IH.
Qed.

Lemma signupsOfTrip_NoDup tripId table :
  NoDup (rawId <$> table) → NoDup (id <$> signupsOfTrip tripId table).
Proof.
  intros Hnd. unfold signupsOfTrip. cbv zeta.
  rewrite <- list_fmap_compose.
  apply (sublist_NoDup _ (rawId <$> table)); [exact Hnd |].
  apply (fmap_sublist rawId), sublist_filter.
Qed.

Lemma restatus_absent i st (l : list Signup) :
  i ∉ id <$> l → restatus i st <$> l = l.
Proof.
  induction l as [|x l IH]; [done |]. cbn.
  intros [Hx Hl]%not_elem_of_cons. rewrite IH by done. f_equal.
  unfold restatus. by rewrite bool_decide_eq_false_2.
Qed.

Lemma length_filter_cons (Q : Signup → bool) x l :
  length (filter (λ s, Q s) (x :: l))
  = ((if Q x then 1 else 0) + length (filter (λ s, Q s) l))%nat.
Proof.
  destruct (Q x) eqn:E.
  - by rewrite filter_cons_True by (by rewrite E).
  - by rewrite filter_cons_False by (rewrite E; cbn; tauto).
Qed.

(** With distinct ids a change of one status moves every count by what
    that one signup contributes. *)
Lemma count_restatus (Q : Signup → bool) i st l p :
  NoDup (id <$> l) → p ∈ l → id p = i →
  (length (filter (λ s, Q s) (restatus i st <$> l)) + (if Q p then 1 else 0)
   = length (filter (λ s, Q s) l)
     + (if Q (withStatus st p) then 1 else 0))%nat.
Proof.
  induction l as [|x l IH]; intros Hnd Hp Hid;
    [by apply elem_of_nil in Hp |].
  cbn [fmap list_fmap] in *. apply NoDup_cons in Hnd as [Hx Hnd].
  rewrite !length_filter_cons.
  apply elem_of_cons in Hp as [-> | Hp].
  - rewrite Hid in Hx. rewrite restatus_absent by done.
    unfold restatus. rewrite bool_decide_eq_true_2 by done. lia.
  - assert (id x ≠ i) as Hne.
    { intros Heq. apply Hx. rewrite Heq, <- Hid.
      by apply list_elem_of_fmap_2. }
    specialize (IH Hnd Hp Hid).
    unfold restatus at 1. rewrite bool_decide_eq_false_2 by done. lia.
Qed.

(** Without any assumption on the ids: a status that takes its bearers out
    of the count cannot raise it. *)
Lemma count_restatus_out (Q : Signup → bool) i st (l : list Signup) :
  (∀ x, Q (withStatus st x) = false) →
  (length (filter (λ s, Q s) (restatus i st <$> l))
   ≤ length (filter (λ s, Q s) l))%nat.
Proof.
  intros Hout. induction l as [|x l IH]; [done |].
  cbn [fmap list_fmap]. rewrite !length_filter_cons.
  unfold restatus at 1. case_bool_decide.
  - rewrite Hout. lia.
  - lia.
Qed.

(** ** What no route ever does (X8, X9, X10) *)

Lemma bind_mret_run {A B} (m : M A) (f : A → B) w :
  (m ≫= λ a, mret (f a)) w
  = match m w with
    | (inl e, w') => (inl e, w')
    | (inr a, w') => (inr (f a), w')
    end.
Proof. munfold. by destruct (m w) as [[e | a] w']. Qed.

Lemma sameButStatus_refl r : sameButStatus r r.
Proof. by repeat split. Qed.

Lemma sameButStatus_trans r1 r2 r3 :
  sameButStatus r1 r2 → sameButStatus r2 r3 → sameButStatus r1 r3.
Proof.
  unfold sameButStatus. intros (?&?&?&?&?&?) (?&?&?&?&?&?).
  repeat split; congruence.
Qed.

Lemma frame_refl table : Forall2 sameButStatus table table.
Proof. apply Forall_Forall2_diag, Forall_true, sameButStatus_refl. Qed.

Lemma patchTable_frame i body table :
  Forall2 sameButStatus table (patchTable i body table).
Proof.
  unfold patchTable. apply Forall2_fmap_r, Forall_Forall2_diag, Forall_true.
  intros r. unfold compose. case_bool_decide; [| apply sameButStatus_refl].
  unfold applyPatch. destruct (patchStatus body); by repeat split.
Qed.

Lemma tableAfter_frame tasks table :
  Forall2 sameButStatus table (tableAfter tasks table).
Proof.
  unfold tableAfter. revert table.
  induction tasks as [|t tasks IH]; intros table; [apply frame_refl |].
  cbn [foldl].
  eapply Forall2_trans;
    [apply sameButStatus_trans | apply patchTable_frame | apply IH].
Qed.

Lemma randomize_world shuffle now tripId w :
  signupsTable (randomize shuffle now tripId w).2 = signupsTable w
  ∧ tripsTable (randomize shuffle now tripId w).2 = tripsTable w
  ∧ ∀ e, (randomize shuffle now tripId w).1 = inl e →
         proposedRosters (randomize shuffle now tripId w).2
         = proposedRosters w.
Proof.
  unfold randomize.
  destruct (tripById tripId (tripsTable w)) as [trip|] eqn:Htrip;
    [| by erewrite bind_inl by (by apply fetchTripById_missing)].
  erewrite bind_inr by (by apply fetchTripById_found).
  destruct (_ && _); [done |].
  erewrite bind_inr by reflexivity.
  case_bool_decide; [done |]. by munfold.
Qed.

Lemma approve_world tripId r wl w :
  let res := approveRandomization tripId r wl w in
  tripsTable res.2 = tripsTable w
  ∧ Forall2 sameButStatus (signupsTable w) (signupsTable res.2)
  ∧ ∀ e, res.1 = inl e → res.2 = w.
Proof.
  cbv zeta.
  destruct (proposedRosters w !! tripId) as [p|] eqn:Hp.
  - destruct (idsMatch r (rosterIds p) && idsMatch wl (waitlistIds p)) eqn:E.
    + apply andb_prop in E as [E1 E2].
      rewrite (approve_matching _ _ _ _ p Hp E1 E2). cbn.
      split; [done |]. split; [apply tableAfter_frame | done].
    + rewrite (approve_mismatch _ _ _ _ p Hp E). cbn.
      split; [done |]. split; [apply frame_refl | done].
  - rewrite (approve_absent _ _ _ _ Hp). cbn.
    split; [done |]. split; [apply frame_refl | done].
Qed.

Lemma drop_world today participantId w :
  let res := dropParticipant today participantId w in
  proposedRosters res.2 = proposedRosters w
  ∧ tripsTable res.2 = tripsTable w
  ∧ Forall2 sameButStatus (signupsTable w) (signupsTable res.2)
  ∧ ∀ e, res.1 = inl e → signupsTable res.2 = signupsTable w.
Proof.
  cbv zeta. unfold dropParticipant. cbv zeta.
  destruct (recordById participantId (signupsTable w)) as [r|] eqn:Hr.
  - erewrite bind_inr by (by apply updateSignup_found). munfold. cbn.
    split; [done |]. split; [done |]. split; [apply patchTable_frame | done].
  - erewrite bind_inl by (by apply updateSignup_missing). cbn.
    split; [done |]. split; [done |]. split; [apply frame_refl | done].
Qed.

Lemma promotion_world tripId w res :
  promotionOutcome tripId w res →
  proposedRosters res.2 = proposedRosters w
  ∧ tripsTable res.2 = tripsTable w
  ∧ Forall2 sameButStatus (signupsTable w) (signupsTable res.2)
  ∧ ∀ e, res.1 = inl e → signupsTable res.2 = signupsTable w.
Proof.
  unfold promotionOutcome. intros (Hc & Ht & Hres).
  split; [done |]. split; [done |].
  destruct res.1 as [e | updated].
  - split; [rewrite Hres; apply frame_refl | done].
  - destruct Hres as (trip & d & _ & _ & _ & _ & -> & _).
    split; [apply patchTable_frame | done].
Qed.

(** What every route leaves alone.  The four facts are proved together,
    route by route. *)
Lemma route_world req w :
  let res := route req w in
  tripsTable res.2 = tripsTable w
  ∧ Forall2 sameButStatus (signupsTable w) (signupsTable res.2)
  ∧ (touchesCache req = false → proposedRosters res.2 = proposedRosters w)
  ∧ ∀ e, res.1 = inl e → e ≠ UpstreamFailure →
         proposedRosters res.2 = proposedRosters w
         ∧ signupsTable res.2 = signupsTable w.
Proof.
  cbv zeta. destruct req; cbn [route touchesCache]; rewrite bind_mret_run.
  - unfold fetchTripById. cbv zeta.
    destruct (tripById _ _); cbn;
      (split; [done |]); (split; [apply frame_refl |]); (split; [done |]);
      by intros e [= <-].
  - cbn. split; [done |]. split; [apply frame_refl | done].
  - destruct (randomize_world shuffle now tripId w) as (Hs & Ht & Hc).
    destruct (randomize shuffle now tripId w) as [[e | body] w'];
      cbn in *; (split; [done |]);
      (split; [rewrite Hs; apply frame_refl |]); (split; [done |]).
    + intros e' [= <-] _. split; [by apply (Hc e) | done].
    + done.
  - destruct (approve_world tripId reqRosterIds reqWaitlistIds w)
      as (Ht & Hs & He).
    destruct (approveRandomization _ _ _ w) as [[e | body] w'];
      cbn in *; (split; [done |]); (split; [done |]); (split; [done |]).
    + intros e' [= <-] _. by rewrite (He e eq_refl).
    + done.
  - destruct (promotion_world _ _ _ (addFromWaitlist_outcome tripId w))
      as (Hc & Ht & Hs & He).
    destruct (addFromWaitlist tripId w) as [[e | body] w'];
      cbn in *; (split; [done |]); (split; [done |]); (split; [done |]).
    + intros e' [= <-] _. split; [done | by apply (He e)].
    + done.
  - destruct (promotion_world _ _ _ (addDriver_outcome tripId w))
      as (Hc & Ht & Hs & He).
    destruct (addDriver tripId w) as [[e | body] w'];
      cbn in *; (split; [done |]); (split; [done |]); (split; [done |]).
    + intros e' [= <-] _. split; [done | by apply (He e)].
    + done.
  - destruct (promotion_world _ _ _ (addNonDriver_outcome tripId w))
      as (Hc & Ht & Hs & He).
    destruct (addNonDriver tripId w) as [[e | body] w'];
      cbn in *; (split; [done |]); (split; [done |]); (split; [done |]).
    + intros e' [= <-] _. split; [done | by apply (He e)].
    + done.
  - destruct (promotion_world _ _ _
                (reAddParticipant_outcome tripId participantId w))
      as (Hc & Ht & Hs & He).
    destruct (reAddParticipant tripId participantId w) as [[e | body] w'];
      cbn in *; (split; [done |]); (split; [done |]); (split; [done |]).
    + intros e' [= <-] _. split; [done | by apply (He e)].
    + done.
  - destruct (drop_world today participantId w) as (Hc & Ht & Hs & He).
    destruct (dropParticipant today participantId w) as [[e | body] w'];
      cbn in *; (split; [done |]); (split; [done |]); (split; [done |]).
    + intros e' [= <-] _. split; [done | by apply (He e)].
    + done.
Qed.

Lemma frame_signups tripId table table' :
  Forall2 sameButStatus table table' →
  Forall2 (λ s s', s' = withStatus (Status s') s)
          (signupsOfTrip tripId table) (signupsOfTrip tripId table').
Proof.
  unfold signupsOfTrip. cbv zeta.
  induction 1 as [|r r' table table' Hr _ IH]; [constructor |].
  destruct Hr as (Hid & Hname & Hlink & Hcar & Hmail & Hphone).
  assert (linkedToTrip tripId r' = linkedToTrip tripId r) as Hl
    by (unfold linkedToTrip; by rewrite Hlink).
  destruct (linkedToTrip tripId r) eqn:E.
  - rewrite !filter_cons_True by (by rewrite ?Hl, ?E).
    cbn [fmap list_fmap]. constructor; [| exact IH].
    unfold normalizeSignup, withStatus. cbn.
    by rewrite Hid, Hname, Hlink, Hcar, Hmail, Hphone.
  - by rewrite !filter_cons_False by (rewrite ?Hl, ?E; cbn; tauto).
Qed.

(** X8.  No route creates or deletes a record of the signups table or
    changes anything in a record but its status, and no route changes a
    trip.  So for every trip the signups read after a request are the
    signups read before it, one for one and in the same order, each with
    its id, name, driver flag, e-mail and phone as they were. *)
Theorem route_changes_statuses_only req w :
  let w' := (route req w).2 in
  tripsTable w' = tripsTable w
  ∧ Forall2 sameButStatus (signupsTable w) (signupsTable w')
  ∧ ∀ tripId,
      Forall2 (λ s s', s' = withStatus (Status s') s)
              (signupsOfTrip tripId (signupsTable w))
              (signupsOfTrip tripId (signupsTable w')).
Proof.
  cbv zeta. destruct (route_world req w) as (Ht & Hs & _).
  split; [done |]. split; [done |].
  intros tripId. by apply frame_signups.
Qed.

(** X9.  Only randomize and approve touch the pending proposals: listing,
    the three promotions from the waitlist, re-adding and dropping leave
    the cache exactly as it was, whatever their outcome. *)
Theorem route_cache_untouched req w :
  touchesCache req = false →
  proposedRosters (route req w).2 = proposedRosters w.
Proof. intros Hreq. by apply (route_world req w). Qed.

Lemma route_cache_untouched_witness :
  let w := sampleWorld (sampleProposal ["a"] [] 0)
             [sampleRecord "a" true "Selected (driver)"] in
  proposedRosters (route (PostDropParticipant (mkDate 2025 3 9) "a") w).2
  = proposedRosters w.
Proof.
  intros w.
  apply (route_cache_untouched (PostDropParticipant (mkDate 2025 3 9) "a") w).
  reflexivity.
Defined.

(** X10.  A request that is turned down — any error answer other than a
    failure of the store — has had no effect: the pending proposals and
    the signups table are as they were.  In particular a refused approval
    keeps the proposal, and a refused promotion has written nothing. *)
Theorem refused_request_changes_nothing req w e :
  (route req w).1 = inl e →
  e ≠ UpstreamFailure →
  proposedRosters (route req w).2 = proposedRosters w
  ∧ signupsTable (route req w).2 = signupsTable w.
Proof.
  intros He Hne. destruct (route_world req w) as (_ & _ & _ & Hq).
  by apply (Hq e).
Qed.

Lemma refused_request_changes_nothing_witness :
  let w := sampleWorld (sampleProposal ["a"; "b"] [] 0)
             [sampleRecord "a" true "UNKNOWN";
              sampleRecord "b" true "UNKNOWN"] in
  let req := PostApproveRandomization "trip1" ["a"] [] in
  proposedRosters (route req w).2 = proposedRosters w
  ∧ signupsTable (route req w).2 = signupsTable w.
Proof.
  intros w req.
  apply (refused_request_changes_nothing req w ProposalMismatch).
  - subst req. cbn [route]. rewrite bind_mret_run.
    erewrite approve_mismatch; [reflexivity | apply lookup_singleton_eq |].
    vm_compute. reflexivity.
  - discriminate.
Defined.

(** ** Promotions keep the roster within its capacities (X11) *)

Lemma filter_roster_kind (K : Signup → bool) (l : list Signup) :
  filter (λ s, K s) (rosterOf l)
  = filter (λ s, isRosterStatus (Status s) && K s) l.
Proof.
  unfold rosterOf. induction l as [|x l IH]; [done |].
  destruct (isRosterStatus (Status x)) eqn:E.
  - rewrite (filter_cons_True (λ s, isRosterStatus (Status s)))
      by (by rewrite E).
    destruct (K x) eqn:EK.
    + rewrite !filter_cons_True by (by rewrite ?E, ?EK). by rewrite IH.
    + rewrite !filter_cons_False
        by (rewrite ?E, ?EK; cbn; tauto). by rewrite IH.
  - rewrite !filter_cons_False by (rewrite ?E; cbn; tauto). by rewrite IH.
Qed.

Lemma isRosterStatus_selected b : isRosterStatus (selectedStatus b) = true.
Proof. by destruct b. Qed.

Lemma selectedStatus_nonempty b : selectedStatus b ≠ "".
Proof. by destruct b. Qed.

Lemma promotion_capacity tripId w res updated :
  promotionOutcome tripId w res →
  res.1 = inr updated →
  NoDup (rawId <$> signupsTable w) →
  ∃ trip d,
    let signups := signupsOfTrip tripId (signupsTable w) in
    let signups' := signupsOfTrip tripId (signupsTable res.2) in
    tripById tripId (tripsTable w) = Some trip
    ∧ d ∈ signups
    ∧ id updated = id d
    ∧ signups' = restatus (id d) (selectedStatus (IsDriver d)) <$> signups
    ∧ rosterTotal signups' ≤ orZero (Capacity trip)
    ∧ rosterDrivers signups'
      ≤ Z.max (rosterDrivers signups)
              (orZero (AdditionalDriversRequired trip))
    ∧ rosterNonDrivers signups'
      ≤ Z.max (rosterNonDrivers signups)
              (orZero (Capacity trip)
               - orZero (AdditionalDriversRequired trip)).
Proof.
  unfold promotionOutcome. intros (_ & _ & Hres) Hupd Hnd.
  rewrite Hupd in Hres.
  destruct Hres as (trip & d & Htrip & Hd & Hid & _ & Htable & Htotal & Hspot).
  exists trip, d. cbv zeta.
  split; [done |]. split; [done |]. split; [done |].
  rewrite Htable, signupsOfTrip_patch by apply selectedStatus_nonempty.
  split; [done |].
  set (signups := signupsOfTrip tripId (signupsTable w)) in *.
  set (st := selectedStatus (IsDriver d)).
  pose proof (signupsOfTrip_NoDup tripId _ Hnd) as Hnd'. fold signups in Hnd'.
  pose proof (count_restatus (λ s, isRosterStatus (Status s))
                (id d) st signups d Hnd' Hd eq_refl) as Ht.
  pose proof (count_restatus
                (λ s, isRosterStatus (Status s) && IsDriver s)
                (id d) st signups d Hnd' Hd eq_refl) as Hdr.
  pose proof (count_restatus
                (λ s, isRosterStatus (Status s) && negb (IsDriver s))
                (id d) st signups d Hnd' Hd eq_refl) as Hnon.
  cbn [withStatus Status IsDriver] in Ht, Hdr, Hnon.
  unfold st in Ht, Hdr, Hnon. rewrite isRosterStatus_selected in Ht, Hdr, Hnon.
  cbn [andb] in Hdr, Hnon.
  unfold rosterTotal, rosterDrivers, rosterNonDrivers in *.
  rewrite !filter_roster_kind in *. unfold rosterOf in *. subst st.
  destruct (IsDriver d); destruct (isRosterStatus (Status d));
    cbn [andb negb] in *; lia.
Qed.

(** X11.  When the record ids of the table are distinct, a successful
    promotion — generic, driver-only, non-driver-only or a re-add — moves
    exactly one signup [d] of the trip to its "Selected" status and leaves
    the roster within its limits: the roster is no larger than the
    capacity, the number of drivers on it did not grow or is within the
    driver slots, and the number of non-drivers on it did not grow or is
    within the capacity less the driver slots. *)
Theorem promotion_respects_capacity req tripId w resp :
  isPromotion req = Some tripId →
  NoDup (rawId <$> signupsTable w) →
  (route req w).1 = inr resp →
  ∃ trip d updated,
    let signups := signupsOfTrip tripId (signupsTable w) in
    let signups' := signupsOfTrip tripId (signupsTable (route req w).2) in
    tripById tripId (tripsTable w) = Some trip
    ∧ resp = AddedBody updated
    ∧ d ∈ signups
    ∧ id updated = id d
    ∧ signups' = restatus (id d) (selectedStatus (IsDriver d)) <$> signups
    ∧ rosterTotal signups' ≤ orZero (Capacity trip)
    ∧ rosterDrivers signups'
      ≤ Z.max (rosterDrivers signups)
              (orZero (AdditionalDriversRequired trip))
    ∧ rosterNonDrivers signups'
      ≤ Z.max (rosterNonDrivers signups)
              (orZero (Capacity trip)
               - orZero (AdditionalDriversRequired trip)).
Proof.
  intros Hreq Hnd Hres.
  assert (∀ (h : M Signup),
            promotionOutcome tripId w (h w) →
            ((h ≫= λ added, mret (AddedBody added)) w).1 = inr resp →
            ∃ updated, resp = AddedBody updated
                       ∧ (h w).1 = inr updated
                       ∧ ((h ≫= λ added, mret (AddedBody added)) w).2
                         = (h w).2) as Hwrap.
  { intros h _. rewrite bind_mret_run.
    destruct (h w) as [[e | updated] w']; [done |].
    cbn. intros [= <-]. by exists updated. }
  assert (∀ (h : M Signup),
            promotionOutcome tripId w (h w) →
            route req w = (h ≫= λ added, mret (AddedBody added)) w →
            ∃ trip d updated,
              let signups := signupsOfTrip tripId (signupsTable w) in
              let signups' :=
                signupsOfTrip tripId (signupsTable (route req w).2) in
              tripById tripId (tripsTable w) = Some trip
              ∧ resp = AddedBody updated
              ∧ d ∈ signups
              ∧ id updated = id d
              ∧ signups'
                = restatus (id d) (selectedStatus (IsDriver d)) <$> signups
              ∧ rosterTotal signups' ≤ orZero (Capacity trip)
              ∧ rosterDrivers signups'
                ≤ Z.max (rosterDrivers signups)
                        (orZero (AdditionalDriversRequired trip))
              ∧ rosterNonDrivers signups'
                ≤ Z.max (rosterNonDrivers signups)
                        (orZero (Capacity trip)
                         - orZero (AdditionalDriversRequired trip))) as Hall.
  { intros h Hout Hroute. rewrite Hroute in Hres |- *.
    destruct (Hwrap h Hout Hres) as (updated & -> & Hupd & ->).
    destruct (promotion_capacity tripId w (h w) updated Hout Hupd Hnd)
      as (trip & d & Ht & Hd & Hid & Hs' & H1 & H2 & H3).
    by exists trip, d, updated. }
  destruct req; try discriminate; injection Hreq as ->.
  - by apply (Hall _ (addFromWaitlist_outcome tripId w)).
  - by apply (Hall _ (addDriver_outcome tripId w)).
  - by apply (Hall _ (addNonDriver_outcome tripId w)).
  - by apply (Hall _ (reAddParticipant_outcome tripId participantId w)).
Qed.

Lemma promotion_respects_capacity_witness :
  let table := [sampleRecord "r1" false "Selected (nondriver)";
                sampleRecord "n1" false "Waitlist (nondriver) - 1";
                sampleRecord "d1" true "Waitlist (driver) - 1"] in
  let w := sampleWorld ∅ table in
  let req := PostAddFromWaitlist "trip1" in
  let resp := AddedBody (normalizeSignup
                           (sampleRecord "d1" true "Selected (driver)")) in
  ∃ trip d updated,
    let signups := signupsOfTrip "trip1" (signupsTable w) in
    let signups' := signupsOfTrip "trip1" (signupsTable (route req w).2) in
    tripById "trip1" (tripsTable w) = Some trip
    ∧ resp = AddedBody updated
    ∧ d ∈ signups
    ∧ id updated = id d
    ∧ signups' = restatus (id d) (selectedStatus (IsDriver d)) <$> signups
    ∧ rosterTotal signups' ≤ orZero (Capacity trip)
    ∧ rosterDrivers signups'
      ≤ Z.max (rosterDrivers signups)
              (orZero (AdditionalDriversRequired trip))
    ∧ rosterNonDrivers signups'
      ≤ Z.max (rosterNonDrivers signups)
              (orZero (Capacity trip)
               - orZero (AdditionalDriversRequired trip)).
Proof.
  intros table w req resp.
  apply (promotion_respects_capacity req "trip1" w resp).
  - reflexivity.
  - eapply bool_decide_unpack. vm_compute. exact I.
  - vm_compute. reflexivity.
Defined.

(** ** Dropping frees a slot and never fills one (X12) *)

Lemma classes_dropped today :
  classes (droppedStatus today) = (false, false, true).
Proof.
  unfold droppedStatus.
  by rewrite classes_app_stamp by apply StrFacts.formatMMddyyyy_stamp.
Qed.

Lemma droppedStatus_nonempty today : droppedStatus today ≠ "".
Proof. unfold droppedStatus. simpl. discriminate. Qed.

Lemma applyPatch_twice body body' r st :
  patchStatus body = Some st →
  applyPatch body (applyPatch body' r) = applyPatch body r.
Proof.
  intros Hb. unfold applyPatch. rewrite Hb.
  by destruct (patchStatus body').
Qed.

(** A later PATCH of the same record overrides an earlier one. *)
Lemma patchTable_twice i body body' table st :
  patchStatus body = Some st →
  patchTable i body (patchTable i body' table) = patchTable i body table.
Proof.
  intros Hb. unfold patchTable. rewrite <- list_fmap_compose.
  apply list_fmap_ext. intros _ r _. unfold compose.
  destruct (decide (rawId r = i)) as [E | E].
  - rewrite (bool_decide_eq_true_2 _ E).
    rewrite bool_decide_eq_true_2 by (by rewrite applyPatch_rawId).
    by apply (applyPatch_twice _ _ _ st).
  - by rewrite !(bool_decide_eq_false_2 _ E).
Qed.

Lemma drop_table today participantId w :
  participantId ∈ rawId <$> signupsTable w →
  dropParticipant today participantId w
  = (inr (),
     withSignups
       (patchTable participantId
          {| patchStatus := Some (droppedStatus today) |} (signupsTable w))
       (emit (EvPatch participantId
                {| patchStatus := Some (droppedStatus today) |}) w)).
Proof.
  intros Hin. destruct (recordById_is_Some _ _ Hin) as [r Hr].
  unfold dropParticipant. cbv zeta. fold (droppedStatus today).
  erewrite bind_inr by (by apply updateSignup_found).
  by rewrite airtableUpdatesOf_dropped.
Qed.

(** X12.  After a participant is dropped, for every trip: the signups
    are those read before with the status of that id replaced by the
    date-stamped "Dropped- " marker; each of them with that id is on the
    dropped view and on neither the roster nor the waitlist view; the
    roster, its drivers and its non-drivers are no more than before — a
    drop never fills a slot.  Dropping the same id again on the same day
    changes nothing further. *)
Theorem drop_frees_never_fills today participantId w :
  participantId ∈ rawId <$> signupsTable w →
  let w' := (dropParticipant today participantId w).2 in
  (∀ tripId,
     let signups := signupsOfTrip tripId (signupsTable w) in
     let signups' := signupsOfTrip tripId (signupsTable w') in
     signups' = restatus participantId (droppedStatus today) <$> signups
     ∧ (∀ s, s ∈ signups' → id s = participantId →
             s ∈ droppedOf signups'
             ∧ (s ∉ rosterOf signups') ∧ (s ∉ waitlistOf signups'))
     ∧ rosterTotal signups' ≤ rosterTotal signups
     ∧ rosterDrivers signups' ≤ rosterDrivers signups
     ∧ rosterNonDrivers signups' ≤ rosterNonDrivers signups)
  ∧ signupsTable (dropParticipant today participantId w').2
    = signupsTable w'.
Proof.
  intros Hin. cbv zeta. rewrite (drop_table _ _ _ Hin).
  cbn [snd withSignups signupsTable]. split.
  - intros tripId.
    rewrite signupsOfTrip_patch by apply droppedStatus_nonempty.
    set (signups := signupsOfTrip tripId (signupsTable w)).
    pose proof (classes_dropped today) as Hcl. unfold classes in Hcl.
    assert (isRosterStatus (droppedStatus today) = false) as Hr
      by congruence.
    assert (isWaitlistStatus (droppedStatus today) = false) as Hw
      by congruence.
    assert (isDroppedStatus (droppedStatus today) = true) as Hd
      by congruence.
    clear Hcl.
    split; [done |]. split.
    + intros s Hs Hid.
      assert (Status s = droppedStatus today) as Hst.
      { apply list_elem_of_fmap in Hs as (s0 & -> & _).
        unfold restatus in *. case_bool_decide as E; [done |].
        by destruct E. }
      split; [apply list_elem_of_filter; by rewrite Hst, Hd |].
      split; intros [Hc _]%list_elem_of_filter;
        rewrite Hst in Hc; by rewrite ?Hr, ?Hw in Hc.
    + unfold rosterTotal, rosterDrivers, rosterNonDrivers.
      rewrite !filter_roster_kind. unfold rosterOf.
      repeat split; apply inj_le, count_restatus_out; intros x; cbn;
        by rewrite Hr.
  - rewrite drop_table
      by (cbn [withSignups signupsTable]; by rewrite patchTable_ids).
    cbn [snd withSignups signupsTable emit].
    by apply (patchTable_twice _ _ _ _ (droppedStatus today)).
Qed.

Lemma drop_frees_never_fills_witness :
  let table := [sampleRecord "a" true "Selected (driver)";
                sampleRecord "b" false "Waitlist (nondriver) - 1"] in
  let w := sampleWorld ∅ table in
  let today := mkDate 2025 3 9 in
  let w' := (dropParticipant today "a" w).2 in
  (∀ tripId,
     let signups := signupsOfTrip tripId (signupsTable w) in
     let signups' := signupsOfTrip tripId (signupsTable w') in
     signups' = restatus "a" (droppedStatus today) <$> signups
     ∧ (∀ s, s ∈ signups' → id s = "a" →
             s ∈ droppedOf signups'
             ∧ (s ∉ rosterOf signups') ∧ (s ∉ waitlistOf signups'))
     ∧ rosterTotal signups' ≤ rosterTotal signups
     ∧ rosterDrivers signups' ≤ rosterDrivers signups
     ∧ rosterNonDrivers signups' ≤ rosterNonDrivers signups)
  ∧ signupsTable (dropParticipant today "a" w').2 = signupsTable w'.
Proof.
  intros table w today.
  apply (drop_frees_never_fills today "a" w).
  cbn. apply elem_of_cons. by left.
Defined.

(** ** A dropped roster member can be taken back (X13) *)

Lemma restatus_ids i st (l : list Signup) :
  id <$> (restatus i st <$> l) = id <$> l.
Proof.
  rewrite <- list_fmap_compose. apply list_fmap_ext. intros _ s _.
  unfold compose, restatus. by case_bool_decide.
Qed.

Lemma find_id_NoDup (l : list Signup) p :
  NoDup (id <$> l) → p ∈ l →
  find (λ s, bool_decide (id s = id p)) l = Some p.
Proof.
  induction l as [|x l IH]; intros Hnd Hp; [by apply elem_of_nil in Hp |].
  cbn [fmap list_fmap] in Hnd. apply NoDup_cons in Hnd as [Hx Hnd].
  cbn [find]. apply elem_of_cons in Hp as [-> | Hp].
  - by rewrite bool_decide_eq_true_2.
  - rewrite bool_decide_eq_false_2; [by apply IH |].
    intros Heq. apply Hx. rewrite Heq. by apply list_elem_of_fmap_2.
Qed.

Lemma reAdd_success tripId participantId w trip p :
  tripById tripId (tripsTable w) = Some trip →
  let signups := signupsOfTrip tripId (signupsTable w) in
  find (λ s, bool_decide (id s = participantId)) signups = Some p →
  rosterTotal signups < orZero (Capacity trip) →
  (if IsDriver p
   then rosterDrivers signups < orZero (AdditionalDriversRequired trip)
   else rosterNonDrivers signups
        < orZero (Capacity trip) - orZero (AdditionalDriversRequired trip)) →
  ∃ updated w',
    reAddParticipant tripId participantId w = (inr updated, w')
    ∧ Status updated = selectedStatus (IsDriver p)
    ∧ signupsTable w'
      = patchTable participantId
          {| patchStatus := Some (selectedStatus (IsDriver p)) |}
          (signupsTable w).
Proof.
  intros Htrip signups Hfind Htotal Hspot.
  pose proof (reAddParticipant_outcome tripId participantId w) as Hout.
  pose proof (roster_counts signups) as Hcount.
  unfold reAddParticipant in *.
  erewrite bind_inr in Hout |- * by (by apply fetchTripById_found).
  erewrite bind_inr in Hout |- * by reflexivity.
  change (signupsTable (emit _ (emit _ w))) with (signupsTable w) in *.
  fold signups in Hout |- *. rewrite Hfind in Hout |- *.
  unfold rosterTotal, rosterDrivers, rosterNonDrivers in *.
  cbv zeta in Hout |- *.
  replace (orZero (Capacity trip) <=? _) with false in Hout |- *
    by (symmetry; apply Z.leb_gt; lia).
  match type of Hout with
  | context [(?check ≫= _) _] =>
      assert (check = mret ()) as Hcheck
        by (destruct (IsDriver p);
            by replace (_ <=? 0) with false
              by (symmetry; apply Z.leb_gt; lia))
  end.
  rewrite Hcheck in Hout |- *.
  erewrite bind_inr in Hout |- * by reflexivity.
  apply find_id_Some in Hfind as [Hin Hid].
  destruct (promote_update tripId
              (emit (EvListSignups tripId) (emit (EvGetTrip tripId) w))
              w p (IsDriver p) eq_refl Hin) as (updated & Hupd & _ & Hst).
  rewrite Hid in Hupd. rewrite Hupd. by eexists _, _.
Qed.

(** X13.  Soft delete is reversible.  With distinct record ids, take a
    signup [p] of the trip that is on the roster, with the roster within
    its total capacity and within the sub-capacity of [p]'s kind.  After
    [p] is dropped, re-adding [p] succeeds: it gives [p] the "Selected"
    status of its driver flag, every other signup of the trip is as it
    was before the drop, and the roster has the size it had. *)
Theorem dropped_can_be_readded today tripId w trip p :
  NoDup (rawId <$> signupsTable w) →
  tripById tripId (tripsTable w) = Some trip →
  let signups := signupsOfTrip tripId (signupsTable w) in
  p ∈ signups →
  isRosterStatus (Status p) = true →
  rosterTotal signups ≤ orZero (Capacity trip) →
  (if IsDriver p
   then rosterDrivers signups ≤ orZero (AdditionalDriversRequired trip)
   else rosterNonDrivers signups
        ≤ orZero (Capacity trip) - orZero (AdditionalDriversRequired trip)) →
  let w1 := (dropParticipant today (id p) w).2 in
  ∃ updated w2,
    reAddParticipant tripId (id p) w1 = (inr updated, w2)
    ∧ Status updated = selectedStatus (IsDriver p)
    ∧ signupsOfTrip tripId (signupsTable w2)
      = restatus (id p) (selectedStatus (IsDriver p)) <$> signups
    ∧ rosterTotal (signupsOfTrip tripId (signupsTable w2))
      = rosterTotal signups.
Proof.
  intros Hnd Htrip signups Hp Hroster Htotal Hspot. cbv zeta.
  assert (id p ∈ rawId <$> signupsTable w) as Hin
    by (by eapply signupsOfTrip_ids).
  rewrite (drop_table _ _ _ Hin). cbn [snd].
  set (w1 := withSignups _ _).
  pose proof (signupsOfTrip_NoDup tripId _ Hnd) as Hnd'. fold signups in Hnd'.
  pose proof (classes_dropped today) as Hcl. unfold classes in Hcl.
  assert (isRosterStatus (droppedStatus today) = false) as Hdr by congruence.
  clear Hcl.
  assert (signupsOfTrip tripId (signupsTable w1)
          = restatus (id p) (droppedStatus today) <$> signups) as Hs1.
  { unfold w1. cbn [withSignups signupsTable].
    by rewrite signupsOfTrip_patch by apply droppedStatus_nonempty. }
  pose proof (count_restatus (λ s, isRosterStatus (Status s))
                (id p) (droppedStatus today) signups p Hnd' Hp eq_refl) as Ct.
  pose proof (count_restatus
                (λ s, isRosterStatus (Status s) && IsDriver s)
                (id p) (droppedStatus today) signups p Hnd' Hp eq_refl) as Cd.
  pose proof (count_restatus
                (λ s, isRosterStatus (Status s) && negb (IsDriver s))
                (id p) (droppedStatus today) signups p Hnd' Hp eq_refl) as Cn.
  cbn [withStatus Status IsDriver] in Ct, Cd, Cn.
  rewrite Hdr, Hroster in Ct, Cd, Cn. cbn [andb] in Cd, Cn.
  unfold rosterTotal, rosterDrivers, rosterNonDrivers in *.
  rewrite !filter_roster_kind in *. unfold rosterOf in *.
  destruct (reAdd_success tripId (id p) w1 trip
              (withStatus (droppedStatus today) p))
    as (updated & w2 & Hrun & Hst & Htable).
  - done.
  - rewrite Hs1.
    apply (find_id_NoDup _ (withStatus (droppedStatus today) p)).
    + by rewrite restatus_ids.
    + apply list_elem_of_fmap. exists p. split; [| done].
      unfold restatus. by rewrite bool_decide_eq_true_2.
  - rewrite Hs1. unfold rosterTotal, rosterOf. lia.
  - rewrite Hs1. cbn [withStatus IsDriver].
    unfold rosterDrivers, rosterNonDrivers.
    rewrite !filter_roster_kind. unfold rosterOf.
    destruct (IsDriver p); cbn [negb] in *; lia.
  - cbn [withStatus IsDriver] in Hst, Htable.
    exists updated, w2. split; [done |]. split; [done |].
    rewrite Htable. unfold w1. cbn [withSignups signupsTable].
    rewrite (patchTable_twice _ _ _ _ (selectedStatus (IsDriver p))) by done.
    rewrite signupsOfTrip_patch by apply selectedStatus_nonempty.
    fold signups. split; [done |].
    pose proof (count_restatus (λ s, isRosterStatus (Status s))
                  (id p) (selectedStatus (IsDriver p)) signups p Hnd' Hp
                  eq_refl) as Cf.
    cbn [withStatus Status] in Cf.
    rewrite isRosterStatus_selected, Hroster in Cf. lia.
Qed.

Lemma dropped_can_be_readded_witness :
  let table := [sampleRecord "a" true "Selected (driver)";
                sampleRecord "b" false "Waitlist (nondriver) - 1"] in
  let w := sampleWorld ∅ table in
  let today := mkDate 2025 3 9 in
  let p := normalizeSignup (sampleRecord "a" true "Selected (driver)") in
  let signups := signupsOfTrip "trip1" (signupsTable w) in
  let w1 := (dropParticipant today (id p) w).2 in
  ∃ updated w2,
    reAddParticipant "trip1" (id p) w1 = (inr updated, w2)
    ∧ Status updated = selectedStatus (IsDriver p)
    ∧ signupsOfTrip "trip1" (signupsTable w2)
      = restatus (id p) (selectedStatus (IsDriver p)) <$> signups
    ∧ rosterTotal (signupsOfTrip "trip1" (signupsTable w2))
      = rosterTotal signups.
Proof.
  intros table w today p signups.
  apply (dropped_can_be_readded today "trip1" w sampleTrip p).
  - eapply bool_decide_unpack. vm_compute. exact I.
  - reflexivity.
  - vm_compute. left.
  - reflexivity.
  - vm_compute. discriminate.
  - vm_compute. discriminate.
Defined.

(** ** Writing a status and reading it back (X14) *)

(** X14.  [updateSignup] followed by a read.  For a non-empty status and
    a record the table has, the update succeeds, answers the record with
    the status the store now holds, and every later read of any trip
    shows the signups as before with that status under that id; the two
    generic names are stored as the legacy strings, which the roster and
    waitlist filters recognise.  For an id the table does not have, the
    one PATCH fails and the table is as it was. *)
Theorem update_then_fetch i st w :
  st ≠ "" →
  let sent := if bool_decide (st = "Roster") then "ON TRIP"
              else if bool_decide (st = "Waitlist") then "WAITLIST"
              else st in
  (i ∈ rawId <$> signupsTable w →
   ∃ updated w',
     updateSignup i {| updStatus := Some st |} w = (inr updated, w')
     ∧ id updated = i
     ∧ Status updated = sent
     ∧ trace w' = trace w ++ [EvPatch i {| patchStatus := Some sent |}]
     ∧ ∀ tripId,
         signupsOfTrip tripId (signupsTable w')
         = restatus i sent <$> signupsOfTrip tripId (signupsTable w))
  ∧ (i ∉ rawId <$> signupsTable w →
     ∃ w', updateSignup i {| updStatus := Some st |} w
           = (inl UpstreamFailure, w')
           ∧ signupsTable w' = signupsTable w)
  ∧ (st = "Roster" → classes sent = (true, false, false))
  ∧ (st = "Waitlist" → classes sent = (false, true, false)).
Proof.
  intros Hst sent.
  assert (airtableUpdatesOf {| updStatus := Some st |}
          = {| patchStatus := Some sent |}) as Hsent.
  { unfold airtableUpdatesOf, sent. cbn [updStatus].
    by repeat case_bool_decide. }
  assert (sent ≠ "") as Hne
    by (unfold sent; by repeat case_bool_decide).
  split; [| split; [| split]].
  - intros Hin. destruct (recordById_is_Some _ _ Hin) as [r Hr].
    pose proof (recordById_Some _ _ _ Hr) as [_ Hrid].
    eexists _, _. split; [by apply updateSignup_found |].
    rewrite Hsent.
    split; [by rewrite normalize_patched_id |].
    split; [by apply normalize_patched_status |].
    split; [done |].
    intros tripId. cbn [withSignups signupsTable emit].
    by apply signupsOfTrip_patch.
  - intros Hnot.
    assert (recordById i (signupsTable w) = None) as Hnone.
    { destruct (recordById i (signupsTable w)) as [r|] eqn:E; [| done].
      apply recordById_Some in E as [Hr <-]. destruct Hnot.
      by apply list_elem_of_fmap_2. }
    eexists. split; [by apply updateSignup_missing | done].
  - intros ->. by unfold sent.
  - intros ->. by unfold sent.
Qed.

Lemma update_then_fetch_witness :
  let w := sampleWorld ∅ [sampleRecord "a" true "UNKNOWN"] in
  let sent := if bool_decide ("Roster" = "Roster") then "ON TRIP"
              else if bool_decide ("Roster" = "Waitlist") then "WAITLIST"
              else "Roster" in
  ("a" ∈ rawId <$> signupsTable w →
   ∃ updated w',
     updateSignup "a" {| updStatus := Some "Roster" |} w = (inr updated, w')
     ∧ id updated = "a"
     ∧ Status updated = sent
     ∧ trace w' = trace w ++ [EvPatch "a" {| patchStatus := Some sent |}]
     ∧ ∀ tripId,
         signupsOfTrip tripId (signupsTable w')
         = restatus "a" sent <$> signupsOfTrip tripId (signupsTable w))
  ∧ ("a" ∉ rawId <$> signupsTable w →
     ∃ w', updateSignup "a" {| updStatus := Some "Roster" |} w
           = (inl UpstreamFailure, w')
           ∧ signupsTable w' = signupsTable w)
  ∧ ("Roster" = "Roster" → classes sent = (true, false, false))
  ∧ ("Roster" = "Waitlist" → classes sent = (false, true, false)).
Proof.
  intros w. apply (update_then_fetch "a" "Roster" w). discriminate.
Defined.

(** ** Answers of the promotions (X15, X16) *)

(** X15.  At capacity nothing is promoted: when the roster of a trip the
    store knows has reached the trip's capacity, each of the four
    promotions is answered "Roster currently full!" — except a re-add of
    an id that is not among the trip's signups, which is answered
    "Participant not found" first. *)
Theorem full_roster_refuses_promotions req tripId w trip :
  isPromotion req = Some tripId →
  tripById tripId (tripsTable w) = Some trip →
  let signups := signupsOfTrip tripId (signupsTable w) in
  orZero (Capacity trip) ≤ rosterTotal signups →
  (route req w).1 = inl RosterFull
  ∨ ∃ participantId,
      req = PostReAddParticipant tripId participantId
      ∧ (participantId ∉ id <$> signups)
      ∧ (route req w).1 = inl ParticipantNotFound.
Proof.
  intros Hreq Htrip signups Hfull. unfold rosterTotal in Hfull.
  destruct req; try discriminate; injection Hreq as ->;
    cbn [route]; rewrite bind_mret_run.
  - left. unfold addFromWaitlist.
    erewrite bind_inr by (by apply fetchTripById_found).
    erewrite bind_inr by reflexivity.
    change (signupsTable (emit _ (emit _ w))) with (signupsTable w).
    cbv zeta. fold signups.
    by replace (orZero (Capacity trip) <=? _) with true
      by (symmetry; apply Z.leb_le; lia).
  - left. unfold addDriver.
    erewrite bind_inr by (by apply fetchTripById_found).
    erewrite bind_inr by reflexivity.
    change (signupsTable (emit _ (emit _ w))) with (signupsTable w).
    cbv zeta. fold signups.
    by replace (orZero (Capacity trip) <=? _) with true
      by (symmetry; apply Z.leb_le; lia).
  - left. unfold addNonDriver.
    erewrite bind_inr by (by apply fetchTripById_found).
    erewrite bind_inr by reflexivity.
    change (signupsTable (emit _ (emit _ w))) with (signupsTable w).
    cbv zeta. fold signups.
    by replace (orZero (Capacity trip) <=? _) with true
      by (symmetry; apply Z.leb_le; lia).
  - unfold reAddParticipant.
    erewrite bind_inr by (by apply fetchTripById_found).
    erewrite bind_inr by reflexivity.
    change (signupsTable (emit _ (emit _ w))) with (signupsTable w).
    cbv zeta. fold signups.
    destruct (find _ signups) as [p|] eqn:Hfind.
    + left. by replace (orZero (Capacity trip) <=? _) with true
        by (symmetry; apply Z.leb_le; lia).
    + right. exists participantId. split; [done |].
      split; [by apply find_id_None | done].
Qed.

Lemma full_roster_refuses_promotions_witness :
  let table := [sampleRecord "a" true "Selected (driver)";
                sampleRecord "b" true "Selected (driver)";
                sampleRecord "c" false "Selected (nondriver)";
                sampleRecord "d" false "ON TRIP";
                sampleRecord "e" false "on trip";
                sampleRecord "f" true "Waitlist (driver) - 1"] in
  let w := sampleWorld ∅ table in
  let req := PostAddDriver "trip1" in
  (route req w).1 = inl RosterFull
  ∨ ∃ participantId,
      req = PostReAddParticipant "trip1" participantId
      ∧ (participantId ∉ id <$> signupsOfTrip "trip1" (signupsTable w))
      ∧ (route req w).1 = inl ParticipantNotFound.
Proof.
  intros table w req.
  apply (full_roster_refuses_promotions req "trip1" w sampleTrip).
  - reflexivity.
  - reflexivity.
  - vm_compute. discriminate.
Defined.

(** X16.  The last answer of the generic promotion, "No suitable
    participant found on waitlist", is never given: below capacity the
    free driver spots and the free non-driver spots add up to the free
    places, so one of the two kinds is open and one of the earlier
    answers applies. *)
Theorem promote_never_unsuitable tripId w :
  (addFromWaitlist tripId w).1 ≠ inl NoSuitableParticipant.
Proof.
  unfold addFromWaitlist.
  destruct (tripById tripId (tripsTable w)) as [trip|] eqn:Htrip;
    [| by erewrite bind_inl by (by apply fetchTripById_missing)].
  erewrite bind_inr by (by apply fetchTripById_found).
  erewrite bind_inr by reflexivity.
  change (signupsTable (emit _ (emit _ w))) with (signupsTable w).
  cbv zeta.
  set (signups := signupsOfTrip tripId (signupsTable w)).
  destruct (Z.leb_spec (orZero (Capacity trip))
              (Z.of_nat (length (rosterOf signups)))) as [Hfull | Hroom];
    [done |].
  case_bool_decide; [done |].
  assert (∀ (p : Signup) w0,
            (updateSignup (id p)
               {| updStatus := Some (selectedStatus (IsDriver p)) |} w0).1
            ≠ inl NoSuitableParticipant) as Hupd.
  { intros p w0. unfold updateSignup. cbv zeta.
    by destruct (recordById _ _). }
  destruct (Z.ltb_spec 0 (orZero (AdditionalDriversRequired trip)
                          - Z.of_nat (length (filter (λ s, IsDriver s)
                                                (rosterOf signups)))))
    as [Hd | Hd];
    destruct (Z.ltb_spec 0 (orZero (Capacity trip)
                            - orZero (AdditionalDriversRequired trip)
                            - (Z.of_nat (length (rosterOf signups))
                               - Z.of_nat (length (filter (λ s, IsDriver s)
                                                     (rosterOf signups))))))
      as [Hn | Hn]; cbn [andb]; [| | | lia].
  - destruct (first (filter (λ s, IsDriver s) _)) as [d|];
      [erewrite bind_inr by reflexivity; apply Hupd |].
    destruct (first (filter (λ s, negb (IsDriver s)) _)) as [d|];
      [erewrite bind_inr by reflexivity; apply Hupd | done].
  - destruct (first (filter (λ s, IsDriver s) _)) as [d|];
      [erewrite bind_inr by reflexivity; apply Hupd | done].
  - destruct (first (filter (λ s, negb (IsDriver s)) _)) as [d|];
      [erewrite bind_inr by reflexivity; apply Hupd | done].
Qed.

(** ** What the views show after an approval (X17) *)

Lemma tableAfter_fmap tasks table :
  tableAfter tasks table = applyTasks tasks <$> table.
Proof.
  unfold tableAfter, applyTasks. revert table.
  induction tasks as [|t tasks IH]; intros table.
  - cbn. by rewrite list_fmap_id.
  - cbn [foldl]. rewrite IH. unfold patchTable.
    rewrite <- list_fmap_compose. by apply list_fmap_ext.
Qed.

Lemma applyTasks_rawId tasks r : rawId (applyTasks tasks r) = rawId r.
Proof.
  unfold applyTasks. revert r.
  induction tasks as [|t tasks IH]; intros r; [done |].
  cbn [foldl]. rewrite IH. case_bool_decide; [apply applyPatch_rawId | done].
Qed.

Lemma applyTasks_absent tasks r :
  rawId r ∉ tasks.*1 → applyTasks tasks r = r.
Proof.
  unfold applyTasks. induction tasks as [|t tasks IH]; [done |].
  cbn [fmap list_fmap foldl]. intros [Ht Hrest]%not_elem_of_cons.
  rewrite bool_decide_eq_false_2 by done. by apply IH.
Qed.

Lemma applyTasks_present tasks r st :
  NoDup tasks.*1 → (rawId r, st) ∈ tasks →
  applyTasks tasks r = applyPatch {| patchStatus := Some st |} r.
Proof.
  induction tasks as [|t tasks IH]; intros Hnd Hin;
    [by apply elem_of_nil in Hin |].
  cbn [fmap list_fmap] in Hnd. apply NoDup_cons in Hnd as [Ht Hnd].
  change (applyTasks (t :: tasks) r)
    with (applyTasks tasks
            (if bool_decide (rawId r = t.1)
             then applyPatch {| patchStatus := Some t.2 |} r else r)).
  apply elem_of_cons in Hin as [<- | Hin].
  - cbn [fst snd]. rewrite bool_decide_eq_true_2 by done.
    apply applyTasks_absent. by rewrite applyPatch_rawId.
  - rewrite bool_decide_eq_false_2; [by apply IH |].
    intros Heq. apply Ht. rewrite <- Heq.
    by apply (list_elem_of_fmap_2 fst) in Hin.
Qed.

Lemma applyTasks_linked tripId tasks r :
  linkedToTrip tripId (applyTasks tasks r) = linkedToTrip tripId r.
Proof.
  unfold applyTasks. revert r.
  induction tasks as [|t tasks IH]; intros r; [done |].
  cbn [foldl]. rewrite IH.
  case_bool_decide; [apply linkedToTrip_patched | done].
Qed.

Lemma filter_linked_fmap tripId (g : AirtableSignup → AirtableSignup)
    (table : list AirtableSignup) :
  (∀ r, linkedToTrip tripId (g r) = linkedToTrip tripId r) →
  filter (λ r, linkedToTrip tripId r) (g <$> table)
  = g <$> filter (λ r, linkedToTrip tripId r) table.
Proof.
  intros Hg. induction table as [|r table IH]; [done |].
  cbn [fmap list_fmap]. destruct (linkedToTrip tripId r) eqn:E.
  - rewrite !filter_cons_True by (by rewrite ?Hg, ?E).
    cbn [fmap list_fmap]. by rewrite <- IH.
  - by rewrite !filter_cons_False by (rewrite ?Hg, ?E; cbn; tauto).
Qed.

Lemma rosterUpdatesOf_ids signupMap r :
  (rosterUpdatesOf signupMap r).*1 `sublist_of` r.
Proof.
  unfold rosterUpdatesOf. induction r as [|i r IH]; [done |].
  cbn [omap list_omap]. destruct (signupMap !! i) as [s|]; cbn.
  - by apply sublist_skip.
  - by apply sublist_cons.
Qed.

Lemma waitlistUpdatesOf_ids signupMap wl :
  (waitlistUpdatesOf signupMap wl).*1
  = filter (λ id, resolvesAs signupMap true id) wl
    ++ filter (λ id, resolvesAs signupMap false id) wl.
Proof.
  rewrite waitlistUpdatesOf_numbered. cbv zeta.
  rewrite fmap_app, !fst_zip; [done | |];
    by rewrite length_fmap, length_seq.
Qed.

Lemma approveTasks_NoDup tripId r wl table :
  NoDup (r ++ wl) → NoDup (approveTasks tripId r wl table).*1.
Proof.
  intros Hnd. apply NoDup_app in Hnd as (Hr & Hdisj & Hwl).
  unfold approveTasks. cbv zeta. rewrite fmap_app, waitlistUpdatesOf_ids.
  set (m := signupMapOf (signupsOfTrip tripId table)).
  apply NoDup_app. split; [| split].
  - eapply sublist_NoDup; [exact Hr | apply rosterUpdatesOf_ids].
  - intros i Hi Hin.
    pose proof (elem_of_sublist _ _ _ Hi (rosterUpdatesOf_ids m r)) as Hir.
    apply (Hdisj i Hir).
    by apply elem_of_app in Hin as [[_ ?]%list_elem_of_filter
                                   | [_ ?]%list_elem_of_filter].
  - apply NoDup_app. split; [by apply NoDup_filter | split].
    + intros i [Ht _]%list_elem_of_filter [Hf _]%list_elem_of_filter.
      apply Is_true_true, resolvesAs_true in Ht as (s & Hs & Hd).
      apply Is_true_true, resolvesAs_true in Hf as (s' & Hs' & Hd').
      congruence.
    + by apply NoDup_filter.
Qed.

Lemma NoDup_fmap_eq {A B} (f : A → B) (l : list A) x y :
  NoDup (f <$> l) → x ∈ l → y ∈ l → f x = f y → x = y.
Proof.
  induction l as [|z l IH]; intros Hnd Hx Hy Heq;
    [by apply elem_of_nil in Hx |].
  cbn [fmap list_fmap] in Hnd. apply NoDup_cons in Hnd as [Hz Hnd].
  apply elem_of_cons in Hx as [-> | Hx];
    apply elem_of_cons in Hy as [-> | Hy].
  - done.
  - destruct Hz. rewrite Heq. by apply list_elem_of_fmap_2.
  - destruct Hz. rewrite <- Heq. by apply list_elem_of_fmap_2.
  - by apply IH.
Qed.

Lemma signupMapOf_NoDup signups s :
  NoDup (id <$> signups) → s ∈ signups →
  signupMapOf signups !! id s = Some s.
Proof.
  intros Hnd Hs.
  destruct (signupMapOf_fold_is_Some signups ∅ (id s)) as [s0 Hs0].
  { right. by apply list_elem_of_fmap_2. }
  fold (signupMapOf signups) in Hs0. rewrite Hs0. f_equal.
  apply signupMapOf_lookup in Hs0 as [Hin Hid].
  by apply (NoDup_fmap_eq id signups).
Qed.

Lemma classes_selected b : classes (selectedStatus b) = (true, false, false).
Proof. by destruct b. Qed.

Lemma classes_waitlist b index :
  classes (waitlistStatus b index) = (false, true, false).
Proof.
  unfold waitlistStatus.
  rewrite classes_app_stamp by apply StrFacts.pretty_nat_stamp.
  by destruct b.
Qed.

Lemma waitlistStatus_nonempty b index : waitlistStatus b index ≠ "".
Proof. unfold waitlistStatus. destruct b; simpl; discriminate. Qed.

Lemma withStatus_same s : withStatus (Status s) s = s.
Proof. by destruct s. Qed.

Lemma approveTasks_for tripId r wl table s :
  NoDup (rawId <$> table) →
  s ∈ signupsOfTrip tripId table →
  (id s ∈ r →
   (id s, selectedStatus (IsDriver s)) ∈ approveTasks tripId r wl table)
  ∧ (id s ∈ wl →
     ∃ index, (id s, waitlistStatus (IsDriver s) index)
              ∈ approveTasks tripId r wl table)
  ∧ (id s ∉ r → id s ∉ wl → id s ∉ (approveTasks tripId r wl table).*1).
Proof.
  intros Hnd Hs.
  pose proof (signupMapOf_NoDup _ s (signupsOfTrip_NoDup tripId _ Hnd) Hs)
    as Hmap.
  unfold approveTasks. cbv zeta.
  set (m := signupMapOf (signupsOfTrip tripId table)) in *.
  split; [| split].
  - intros Hr. apply elem_of_app. left.
    apply rosterUpdatesOf_elem. cbn. eauto.
  - intros Hwl. unfold waitlistUpdatesOf.
    destruct (IsDriver s) eqn:Hd.
    + assert (id s ∈ filter (λ i, resolvesAs m true i) wl) as Hin.
      { apply list_elem_of_filter. split; [| done].
        apply Is_true_true, resolvesAs_true. eauto. }
      apply list_elem_of_lookup in Hin as [index Hindex].
      exists index. apply elem_of_app. right. apply elem_of_app. left.
      by apply (elem_of_lookup_imap_2
                  (λ index i, (i, waitlistStatus true index)) _ _ index).
    + assert (id s ∈ filter (λ i, resolvesAs m false i) wl) as Hin.
      { apply list_elem_of_filter. split; [| done].
        apply Is_true_true, resolvesAs_true. eauto. }
      apply list_elem_of_lookup in Hin as [index Hindex].
      exists index. apply elem_of_app. right. apply elem_of_app. right.
      by apply (elem_of_lookup_imap_2
                  (λ index i, (i, waitlistStatus false index)) _ _ index).
  - intros Hr Hwl. rewrite fmap_app, waitlistUpdatesOf_ids.
    intros [Hin | [Hin | Hin]%elem_of_app]%elem_of_app.
    + apply Hr. eapply elem_of_sublist; [exact Hin |].
      apply rosterUpdatesOf_ids.
    + by apply list_elem_of_filter in Hin as [_ ?].
    + by apply list_elem_of_filter in Hin as [_ ?].
Qed.

(** X17. After an approval that passed both checks, every signup of the
    trip reads as before except for its status: a signup whose id was on
    the request's roster list now reads "Selected (driver)" or "Selected
    (nondriver)" by its own driver flag and is on the roster view only; a
    signup whose id was on the request's waitlist list reads a numbered
    "Waitlist" status of its own flag and is on the waitlist view only;
    every other signup of the trip reads exactly as before. (Record ids
    are unique in the table, and no id occurs twice in the request.) *)
Theorem approval_shows_in_views tripId r wl w p :
  proposedRosters w !! tripId = Some p →
  idsMatch r (rosterIds p) = true →
  idsMatch wl (waitlistIds p) = true →
  NoDup (rawId <$> signupsTable w) →
  NoDup (r ++ wl) →
  Forall2 (approvedAs r wl)
    (signupsOfTrip tripId (signupsTable w))
    (signupsOfTrip tripId
       (signupsTable (approveRandomization tripId r wl w).2)).
Proof.
  intros Hp Hr Hwl Hnd Hreq.
  rewrite (approve_matching _ _ _ _ _ Hp Hr Hwl). cbn [snd signupsTable].
  rewrite tableAfter_fmap. unfold signupsOfTrip. cbv zeta.
  rewrite filter_linked_fmap by (intros; apply applyTasks_linked).
  rewrite <- list_fmap_compose. apply Forall2_fmap.
  apply Forall_Forall2_diag, Forall_forall. intros r0 Hr0. cbn [compose].
  set (tasks := approveTasks tripId r wl (signupsTable w)).
  pose proof (approveTasks_NoDup tripId r wl (signupsTable w) Hreq) as Htasks.
  fold tasks in Htasks.
  assert (normalizeSignup r0 ∈ signupsOfTrip tripId (signupsTable w)) as Hs
    by (by apply list_elem_of_fmap_2).
  destruct (approveTasks_for tripId r wl _ _ Hnd Hs) as (Hsel & Hwait & Hout).
  fold tasks in Hsel, Hwait, Hout.
  apply NoDup_app in Hreq as (_ & Hdisj & _).
  set (s := normalizeSignup r0) in *.
  assert (id s = rawId r0) as Hid by reflexivity.
  destruct (decide (id s ∈ r)) as [Hir | Hir];
    [| destruct (decide (id s ∈ wl)) as [Hiwl | Hiwl]].
  - specialize (Hsel Hir). rewrite Hid in Hsel.
    rewrite (applyTasks_present _ _ _ Htasks Hsel).
    rewrite (normalize_patched _ _ (selectedStatus (IsDriver s)))
      by (done || apply selectedStatus_nonempty).
    fold s. split; [done |]. split; [| split].
    + intros _. split; [done | apply classes_selected].
    + intros Hiwl. by destruct (Hdisj _ Hir).
    + done.
  - destruct (Hwait Hiwl) as [index Hin]. rewrite Hid in Hin.
    rewrite (applyTasks_present _ _ _ Htasks Hin).
    rewrite (normalize_patched _ _ (waitlistStatus (IsDriver s) index))
      by (done || apply waitlistStatus_nonempty).
    fold s. split; [done |]. split; [| split].
    + done.
    + intros _. split; [by exists index | apply classes_waitlist].
    + done.
  - rewrite applyTasks_absent by (rewrite <- Hid; by apply Hout).
    fold s. split; [by rewrite withStatus_same |]. done.
Qed.

Lemma approval_shows_in_views_witness :
  let w := sampleWorld (sampleProposal ["a"] ["b"] 0)
             [sampleRecord "a" true "UNKNOWN";
              sampleRecord "b" false "UNKNOWN"] in
  Forall2 (approvedAs ["a"] ["b"])
    (signupsOfTrip "trip1" (signupsTable w))
    (signupsOfTrip "trip1"
       (signupsTable (approveRandomization "trip1" ["a"] ["b"] w).2)).
Proof.
  intros w.
  apply (approval_shows_in_views "trip1" ["a"] ["b"] w
           {| rosterIds := ["a"]; waitlistIds := ["b"]; timestamp := 0 |}).
  - reflexivity.
  - reflexivity.
  - reflexivity.
  - by apply (bool_decide_unpack _).
  - by apply (bool_decide_unpack _).
Defined.

(** ** Who the kind-specific promotions take (X18) *)

Lemma first_filter_split {A} (P : A → bool) (l : list A) d :
  first (filter (λ y, P y) l) = Some d →
  ∃ before after,
    l = before ++ d :: after
    ∧ Forall (λ y, P y = false) before
    ∧ P d = true.
Proof.
  induction l as [|a l IH]; [done |].
  destruct (P a) eqn:E.
  - rewrite filter_cons_True by (by rewrite E). intros [= ->].
    by exists [], l.
  - rewrite filter_cons_False by (rewrite E; cbn; tauto).
    intros (before & after & -> & Hb & Hd)%IH.
    exists (a :: before), after. split; [done |]. split; [| done].
    by apply Forall_cons.
Qed.

(** X18.  "Add driver" and "add non-driver" take the first signup of
    their kind on the waitlist view, in the order the store lists the
    signups — the number in a "Waitlist ... - n" status plays no part:
    whenever one of them succeeds, the signup it answers carries the id of
    a waitlisted signup [d] of the asked kind that no waitlisted signup of
    that kind precedes, and the "Selected" status of the kind. *)
Theorem kind_promotion_takes_first (driver : bool) tripId w updated :
  ((if driver then addDriver else addNonDriver) tripId w).1 = inr updated →
  ∃ before d after,
    waitlistOf (signupsOfTrip tripId (signupsTable w)) = before ++ d :: after
    ∧ Forall (λ s, IsDriver s = negb driver) before
    ∧ IsDriver d = driver
    ∧ id updated = id d
    ∧ Status updated = selectedStatus driver.
Proof.
  destruct driver.
  - unfold addDriver.
    destruct (tripById tripId (tripsTable w)) as [trip|] eqn:Htrip;
      [| by erewrite bind_inl by (by apply fetchTripById_missing)].
    erewrite bind_inr by (by apply fetchTripById_found).
    erewrite bind_inr by reflexivity.
    change (signupsTable (emit _ (emit _ w))) with (signupsTable w).
    cbv zeta.
    set (signups := signupsOfTrip tripId (signupsTable w)).
    destruct (_ <=? _); [done |]. destruct (_ <=? _); [done |].
    destruct (first (filter (λ s, IsDriver s) _)) as [d|] eqn:E; [| done].
    pose proof (first_drivers _ _ E) as [Hin%waitlistOf_elem _].
    apply first_filter_split in E as (before & after & Hsplit & Hb & Hd).
    destruct (promote_update tripId (emit (EvListSignups tripId)
                                       (emit (EvGetTrip tripId) w))
                w d true eq_refl Hin) as (u & Hu & Hid & Hst).
    change (selectedStatus true) with "Selected (driver)" in Hu.
    rewrite Hu. intros [= <-].
    exists before, d, after. split; [done |]. split; [| done].
    eapply Forall_impl; [exact Hb |]. by intros s ->.
  - unfold addNonDriver.
    destruct (tripById tripId (tripsTable w)) as [trip|] eqn:Htrip;
      [| by erewrite bind_inl by (by apply fetchTripById_missing)].
    erewrite bind_inr by (by apply fetchTripById_found).
    erewrite bind_inr by reflexivity.
    change (signupsTable (emit _ (emit _ w))) with (signupsTable w).
    cbv zeta.
    set (signups := signupsOfTrip tripId (signupsTable w)).
    destruct (_ <=? _); [done |]. destruct (_ <=? _); [done |].
    destruct (first (filter (λ s, negb (IsDriver s)) _)) as [d|] eqn:E;
      [| done].
    pose proof (first_non_drivers _ _ E) as [Hin%waitlistOf_elem _].
    apply (first_filter_split (λ s, negb (IsDriver s))) in E
      as (before & after & Hsplit & Hb & Hd).
    destruct (promote_update tripId (emit (EvListSignups tripId)
                                       (emit (EvGetTrip tripId) w))
                w d false eq_refl Hin) as (u & Hu & Hid & Hst).
    change (selectedStatus false) with "Selected (nondriver)" in Hu.
    rewrite Hu. intros [= <-].
    exists before, d, after. split; [done |]. split.
    + eapply Forall_impl; [exact Hb |]. intros s Hs. cbn in Hs.
      by destruct (IsDriver s).
    + split; [by destruct (IsDriver d) | done].
Qed.

Lemma kind_promotion_takes_first_witness :
  let w := sampleWorld ∅
             [sampleRecord "a" false "Waitlist (nondriver) - 1";
              sampleRecord "b" true "Waitlist (driver) - 2";
              sampleRecord "c" true "Waitlist (driver) - 1"] in
  let updated := normalizeSignup (sampleRecord "b" true "Selected (driver)") in
  ∃ before d after,
    waitlistOf (signupsOfTrip "trip1" (signupsTable w)) = before ++ d :: after
    ∧ Forall (λ s, IsDriver s = negb true) before
    ∧ IsDriver d = true
    ∧ id updated = id d
    ∧ Status updated = selectedStatus true.
Proof.
  intros w updated.
  apply (kind_promotion_takes_first true "trip1" w updated).
  reflexivity.
Defined.
